(** * The ChocoPy type checker ([type-check.ts]), embedded in Rocq

    The checker is JavaScript: its types are heap objects compared by [===]
    (reference identity), its environments are [Map] objects that are read and
    written in place, and its diagnostics are thrown exceptions.  The
    embedding keeps all three:

    - a type object is a value tagged with the address of the object, so that
      [===] is object identity and [equalType] is what the source says;
    - the [Map] objects live in a heap, every [new Map], [has], [get] and
      [set] is an operation on that heap;
    - a computation is a function from a heap to a result (a value or a
      thrown exception) and the heap it leaves behind. *)

From Stdlib Require Import ZArith.
From stdpp Require Import base option list strings pretty gmap.

Local Open Scope string_scope.
Local Open Scope nat_scope.
#[local] Set Warnings "-register-all".

(** ** The AST ([ast.ts]) and the constants of [utils.ts] *)

(** Modelled from the spec: [ast.ts] is not part of the sources at hand.  A
    static type is a tagged variant: number, bool, none, or class with a
    name.  The tags ["none"] and ["class"] are read by the checker itself. *)
Inductive Shape :=
| TNumber
| TBool
| TNone
| TClass (name : string).

#[global] Instance Shape_eq_dec : EqDecision Shape.
Proof. solve_decision. Defined.

(** A type object: the address of the object in the JavaScript heap and its
    (immutable) content.  Two type objects are the same object exactly when
    they are equal as such pairs. *)
Record Ty := mkTy { addr : nat; shape : Shape }.

#[global] Instance Ty_eq_dec : EqDecision Ty.
Proof. solve_decision. Defined.

#[global] Instance Ty_inhabited : Inhabited Ty := populate (mkTy 0 TNumber).

(** [t.tag] *)
Definition tag (t : Ty) : string :=
  match shape t with
  | TNumber => "number"
  | TBool => "bool"
  | TNone => "none"
  | TClass _ => "class"
  end.

(** [t.tag === "class" ? t.name : t.tag] *)
Definition nameOrTag (t : Ty) : string :=
  match shape t with
  | TClass name => name
  | _ => tag t
  end.

(** [t1 === t2] on type objects *)
Definition same_object (t1 t2 : Ty) : bool := bool_decide (t1 = t2).

(** Modelled from the spec: [utils.ts] is not part of the sources at hand.
    [NUM], [BOOL] and [NONE] are three shared objects made once, when the
    module is loaded; [CLASS] (below) makes a new object at every call. *)
Definition NUM : Ty := mkTy 0 TNumber.
Definition BOOL : Ty := mkTy 1 TBool.
Definition NONE : Ty := mkTy 2 TNone.

(** Modelled from the spec: a source location, carried by every node. *)
Definition Location := nat.

Inductive Literal :=
| LBool (value : bool)
| LNum (value : Z)
| LNone.

Module BinOp.
Inductive t := Plus | Minus | Mul | IDiv | Mod | Eq | Neq | Lte | Gte | Lt | Gt | Is | And | Or.
(** [BinOp[op]] *)
Definition name (op : t) : string :=
  match op with
  | Plus => "Plus" | Minus => "Minus" | Mul => "Mul" | IDiv => "IDiv" | Mod => "Mod"
  | Eq => "Eq" | Neq => "Neq" | Lte => "Lte" | Gte => "Gte" | Lt => "Lt" | Gt => "Gt"
  | Is => "Is" | And => "And" | Or => "Or"
  end.
End BinOp.

Module UniOp.
Inductive t := Neg | Not.
(** [UniOp[op]] *)
Definition name (op : t) : string :=
  match op with Neg => "Neg" | Not => "Not" end.
End UniOp.

(** An expression node.  [a] is the annotation: [None] when the node has no
    [a] property (the parser's nodes), [Some t] once annotated. *)
Inductive Expr :=
| ELiteral (a : option Ty) (value : Literal) (loc : Location)
| EBinop (a : option Ty) (op : BinOp.t) (left right : Expr) (loc : Location)
| EUniop (a : option Ty) (op : UniOp.t) (expr : Expr) (loc : Location)
| EId (a : option Ty) (name : string) (loc : Location)
| EBuiltin1 (a : option Ty) (name : string) (arg : Expr) (loc : Location)
| EBuiltin2 (a : option Ty) (name : string) (left right : Expr) (loc : Location)
| ECall (a : option Ty) (name : string) (arguments : list Expr) (loc : Location)
| ELookup (a : option Ty) (obj : Expr) (field : string) (loc : Location)
| EMethodCall (a : option Ty) (obj : Expr) (method : string) (arguments : list Expr)
    (loc : Location)
| EConstruct (a : option Ty) (name : string) (loc : Location).

(** [expr.a], [expr.tag] and [expr.loc] *)
Definition Expr_a (e : Expr) : option Ty :=
  match e with
  | ELiteral a _ _ | EBinop a _ _ _ _ | EUniop a _ _ _ | EId a _ _
  | EBuiltin1 a _ _ _ | EBuiltin2 a _ _ _ _ | ECall a _ _ _ | ELookup a _ _ _
  | EMethodCall a _ _ _ _ | EConstruct a _ _ => a
  end.

Definition Expr_tag (e : Expr) : string :=
  match e with
  | ELiteral _ _ _ => "literal"
  | EBinop _ _ _ _ _ => "binop"
  | EUniop _ _ _ _ => "uniop"
  | EId _ _ _ => "id"
  | EBuiltin1 _ _ _ _ => "builtin1"
  | EBuiltin2 _ _ _ _ _ => "builtin2"
  | ECall _ _ _ _ => "call"
  | ELookup _ _ _ _ => "lookup"
  | EMethodCall _ _ _ _ _ => "method-call"
  | EConstruct _ _ _ => "construct"
  end.

Definition Expr_loc (e : Expr) : Location :=
  match e with
  | ELiteral _ _ loc | EBinop _ _ _ _ loc | EUniop _ _ _ loc | EId _ _ loc
  | EBuiltin1 _ _ _ loc | EBuiltin2 _ _ _ _ loc | ECall _ _ _ loc | ELookup _ _ _ loc
  | EMethodCall _ _ _ _ loc | EConstruct _ _ loc => loc
  end.

(** A statement node. *)
Inductive Stmt :=
| SAssignment (a : option Ty) (loc : Location)
| SAssign (a : option Ty) (name : string) (value : Expr) (loc : Location)
| SExpr (a : option Ty) (expr : Expr) (loc : Location)
| SIf (a : option Ty) (cond : Expr) (thn els : list Stmt) (loc : Location)
| SReturn (a : option Ty) (value : Expr) (loc : Location)
| SWhile (a : option Ty) (cond : Expr) (body : list Stmt) (loc : Location)
| SPass (a : option Ty) (loc : Location)
| SFieldAssign (a : option Ty) (obj : Expr) (field : string) (value : Expr)
    (loc : Location).

Definition Stmt_a (s : Stmt) : option Ty :=
  match s with
  | SAssignment a _ | SAssign a _ _ _ | SExpr a _ _ | SIf a _ _ _ _ | SReturn a _ _
  | SWhile a _ _ _ | SPass a _ | SFieldAssign a _ _ _ _ => a
  end.

Record VarInit := mkVarInit {
  init_a : option Ty;
  init_name : string;
  init_type : Ty;
  init_value : Literal;
  init_loc : Location
}.

Record Param := mkParam { param_name : string; param_type : Ty }.

Record FunDef := mkFunDef {
  fun_a : option Ty;
  fun_name : string;
  fun_parameters : list Param;
  fun_ret : Ty;
  fun_inits : list VarInit;
  fun_body : list Stmt;
  fun_loc : Location
}.

Record Class := mkClass {
  cls_a : option Ty;
  cls_name : string;
  cls_fields : list VarInit;
  cls_methods : list FunDef;
  cls_loc : Location
}.

Record Program := mkProgram {
  prog_a : option Ty;
  prog_inits : list VarInit;
  prog_funs : list FunDef;
  prog_classes : list Class;
  prog_stmts : list Stmt;
  prog_loc : Location
}.

(** ** Exceptions ([error.ts]) *)

(** Modelled from the spec: [error.ts] is not part of the sources at hand.
    One constructor per exception class the checker throws, with the
    arguments the checker passes.  [NativeTypeError] is not one of them: it
    is the [TypeError] the JavaScript runtime itself raises when a property
    of [undefined] is read or [undefined] is destructured. *)
Inductive Exception :=
| BaseError (message : string) (loc : Location)
| NameError (name : string) (loc : Location)
| TypeMismatchError (expected actual : string) (loc : Location)
| ConditionTypeError (type : string) (loc : Location)
| SyntaxError (message : string) (loc : Location)
| UnsupportedOprandTypeError (op : string) (types : list string) (loc : Location)
| AttributeError (owner attr : string) (loc : Location)
| TypeError (message : string) (loc : Location)
| NativeTypeError.

#[global] Instance Exception_eq_dec : EqDecision Exception.
Proof. solve_decision. Defined.

(** The diagnostics the checker defines, as opposed to a failure of the
    runtime. *)
Definition is_diagnostic (e : Exception) : bool :=
  match e with NativeTypeError => false | _ => true end.

(** ** The heap of [Map] objects and the checker's computations *)

(** A reference to a [Map<string, V>] object. *)
Record MapRef (V : Type) := mkRef { address : nat }.
Arguments mkRef {V} address.
Arguments address {V} _.

(** [[Array<Type>, Type]]: the parameter types and the return type. *)
Abbreviation Sig := (list Ty * Ty)%type.

(** [[Map<string, Type>, Map<string, [Array<Type>, Type]>]]: the fields and
    the methods of a class. *)
Abbreviation ClassEntry := (MapRef Ty * MapRef (list Ty * Ty))%type.

(** The heap: the content of every [Map] object, by address and by the kind
    of its values, and the address the next new object gets.  Type objects
    made by [CLASS] take their address from the same counter. *)
Record Heap := mkHeap {
  next : nat;
  typeMaps : gmap nat (gmap string Ty);
  sigMaps : gmap nat (gmap string Sig);
  classMaps : gmap nat (gmap string ClassEntry)
}.

Definition bump (h : Heap) : Heap :=
  mkHeap (S (next h)) (typeMaps h) (sigMaps h) (classMaps h).

(** [h'] has every [Map] object of [h] whose address is below [n], with the
    content it has in [h]; it may have more objects than [h]. *)
Definition preserves (n : nat) (h h' : Heap) : Prop :=
  (next h ≤ next h')%nat
  ∧ ∀ x, (x < n)%nat →
      typeMaps h' !! x = typeMaps h !! x
      ∧ sigMaps h' !! x = sigMaps h !! x
      ∧ classMaps h' !! x = classMaps h !! x.

(** The kinds of values a [Map] of the checker holds: where the heap keeps
    the maps of that kind, and that writing them leaves the rest alone. *)
Class Stored (V : Type) := {
  maps_of : Heap → gmap nat (gmap string V);
  with_maps : gmap nat (gmap string V) → Heap → Heap;
  maps_of_with_maps m h : maps_of (with_maps m h) = m;
  next_with_maps m h : next (with_maps m h) = next h;
  maps_of_bump h : maps_of (bump h) = maps_of h;
  with_maps_preserves n m h :
    (∀ x, (x < n)%nat → m !! x = maps_of h !! x) → preserves n h (with_maps m h);
  maps_of_preserved n h h' x :
    preserves n h h' → (x < n)%nat → maps_of h' !! x = maps_of h !! x
}.

#[global, refine] Instance Ty_stored : Stored Ty := {|
  maps_of := typeMaps;
  with_maps m h := mkHeap (next h) m (sigMaps h) (classMaps h)
|}.
Proof.
  all: try reflexivity.
  - intros n m h Hm. split; [done|]. intros x Hx. cbn. auto.
  - intros n h h' x [_ Hp] Hx. apply Hp, Hx.
Defined.

#[global, refine] Instance Sig_stored : Stored Sig := {|
  maps_of := sigMaps;
  with_maps m h := mkHeap (next h) (typeMaps h) m (classMaps h)
|}.
Proof.
  all: try reflexivity.
  - intros n m h Hm. split; [done|]. intros x Hx. cbn. auto.
  - intros n h h' x [_ Hp] Hx. apply Hp, Hx.
Defined.

#[global, refine] Instance ClassEntry_stored : Stored ClassEntry := {|
  maps_of := classMaps;
  with_maps m h := mkHeap (next h) (typeMaps h) (sigMaps h) m
|}.
Proof.
  all: try reflexivity.
  - intros n m h Hm. split; [done|]. intros x Hx. cbn. auto.
  - intros n h h' x [_ Hp] Hx. apply Hp, Hx.
Defined.

(** The outcome of a call: the returned value, or the exception thrown. *)
Inductive Result (A : Type) :=
| Ok (value : A)
| Throw (e : Exception).
Arguments Ok {A} value.
Arguments Throw {A} e.

(** A computation of the checker. *)
Definition M (A : Type) : Type := Heap → Result A * Heap.

#[global] Instance M_ret : MRet M := λ A (x : A) h, (Ok x, h).

#[global] Instance M_bind : MBind M := λ A B (f : A → M B) (m : M A) h,
  match m h with
  | (Ok x, h') => f x h'
  | (Throw e, h') => (Throw e, h')
  end.

Definition throw {A} (e : Exception) : M A := λ h, (Throw e, h).

(** [array.map(f)] with a callback that may throw: left to right, stopping
    at the first exception. *)
Definition mapM {A B} (f : A → M B) : list A → M (list B) :=
  fix go l :=
    match l with
    | [] => mret []
    | x :: xs => y ← f x; ys ← go xs; mret (y :: ys)
    end.

(** [array.forEach(f)] and [for (let x of array) f(x)] *)
Definition forEach {A} (f : A → M unit) : list A → M unit :=
  fix go l :=
    match l with
    | [] => mret tt
    | x :: xs => f x;; go xs
    end.

(** A value that may be [undefined] is used as an object (a property is read
    from it, or it is destructured): the runtime throws on [undefined]. *)
Definition defined {A} (o : option A) : M A :=
  match o with
  | Some x => mret x
  | None => throw NativeTypeError
  end.

(** [CLASS(name)]: a new type object. *)
Definition CLASS (name : string) : M Ty :=
  λ h, (Ok (mkTy (next h) (TClass name)), bump h).

Section MapObjects.
Context {V : Type} `{Stored V}.

(** the content of the [Map] object at [r], in the heap [h] *)
Definition content (h : Heap) (r : MapRef V) : gmap string V :=
  maps_of h !!! address r.

Definition entries (r : MapRef V) : M (gmap string V) :=
  λ h, (Ok (content h r), h).

(** [new Map()] and [new Map(old)], the second given the content of [old] *)
Definition new_Map (content : gmap string V) : M (MapRef V) :=
  λ h, (Ok (mkRef (next h)), bump (with_maps (<[next h := content]> (maps_of h)) h)).

Definition copy_Map (old : MapRef V) : M (MapRef V) :=
  content ← entries old; new_Map content.

(** [r.has(key)], [r.get(key)], [r.set(key, value)], [r.keys()] *)
Definition has (r : MapRef V) (key : string) : M bool :=
  content ← entries r; mret (bool_decide (is_Some (content !! key))).

Definition get (r : MapRef V) (key : string) : M (option V) :=
  content ← entries r; mret (content !! key).

Definition set (r : MapRef V) (key : string) (value : V) : M unit :=
  λ h, (Ok tt,
        with_maps (<[address r := <[key := value]> (content h r)]> (maps_of h)) h).

Definition keys (r : MapRef V) : M (list string) :=
  content ← entries r; mret ((map_to_list content).*1).
End MapObjects.

(** ** The environments *)

Record GlobalTypeEnv := mkGlobalTypeEnv {
  globals : MapRef Ty;
  functions : MapRef Sig;
  classes : MapRef ClassEntry
}.

Record LocalTypeEnv := mkLocalTypeEnv {
  vars : MapRef Ty;
  expectedRet : Ty;
  topLevel : bool
}.

Definition emptyGlobalTypeEnv : M GlobalTypeEnv :=
  g ← new_Map ∅; f ← new_Map ∅; c ← new_Map ∅;
  mret (mkGlobalTypeEnv g f c).

Definition emptyLocalTypeEnv : M LocalTypeEnv :=
  v ← new_Map ∅;
  mret (mkLocalTypeEnv v NONE true).

(** ** Equality, subtyping, assignability, join *)

Definition equalType (t1 t2 : Ty) : bool :=
  same_object t1 t2
  || match shape t1, shape t2 with
     | TClass name1, TClass name2 => bool_decide (name1 = name2)
     | _, _ => false
     end.

Definition isNoneOrClass (t : Ty) : bool :=
  match shape t with
  | TNone | TClass _ => true
  | _ => false
  end.

Definition isSubtype (env : GlobalTypeEnv) (t1 t2 : Ty) : bool :=
  equalType t1 t2
  || match shape t1, shape t2 with
     | TNone, TClass _ => true
     | _, _ => false
     end.

Definition isAssignable (env : GlobalTypeEnv) (t1 t2 : Ty) : bool :=
  isSubtype env t1 t2.

Definition join (env : GlobalTypeEnv) (t1 t2 : Ty) : Ty := NONE.

(** ** Literals and the printing of type lists *)

Definition tcLiteral (literal : Literal) : Ty :=
  match literal with
  | LBool _ => BOOL
  | LNum _ => NUM
  | LNone => NONE
  end.

Definition toObject (types : list Ty) : string :=
  "[" +:+ String.concat "," (map nameOrTag types) +:+ "]".

(** ** Expressions *)

(** [{ a: t, ...expr }]: the spread comes last, so an [a] property that the
    node already has stays. *)
Definition under (own t : option Ty) : option Ty :=
  match own with
  | Some t' => Some t'
  | None => t
  end.

(** [e.a], used as a type (given to [equalType] and the like, or read for its
    tag).  Every node that [tcExpr] returns has an annotation
    ([tcExpr_annotated] below), so the runtime failure never shows. *)
Definition annot (e : Expr) : M Ty := defined (Expr_a e).

(** [array.every((x, i) => p(x, i))] *)
Definition every {A} (p : A → nat → bool) (l : list A) : bool :=
  forallb id (imap (λ i x, p x i) l).

(** the same, with a callback that may throw: it stops at the first [false] *)
Definition everyM {A} (p : A → nat → M bool) : list A → M bool :=
  (fix go i l :=
     match l with
     | [] => mret true
     | x :: xs => b ← p x i; if b : bool then go (S i) xs else mret false
     end) 0.

Definition initArityMessage (expected given : nat) : string :=
  "__init__() takes " +:+ pretty expected +:+ " positional arguments but "
  +:+ pretty given +:+ " were given".

Definition initReturnMessage (initRet : Ty) : string :=
  "__init__() should return None, not '" +:+ nameOrTag initRet +:+ "'".

Definition arityMessage (name : string) (expected given : nat) : string :=
  name +:+ " takes " +:+ pretty expected +:+ " positional arguments but "
  +:+ pretty given +:+ " were given".

Fixpoint tcExpr (env : GlobalTypeEnv) (locals : LocalTypeEnv) (expr : Expr) {struct expr}
  : M Expr :=
  match expr with
  | ELiteral _ value loc =>
      mret (ELiteral (Some (tcLiteral value)) value loc)
  | EBinop a op left_ right_ loc =>
      tLeft ← tcExpr env locals left_;
      tRight ← tcExpr env locals right_;
      lt ← annot tLeft;
      rt ← annot tRight;
      let tBin t := EBinop (under a (Some t)) op tLeft tRight loc in
      let unsupported : M Expr :=
        throw (UnsupportedOprandTypeError (BinOp.name op) [tag lt; tag rt] loc) in
      match op with
      | BinOp.Plus | BinOp.Minus | BinOp.Mul | BinOp.IDiv | BinOp.Mod =>
          if equalType lt NUM && equalType rt NUM then mret (tBin NUM) else unsupported
      | BinOp.Eq | BinOp.Neq =>
          if equalType lt rt then mret (tBin BOOL) else unsupported
      | BinOp.Lte | BinOp.Gte | BinOp.Lt | BinOp.Gt =>
          if equalType lt NUM && equalType rt NUM then mret (tBin BOOL) else unsupported
      | BinOp.And | BinOp.Or =>
          if equalType lt BOOL && equalType rt BOOL then mret (tBin BOOL) else unsupported
      | BinOp.Is =>
          if negb (isNoneOrClass lt) || negb (isNoneOrClass rt) then unsupported
          else mret (tBin BOOL)
      end
  | EUniop _ op e loc =>
      tExpr ← tcExpr env locals e;
      let tUni := EUniop (Expr_a tExpr) op tExpr loc in
      t ← annot tExpr;
      let unsupported : M Expr :=
        throw (UnsupportedOprandTypeError (UniOp.name op) [tag t] loc) in
      match op with
      | UniOp.Neg => if equalType t NUM then mret tUni else unsupported
      | UniOp.Not => if equalType t BOOL then mret tUni else unsupported
      end
  | EId a name loc =>
      isLocal ← has (vars locals) name;
      if isLocal : bool then
        t ← get (vars locals) name;
        mret (EId (under a t) name loc)
      else
        isGlobal ← has (globals env) name;
        if isGlobal : bool then
          t ← get (globals env) name;
          mret (EId (under a t) name loc)
        else throw (NameError name loc)
  | EBuiltin1 _ name arg loc =>
      if bool_decide (name = "print") then
        tArg ← tcExpr env locals arg;
        mret (EBuiltin1 (Expr_a tArg) name tArg loc)
      else
        isFunction ← has (functions env) name;
        if isFunction : bool then
          sig ← get (functions env) name;
          '(params, retTyp) ← defined sig;
          tArg ← tcExpr env locals arg;
          t ← annot tArg;
          expectedArgTyp ← defined (params !! 0%nat);
          if isAssignable env t expectedArgTyp then
            mret (EBuiltin1 (Some retTyp) name tArg loc)
          else
            throw (TypeMismatchError
                     (nameOrTag expectedArgTyp)
                     (match shape t with TClass n => n | _ => Expr_tag tArg end)
                     loc)
        else throw (NameError name loc)
  | EBuiltin2 _ name left_ right_ loc =>
      isFunction ← has (functions env) name;
      if isFunction : bool then
        sig ← get (functions env) name;
        '(params, retTyp) ← defined sig;
        tLeftArg ← tcExpr env locals left_;
        tRightArg ← tcExpr env locals right_;
        lt ← annot tLeftArg;
        rt ← annot tRightArg;
        leftTyp ← defined (params !! 0%nat);
        rightTyp ← defined (params !! 1%nat);
        if isAssignable env leftTyp lt && isAssignable env rightTyp rt then
          mret (EBuiltin2 (Some retTyp) name tLeftArg tRightArg loc)
        else
          throw (TypeMismatchError (toObject [leftTyp; rightTyp]) (toObject [lt; rt]) loc)
      else throw (NameError name loc)
  | ECall _ name arguments loc =>
      isClass ← has (classes env) name;
      if isClass : bool then
        (* surprise surprise this is actually a constructor *)
        t ← CLASS name;
        let tConstruct := EConstruct (Some t) name loc in
        entry ← get (classes env) name;
        '(_, methods) ← defined entry;
        hasInit ← has methods "__init__";
        if hasInit : bool then
          sig ← get methods "__init__";
          '(initArgs, initRet) ← defined sig;
          if bool_decide (Z.of_nat (length arguments) ≠ (Z.of_nat (length initArgs) - 1)%Z) then
            throw (TypeError (initArityMessage (length initArgs) (length arguments + 1)) loc)
          else if negb (same_object initRet NONE) then
            throw (TypeError (initReturnMessage initRet) loc)
          else mret tConstruct
        else mret tConstruct
      else
        isFunction ← has (functions env) name;
        if isFunction : bool then
          sig ← get (functions env) name;
          '(argTypes, retType) ← defined sig;
          tArgs ← mapM (tcExpr env locals) arguments;
          if bool_decide (length argTypes = length arguments)
             && every (λ tArg i, bool_decide (Expr_a tArg = argTypes !! i)) tArgs
          then mret (ECall (Some retType) name arguments loc)
          else if bool_decide (length argTypes ≠ length arguments) then
            throw (TypeError (arityMessage name (length argTypes) (length arguments)) loc)
          else
            actual ← mapM annot tArgs;
            throw (TypeMismatchError (toObject argTypes) (toObject actual) loc)
        else throw (NameError name loc)
  | ELookup _ obj field loc =>
      tObj ← tcExpr env locals obj;
      t ← annot tObj;
      match shape t with
      | TClass cname =>
          isClass ← has (classes env) cname;
          if isClass : bool then
            entry ← get (classes env) cname;
            '(fields, _) ← defined entry;
            hasField ← has fields field;
            if hasField : bool then
              fieldTyp ← get fields field;
              mret (ELookup fieldTyp tObj field loc)
            else throw (AttributeError cname field loc)
          else throw (NameError cname loc)
      | _ => throw (AttributeError (tag t) field loc)
      end
  | EMethodCall _ obj method arguments loc =>
      tObj ← tcExpr env locals obj;
      tArgs ← mapM (tcExpr env locals) arguments;
      t ← annot tObj;
      match shape t with
      | TClass cname =>
          isClass ← has (classes env) cname;
          if isClass : bool then
            entry ← get (classes env) cname;
            '(_, methods) ← defined entry;
            hasMethod ← has methods method;
            if hasMethod : bool then
              sig ← get methods method;
              '(methodArgs, methodRet) ← defined sig;
              let realArgs := tObj :: tArgs in
              let sameLength := bool_decide (length methodArgs = length realArgs) in
              accepted ←
                (if sameLength then
                   everyM (λ argTyp i,
                             realArg ← defined (realArgs !! i);
                             actual ← annot realArg;
                             mret (isAssignable env actual argTyp)) methodArgs
                 else mret false);
              if accepted : bool then
                mret (EMethodCall (Some methodRet) tObj method tArgs loc)
              else if negb sameLength then
                throw (TypeError
                         (arityMessage method (length methodArgs) (length realArgs)) loc)
              else
                actual ← mapM annot realArgs;
                throw (TypeMismatchError (toObject methodArgs) (toObject actual) loc)
            else throw (AttributeError cname method loc)
          else throw (NameError cname loc)
      | _ => throw (AttributeError (tag t) method loc)
      end
  | EConstruct _ _ loc =>
      throw (BaseError "unimplemented type checking for expr: [object Object]" loc)
  end.

(** ** Statements *)

Fixpoint tcStmt (env : GlobalTypeEnv) (locals : LocalTypeEnv) (stmt : Stmt) {struct stmt}
  : M Stmt :=
  let tcBlock := mapM (tcStmt env locals) in
  match stmt with
  | SAssignment _ loc =>
      throw (BaseError "Destructured assignment not implemented" loc)
  | SAssign _ name value loc =>
      tValExpr ← tcExpr env locals value;
      isLocal ← has (vars locals) name;
      nameTyp ←
        (if isLocal : bool then get (vars locals) name
         else
           isGlobal ← has (globals env) name;
           if isGlobal : bool then get (globals env) name
           else throw (NameError name loc));
      valTyp ← annot tValExpr;
      nameTyp ← defined nameTyp;
      if negb (isAssignable env valTyp nameTyp) then
        throw (TypeMismatchError (tag nameTyp) (tag valTyp) loc)
      else mret (SAssign (Some NONE) name tValExpr loc)
  | SExpr _ expr loc =>
      tExpr ← tcExpr env locals expr;
      mret (SExpr (Expr_a tExpr) tExpr loc)
  | SIf _ cond thn els loc =>
      tCond ← tcExpr env locals cond;
      tThn ← tcBlock thn;
      thnLast ← defined (last tThn);
      let thnTyp := Stmt_a thnLast in
      tEls ← tcBlock els;
      elsLast ← defined (last tEls);
      let elsTyp := Stmt_a elsLast in
      if bool_decide (Expr_a tCond ≠ Some BOOL) then
        condTyp ← annot tCond;
        throw (ConditionTypeError (tag condTyp) (Expr_loc tCond))
      else if bool_decide (thnTyp ≠ elsTyp) then
        throw (SyntaxError "Types of then and else branches must match" loc)
      else mret (SIf thnTyp tCond tThn tEls loc)
  | SReturn _ value loc =>
      if topLevel locals then
        throw (SyntaxError "‘return’ outside of functions" loc)
      else
        tRet ← tcExpr env locals value;
        retTyp ← annot tRet;
        if negb (isAssignable env retTyp (expectedRet locals)) then
          throw (TypeMismatchError (nameOrTag (expectedRet locals)) (nameOrTag retTyp) loc)
        else mret (SReturn (Expr_a tRet) tRet loc)
  | SWhile _ cond body loc =>
      tCond ← tcExpr env locals cond;
      tBody ← tcBlock body;
      condTyp ← annot tCond;
      if negb (equalType condTyp BOOL) then
        throw (ConditionTypeError (tag condTyp) (Expr_loc tCond))
      else mret (SWhile (Some NONE) tCond tBody loc)
  | SPass _ loc =>
      mret (SPass (Some NONE) loc)
  | SFieldAssign _ obj field value loc =>
      tObj ← tcExpr env locals obj;
      tVal ← tcExpr env locals value;
      objTyp ← annot tObj;
      match shape objTyp with
      | TClass cname =>
          isClass ← has (classes env) cname;
          if negb isClass then throw (NameError cname loc)
          else
            entry ← get (classes env) cname;
            '(fields, _) ← defined entry;
            hasField ← has fields field;
            if negb hasField then throw (AttributeError cname field loc)
            else
              fieldTyp ← get fields field;
              valTyp ← annot tVal;
              fieldTyp ← defined fieldTyp;
              if negb (isAssignable env valTyp fieldTyp) then
                throw (TypeMismatchError (tag fieldTyp) (tag valTyp) loc)
              else mret (SFieldAssign (Some NONE) tObj field tVal loc)
      | _ => throw (AttributeError (tag objTyp) field loc)
      end
  end.

Definition tcBlock (env : GlobalTypeEnv) (locals : LocalTypeEnv) (stmts : list Stmt)
  : M (list Stmt) :=
  mapM (tcStmt env locals) stmts.

(** ** Declarations and programs *)

Definition tcInit (env : GlobalTypeEnv) (init : VarInit) : M VarInit :=
  let valTyp := tcLiteral (init_value init) in
  if isAssignable env valTyp (init_type init) then
    mret (mkVarInit (Some NONE) (init_name init) (init_type init) (init_value init)
            (init_loc init))
  else
    (* Some type mismatch is allowed in python, so we use customized
       TypeMismatchError here, which does not exist in real python. *)
    throw (TypeMismatchError (tag (init_type init)) (tag valTyp) (init_loc init)).

Definition tcDef (env : GlobalTypeEnv) (fun_ : FunDef) : M FunDef :=
  locals ← emptyLocalTypeEnv;
  let locals := mkLocalTypeEnv (vars locals) (fun_ret fun_) false in
  forEach (λ p, set (vars locals) (param_name p) (param_type p)) (fun_parameters fun_);;
  forEach (λ init,
             tInit ← tcInit env init;
             set (vars locals) (init_name init) (init_type tInit)) (fun_inits fun_);;
  tBody ← tcBlock env locals (fun_body fun_);
  mret (mkFunDef (Some NONE) (fun_name fun_) (fun_parameters fun_) (fun_ret fun_)
          (fun_inits fun_) tBody (fun_loc fun_)).

Definition tcClass (env : GlobalTypeEnv) (cls : Class) : M Class :=
  tFields ← mapM (tcInit env) (cls_fields cls);
  tMethods ← mapM (tcDef env) (cls_methods cls);
  mret (mkClass (Some NONE) (cls_name cls) tFields tMethods (cls_loc cls)).

Definition signature (fun_ : FunDef) : Sig :=
  (map param_type (fun_parameters fun_), fun_ret fun_).

Definition augmentTEnv (env : GlobalTypeEnv) (program : Program) : M GlobalTypeEnv :=
  newGlobs ← copy_Map (globals env);
  newFuns ← copy_Map (functions env);
  newClasses ← copy_Map (classes env);
  forEach (λ init, set newGlobs (init_name init) (init_type init)) (prog_inits program);;
  forEach (λ fun_, set newFuns (fun_name fun_) (signature fun_)) (prog_funs program);;
  forEach (λ cls,
             fields ← new_Map ∅;
             methods ← new_Map ∅;
             forEach (λ field, set fields (init_name field) (init_type field))
               (cls_fields cls);;
             forEach (λ method, set methods (fun_name method) (signature method))
               (cls_methods cls);;
             set newClasses (cls_name cls) (fields, methods)) (prog_classes program);;
  mret (mkGlobalTypeEnv newGlobs newFuns newClasses).

Definition tc (env : GlobalTypeEnv) (program : Program) : M (Program * GlobalTypeEnv) :=
  locals ← emptyLocalTypeEnv;
  newEnv ← augmentTEnv env program;
  tInits ← mapM (tcInit env) (prog_inits program);
  tDefs ← mapM (tcDef newEnv) (prog_funs program);
  tClasses ← mapM (tcClass newEnv) (prog_classes program);
  (* Strategy here is to allow tcBlock to populate the locals, then copy to the
     global env afterwards (tcBlock changes locals) *)
  tBody ← tcBlock newEnv locals (prog_stmts program);
  let lastTyp :=
    match last tBody with
    | Some stmt => Stmt_a stmt
    | None => Some NONE
    end in
  names ← keys (vars locals);
  forEach (λ name,
             typ ← get (vars locals) name;
             typ ← defined typ;
             set (globals newEnv) name typ) names;;
  let aprogram := mkProgram lastTyp tInits tDefs tClasses tBody (prog_loc program) in
  mret (aprogram, newEnv).

(** ** The module's own objects *)

(** The heap once [utils.ts] is loaded: [NUM], [BOOL] and [NONE] exist. *)
Definition bootHeap : Heap := mkHeap 3 ∅ ∅ ∅.

(** The top-level statements of [type-check.ts]: [defaultGlobalFunctions] and
    [defaultTypeEnv]. *)
Definition loadModule : M GlobalTypeEnv :=
  defaultGlobalFunctions ← new_Map ∅;
  set defaultGlobalFunctions "abs" ([NUM], NUM);;
  set defaultGlobalFunctions "max" ([NUM; NUM], NUM);;
  set defaultGlobalFunctions "min" ([NUM; NUM], NUM);;
  set defaultGlobalFunctions "pow" ([NUM; NUM], NUM);;
  object ← CLASS "object";
  set defaultGlobalFunctions "print" ([object], NUM);;
  globals ← new_Map ∅;
  classes ← new_Map ∅;
  mret (mkGlobalTypeEnv globals defaultGlobalFunctions classes).

Definition defaultTypeEnv : GlobalTypeEnv :=
  mkGlobalTypeEnv (mkRef 5) (mkRef 3) (mkRef 6).

Definition defaultHeap : Heap := (loadModule bootHeap).2.

(** what a computation returns, and the heap it leaves *)
Definition outcome {A} (m : M A) (h : Heap) : Result A := (m h).1.
Definition heap_after {A} (m : M A) (h : Heap) : Heap := (m h).2.


(** ** Concrete heaps, scopes and programs *)

(** A top-level scope made in the heap of the loaded module. *)
Definition scopeHeap : Heap := heap_after emptyLocalTypeEnv defaultHeap.
Definition topScope : LocalTypeEnv := mkLocalTypeEnv (mkRef 7) NONE true.

Definition litTrue : Expr := ELiteral None (LBool true) 1.
Definition litOne : Expr := ELiteral None (LNum 1) 1.

(** [abs(True)] *)
Definition absTrue : Expr := EBuiltin1 None "abs" litTrue 2.

(** A program with a class, two globals of that class and a function that
    takes an object of that class:
<<
    class C(object):
        pass
    def f(x: C):
        pass
    c: C = None
    d: C = None
>>
    Each annotation [C] is a type object of its own, made by the parser
    before the checker runs: the heap is the one of the loaded module with
    these three objects in it. *)
Definition C_of_c : Ty := mkTy 7 (TClass "C").
Definition C_of_d : Ty := mkTy 8 (TClass "C").
Definition C_of_x : Ty := mkTy 9 (TClass "C").

Definition parsedHeap : Heap :=
  mkHeap 10 (typeMaps defaultHeap) (sigMaps defaultHeap) (classMaps defaultHeap).

Definition classC : Class := mkClass None "C" [] [] 0.
Definition funF : FunDef :=
  mkFunDef None "f" [mkParam "x" C_of_x] NONE [] [SPass None 0] 0.

Definition programC (stmts : list Stmt) : Program :=
  mkProgram None
    [mkVarInit None "c" C_of_c LNone 0; mkVarInit None "d" C_of_d LNone 0]
    [funF] [classC] stmts 0.

(** The scope and the environment in which [tc] checks the statements of
    [programC], and the heap at that point. *)
Definition checkScope : LocalTypeEnv := mkLocalTypeEnv (mkRef 10) NONE true.
Definition checkEnv : GlobalTypeEnv := mkGlobalTypeEnv (mkRef 11) (mkRef 12) (mkRef 13).
Definition checkHeap : Heap :=
  heap_after (emptyLocalTypeEnv;; augmentTEnv defaultTypeEnv (programC []);;
              mapM (tcDef checkEnv) [funF]) parsedHeap.

Definition idC : Expr := EId None "c" 1.
Definition idD : Expr := EId None "d" 1.
Definition idUnbound : Expr := EId None "zz" 1.

(** [C()], [C(zz)], [f(c)], [f(C())] *)
Definition newC : Expr := ECall None "C" [] 1.
Definition newC_unbound : Expr := ECall None "C" [idUnbound] 1.
Definition call_f_c : Expr := ECall None "f" [idC] 2.
Definition call_f_newC : Expr := ECall None "f" [newC] 2.

(** [if True: c else: d] and [if True: C() else: C()] *)
Definition if_c_d : Stmt := SIf None litTrue [SExpr None idC 2] [SExpr None idD 3] 4.
Definition if_newC_newC : Stmt := SIf None litTrue [SExpr None newC 2] [SExpr None newC 3] 4.

(** [while 1: zz], [if 1: zz else: pass] and [if zz: pass] (no [else]) *)
Definition while_1_unbound : Stmt := SWhile None litOne [SExpr None idUnbound 2] 3.
Definition if_1_unbound : Stmt := SIf None litOne [SExpr None idUnbound 2] [SPass None 3] 4.
Definition if_unbound_no_else : Stmt := SIf None idUnbound [SPass None 2] [] 3.

(** [while 1: pass], [if 1: pass else: pass] *)
Definition while_1_pass : Stmt := SWhile None litOne [SPass None 2] 3.
Definition if_1_pass : Stmt := SIf None litOne [SPass None 2] [SPass None 3] 4.
(** [if True: pass] (no [else]) *)
Definition if_True_no_else : Stmt := SIf None litTrue [SPass None 2] [] 3.

(** ** What a computation does to the heap *)

(** [keeps n m Q]: run in a heap whose next address is at least [n], the
    computation [m] leaves every [Map] object below [n] as it is, and a value
    it returns satisfies [Q]. *)
Definition keeps {A} (n : nat) (m : M A) (Q : A → Prop) : Prop :=
  ∀ h r h', n ≤ next h → m h = (r, h') → preserves n h h' ∧ ∀ x, r = Ok x → Q x.

(** ** Induction on expressions and statements, through their lists *)

Section Expr_nested_ind.
Variable P : Expr → Prop.
Hypothesis Hliteral : ∀ a value loc, P (ELiteral a value loc).
Hypothesis Hbinop : ∀ a op l r loc, P l → P r → P (EBinop a op l r loc).
Hypothesis Huniop : ∀ a op e loc, P e → P (EUniop a op e loc).
Hypothesis Hid : ∀ a name loc, P (EId a name loc).
Hypothesis Hbuiltin1 : ∀ a name arg loc, P arg → P (EBuiltin1 a name arg loc).
Hypothesis Hbuiltin2 : ∀ a name l r loc, P l → P r → P (EBuiltin2 a name l r loc).
Hypothesis Hcall : ∀ a name arguments loc,
    Forall P arguments → P (ECall a name arguments loc).
Hypothesis Hlookup : ∀ a obj field loc, P obj → P (ELookup a obj field loc).
Hypothesis Hmethod : ∀ a obj method arguments loc,
    P obj → Forall P arguments → P (EMethodCall a obj method arguments loc).
Hypothesis Hconstruct : ∀ a name loc, P (EConstruct a name loc).

Fixpoint Expr_nested_ind (e : Expr) : P e :=
  let all := fix all (l : list Expr) : Forall P l :=
    match l with
    | [] => @List.Forall_nil _ P
    | x :: xs => @List.Forall_cons _ P x xs (Expr_nested_ind x) (all xs)
    end in
  match e with
  | ELiteral a value loc => Hliteral a value loc
  | EBinop a op l r loc => Hbinop a op l r loc (Expr_nested_ind l) (Expr_nested_ind r)
  | EUniop a op e loc => Huniop a op e loc (Expr_nested_ind e)
  | EId a name loc => Hid a name loc
  | EBuiltin1 a name arg loc => Hbuiltin1 a name arg loc (Expr_nested_ind arg)
  | EBuiltin2 a name l r loc =>
      Hbuiltin2 a name l r loc (Expr_nested_ind l) (Expr_nested_ind r)
  | ECall a name arguments loc => Hcall a name arguments loc (all arguments)
  | ELookup a obj field loc => Hlookup a obj field loc (Expr_nested_ind obj)
  | EMethodCall a obj method arguments loc =>
      Hmethod a obj method arguments loc (Expr_nested_ind obj) (all arguments)
  | EConstruct a name loc => Hconstruct a name loc
  end.
End Expr_nested_ind.

Section Stmt_nested_ind.
Variable P : Stmt → Prop.
Hypothesis Hassignment : ∀ a loc, P (SAssignment a loc).
Hypothesis Hassign : ∀ a name value loc, P (SAssign a name value loc).
Hypothesis Hexpr : ∀ a expr loc, P (SExpr a expr loc).
Hypothesis Hif : ∀ a cond thn els loc,
    Forall P thn → Forall P els → P (SIf a cond thn els loc).
Hypothesis Hreturn : ∀ a value loc, P (SReturn a value loc).
Hypothesis Hwhile : ∀ a cond body loc, Forall P body → P (SWhile a cond body loc).
Hypothesis Hpass : ∀ a loc, P (SPass a loc).
Hypothesis Hfield : ∀ a obj field value loc, P (SFieldAssign a obj field value loc).

Fixpoint Stmt_nested_ind (s : Stmt) : P s :=
  let all := fix all (l : list Stmt) : Forall P l :=
    match l with
    | [] => @List.Forall_nil _ P
    | x :: xs => @List.Forall_cons _ P x xs (Stmt_nested_ind x) (all xs)
    end in
  match s with
  | SAssignment a loc => Hassignment a loc
  | SAssign a name value loc => Hassign a name value loc
  | SExpr a expr loc => Hexpr a expr loc
  | SIf a cond thn els loc => Hif a cond thn els loc (all thn) (all els)
  | SReturn a value loc => Hreturn a value loc
  | SWhile a cond body loc => Hwhile a cond body loc (all body)
  | SPass a loc => Hpass a loc
  | SFieldAssign a obj field value loc => Hfield a obj field value loc
  end.
End Stmt_nested_ind.

(** The three maps of [env] are objects of the heap [h]. *)
Definition env_in_heap (env : GlobalTypeEnv) (h : Heap) : Prop :=
  address (globals env) < next h
  ∧ address (functions env) < next h
  ∧ address (classes env) < next h.

(** The globals after the declarations of a program: [newGlobs.set] for
    every variable declaration, in order. *)
Definition declare (globs : gmap string Ty) (inits : list VarInit) : gmap string Ty :=
  foldl (λ m init, <[init_name init := init_type init]> m) globs inits.

(** [x = 1], and a program that is this statement alone *)
Definition assign_x_1 : Stmt := SAssign None "x" litOne 2.
Definition program_assign_x : Program := mkProgram None [] [] [] [assign_x_1] 0.

(** The type objects the system makes: the three shared objects [NUM],
    [BOOL] and [NONE], and the objects of class types, of which [CLASS] makes
    a new one at every call.  An object with the tag of a primitive type is
    the shared object of that type. *)
Definition shared_or_class (t : Ty) : Prop :=
  match shape t with
  | TNumber => t = NUM
  | TBool => t = BOOL
  | TNone => t = NONE
  | TClass _ => True
  end.


(** ** More of what a computation does to the heap *)

(** [m] may read the heap and make new objects, but it writes to no [Map]:
    whatever the outcome, the three stores of maps are as they were. *)
Definition reads_only {A} (m : M A) : Prop :=
  ∀ h r h', m h = (r, h') →
    next h ≤ next h'
    ∧ typeMaps h' = typeMaps h ∧ sigMaps h' = sigMaps h ∧ classMaps h' = classMaps h.

(** ** The typing rules of the operators, as a table *)

(** The operand types a binary operator accepts. *)
Definition operandsAccepted (op : BinOp.t) (lt rt : Ty) : Prop :=
  match op with
  | BinOp.Plus | BinOp.Minus | BinOp.Mul | BinOp.IDiv | BinOp.Mod
  | BinOp.Lte | BinOp.Gte | BinOp.Lt | BinOp.Gt => lt = NUM ∧ rt = NUM
  | BinOp.Eq | BinOp.Neq => lt = rt ∨ ∃ name, shape lt = TClass name ∧ shape rt = TClass name
  | BinOp.And | BinOp.Or => lt = BOOL ∧ rt = BOOL
  | BinOp.Is => isNoneOrClass lt = true ∧ isNoneOrClass rt = true
  end.

(** The type of the result. *)
Definition binopType (op : BinOp.t) : Ty :=
  match op with
  | BinOp.Plus | BinOp.Minus | BinOp.Mul | BinOp.IDiv | BinOp.Mod => NUM
  | _ => BOOL
  end.

(** The operand type a unary operator accepts, which is the type of its
    result. *)
Definition uniopType (op : UniOp.t) : Ty :=
  match op with
  | UniOp.Neg => NUM
  | UniOp.Not => BOOL
  end.

(** [C() is 1], [c is None], [1 + True] *)
Definition newC_is_one : Expr := EBinop None BinOp.Is newC litOne 3.
Definition c_is_None : Expr := EBinop None BinOp.Is idC (ELiteral None LNone 2) 3.
Definition one_plus_true : Expr := EBinop None BinOp.Plus litOne litTrue 3.

(** ** A program with a class that has a field and methods *)

(**
<<
    class D(object):
        n: int = 0
        def __init__(self: D):
            pass
        def get(self: D) -> int:
            return self.n
    d: D = None
>>
    with one type object for each annotation [D]. *)
Definition D_of_d : Ty := mkTy 7 (TClass "D").
Definition D_of_init_self : Ty := mkTy 8 (TClass "D").
Definition D_of_get_self : Ty := mkTy 9 (TClass "D").

Definition idSelf : Expr := EId None "self" 1.

Definition initD : FunDef :=
  mkFunDef None "__init__" [mkParam "self" D_of_init_self] NONE [] [SPass None 0] 0.
Definition getD : FunDef :=
  mkFunDef None "get" [mkParam "self" D_of_get_self] NUM []
    [SReturn None (ELookup None idSelf "n" 2) 3] 0.
Definition classD : Class :=
  mkClass None "D" [mkVarInit None "n" NUM (LNum 0) 0] [initD; getD] 0.

Definition programD (stmts : list Stmt) : Program :=
  mkProgram None [mkVarInit None "d" D_of_d LNone 0] [] [classD] stmts 0.

(** The scope and the environment in which [tc] checks the statements of
    [programD], and the heap at that point. *)
Definition scopeD : LocalTypeEnv := mkLocalTypeEnv (mkRef 10) NONE true.
Definition envD : GlobalTypeEnv := mkGlobalTypeEnv (mkRef 11) (mkRef 12) (mkRef 13).
Definition heapD : Heap :=
  heap_after (emptyLocalTypeEnv;; augmentTEnv defaultTypeEnv (programD []);;
              mapM (tcClass envD) [classD]) parsedHeap.

Definition idD_obj : Expr := EId None "d" 1.
(** [d.n], [d.m], [d.get()], [d.get(1)], [max(1, True)] *)
Definition lookup_d_n : Expr := ELookup None idD_obj "n" 2.
Definition lookup_d_m : Expr := ELookup None idD_obj "m" 2.
Definition call_d_get : Expr := EMethodCall None idD_obj "get" [] 2.
Definition call_d_get_1 : Expr := EMethodCall None idD_obj "get" [litOne] 2.
Definition max_1_True : Expr := EBuiltin2 None "max" litOne litTrue 2.

(** The binding a name resolves to: the local scope first, then the
    globals. *)
Definition resolve (h : Heap) (env : GlobalTypeEnv) (locals : LocalTypeEnv)
  (name : string) : option Ty :=
  match content h (vars locals) !! name with
  | Some t => Some t
  | None => content h (globals env) !! name
  end.

(** [everyM], started at the index [i] *)
Definition everyM_from {A} (p : A → nat → M bool) : nat → list A → M bool :=
  fix go i l :=
    match l with
    | [] => mret true
    | x :: xs => b ← p x i; if b : bool then go (S i) xs else mret false
    end.

(** The declared type of the field [field] of an object of type [t], or the
    failure to find one, reported at [loc]. *)
Definition fieldOf (h : Heap) (env : GlobalTypeEnv) (t : Ty) (field : string)
  (loc : Location) : Result Ty :=
  match shape t with
  | TClass cname =>
      match content h (classes env) !! cname with
      | Some (fields, _) =>
          match content h fields !! field with
          | Some fieldTyp => Ok fieldTyp
          | None => Throw (AttributeError cname field loc)
          end
      | None => Throw (NameError cname loc)
      end
  | _ => Throw (AttributeError (tag t) field loc)
  end.

(** [d.n = True] and [return 1] *)
Definition assign_d_n_True : Stmt := SFieldAssign None idD_obj "n" litTrue 3.
Definition return_1 : Stmt := SReturn None litOne 2.

(** ** Declarations *)

(** The declarations [tcInit] accepts: the declared type is the type object
    of the literal, or the literal is [None] and the declared type is a
    class. *)
Definition initAccepted (init : VarInit) : Prop :=
  init_type init = tcLiteral (init_value init)
  ∨ (init_value init = LNone ∧ ∃ cname, shape (init_type init) = TClass cname).

(** The scope of the body of a function: its parameters, then its local
    declarations. *)
Definition functionScope (fun_ : FunDef) : gmap string Ty :=
  declare (foldl (λ m p, <[param_name p := param_type p]> m) ∅ (fun_parameters fun_))
    (fun_inits fun_).

(** The function table after the functions of a program. *)
Definition declareFuns (funs : gmap string Sig) (defs : list FunDef) : gmap string Sig :=
  foldl (λ m fun_, <[fun_name fun_ := signature fun_]> m) funs defs.

(** [def g(x: int) -> int: x: bool = True; return x], which declares a local
    [x] over its parameter [x], and [def g(): x: int = True]. *)
Definition funShadow : FunDef :=
  mkFunDef None "g" [mkParam "x" NUM] NUM [mkVarInit None "x" BOOL (LBool true) 1]
    [SReturn None (EId None "x" 2) 3] 0.
Definition funBadInit : FunDef :=
  mkFunDef None "g" [] NONE [mkVarInit None "x" NUM (LBool true) 1] [SPass None 2] 0.

(** One turn of the loop of [augmentTEnv] over the classes of a program. *)
Definition declareClass (newClasses : MapRef ClassEntry) (cls : Class) : M unit :=
  fields ← new_Map ∅;
  methods ← new_Map ∅;
  forEach (λ field, set fields (init_name field) (init_type field)) (cls_fields cls);;
  forEach (λ method, set methods (fun_name method) (signature method)) (cls_methods cls);;
  set newClasses (cls_name cls) (fields, methods).

(** The fields and the methods a class declares, as [augmentTEnv] records
    them. *)
Definition fieldsOf (cls : Class) : gmap string Ty :=
  declare ∅ (cls_fields cls).
Definition methodsOf (cls : Class) : gmap string Sig :=
  declareFuns ∅ (cls_methods cls).

(** [x: int = True] at the top of a program whose only statement is unbound *)
Definition programBadInit : Program :=
  mkProgram None [mkVarInit None "x" NUM (LBool true) 1] [] []
    [SExpr None idUnbound 2] 0.

(** a program that defines its own [abs], of two parameters *)
Definition funAbs2 : FunDef :=
  mkFunDef None "abs" [mkParam "x" NUM; mkParam "y" NUM] NUM [] [SReturn None litOne 1] 0.
Definition programAbs : Program := mkProgram None [] [funAbs2] [] [] 0.

(** [tcInit]'s mark on a declaration it accepts. *)
Definition checkedInit (init : VarInit) : VarInit :=
  mkVarInit (Some NONE) (init_name init) (init_type init) (init_value init) (init_loc init).

(** a class whose field declaration is rejected, with a method whose body is
    unbound:
<<
    class E(object):
        n: int = None
        def m(self: E):
            zz
>> *)
Definition classBadField : Class :=
  mkClass None "E" [mkVarInit None "n" NUM LNone 1]
    [mkFunDef None "m" [mkParam "self" (mkTy 7 (TClass "E"))] NONE []
       [SExpr None idUnbound 2] 0] 0.

(** The scope of the body of [f] in
<<
    x: int = 0
    def f(x: bool):
        x = True
>>
    and a heap in which that scope binds [x] to the bool type while the
    globals bind [x] to the number type. *)
Definition shadowScope : LocalTypeEnv := mkLocalTypeEnv (mkRef 7) NONE false.
Definition shadowHeap : Heap :=
  heap_after (_ ← set (vars shadowScope) "x" BOOL; set (globals defaultTypeEnv) "x" NUM)
    scopeHeap.
Definition assign_x_True : Stmt := SAssign None "x" litTrue 2.

(** * Properties *)

(** ** Running a computation *)

Lemma bind_run {A B} (m : M A) (f : A → M B) h :
  (m ≫= f) h =
  match m h with
  | (Ok x, h') => f x h'
  | (Throw e, h') => (Throw e, h')
  end.
Proof. reflexivity. Qed.

Lemma bind_Ok_inv {A B} (m : M A) (f : A → M B) h y h' :
  (m ≫= f) h = (Ok y, h') → ∃ x h1, m h = (Ok x, h1) ∧ f x h1 = (Ok y, h').
Proof.
  rewrite bind_run. destruct (m h) as [[x|e] h1]; [eauto | discriminate].
Qed.

Lemma ret_run {A} (x : A) h : (mret x : M A) h = (Ok x, h).
Proof. reflexivity. Qed.

Lemma throw_run {A} e h : @throw A e h = (Throw e, h).
Proof. reflexivity. Qed.

Lemma has_run `{Stored V} (r : MapRef V) key h :
  has r key h = (Ok (bool_decide (is_Some (content h r !! key))), h).
Proof. reflexivity. Qed.

Lemma get_run `{Stored V} (r : MapRef V) key h :
  get r key h = (Ok (content h r !! key), h).
Proof. reflexivity. Qed.

Lemma keys_run `{Stored V} (r : MapRef V) h :
  keys r h = (Ok ((map_to_list (content h r)).*1), h).
Proof. reflexivity. Qed.

Lemma defined_Ok_inv {A} (o : option A) h x h' :
  defined o h = (Ok x, h') → o = Some x ∧ h' = h.
Proof. destruct o; cbn; intros [=]; subst; auto. Qed.

(** One step of a run that is known to return: name the intermediate value
    and heap, or close the goal when the step throws. *)
Ltac run_inv_step :=
  match goal with
  | H : (_ ≫= _) _ = (Ok _, _) |- _ =>
      let x := fresh "x" in let h := fresh "h" in let E := fresh "E" in
      apply bind_Ok_inv in H as (x & h & E & H); cbv beta in H
  | H : mret _ _ = (Ok _, _) |- _ => rewrite ret_run in H; injection H as <- <-
  | H : throw _ _ = (Ok _, _) |- _ => discriminate H
  | H : has _ _ _ = (Ok _, _) |- _ => rewrite has_run in H; injection H as <- <-
  | H : get _ _ _ = (Ok _, _) |- _ => rewrite get_run in H; injection H as <- <-
  | H : annot _ _ = (Ok _, _) |- _ =>
      unfold annot in H; apply defined_Ok_inv in H as [H ->]
  | H : defined _ _ = (Ok _, _) |- _ => apply defined_Ok_inv in H as [-> ->]
  | H : (if ?b then _ else _) _ = (Ok _, _) |- _ => destruct b eqn:?
  | H : (let '(_, _) := ?p in _) _ = (Ok _, _) |- _ => destruct p
  | H : match ?x with _ => _ end _ = (Ok _, _) |- _ => destruct x eqn:?
  end.

Ltac run_inv := repeat run_inv_step.

(** ** Annotations *)

(** Every node [tcExpr] returns carries an annotation. *)
Lemma tcExpr_annotated env locals expr h tExpr h' :
  tcExpr env locals expr h = (Ok tExpr, h') → is_Some (Expr_a tExpr).
Proof.
  revert h tExpr h'.
  induction expr; intros h0 tExpr h' Hrun; cbn [tcExpr] in Hrun.
  all: run_inv; cbn [Expr_a]; eauto.
  all: repeat match goal with
         | H : bool_decide _ = true |- _ => apply bool_decide_eq_true_1 in H
         end.
  all: try (destruct a; cbn; eauto; fail).
  all: eauto.
Qed.

Example loadModule_defaultTypeEnv : outcome loadModule bootHeap = Ok defaultTypeEnv.
Proof. reflexivity. Qed.

Example emptyLocalTypeEnv_topScope : outcome emptyLocalTypeEnv defaultHeap = Ok topScope.
Proof. reflexivity. Qed.

(** [print(1)] has the type of its argument. *)
Example print_1 :
  outcome (tcExpr defaultTypeEnv topScope (EBuiltin1 None "print" litOne 2)) scopeHeap
  = Ok (EBuiltin1 (Some NUM) "print" (ELiteral (Some NUM) (LNum 1) 1) 2).
Proof. vm_compute. reflexivity. Qed.

(** ** Equality and assignability of types *)

Lemma same_object_true t1 t2 : same_object t1 t2 = true ↔ t1 = t2.
Proof. unfold same_object. apply bool_decide_eq_true. Qed.

Lemma equalType_true t1 t2 :
  equalType t1 t2 = true ↔
  t1 = t2 ∨ ∃ name, shape t1 = TClass name ∧ shape t2 = TClass name.
Proof.
  unfold equalType. rewrite orb_true_iff, same_object_true.
  split; (intros [?|Hc]; [by left | right]).
  - destruct (shape t1), (shape t2); try discriminate.
    apply bool_decide_eq_true_1 in Hc as ->. eauto.
  - destruct Hc as (name & -> & ->). by apply bool_decide_eq_true_2.
Qed.

Lemma isAssignable_true env t1 t2 :
  isAssignable env t1 t2 = true ↔
  t1 = t2
  ∨ (∃ name, shape t1 = TClass name ∧ shape t2 = TClass name)
  ∨ (shape t1 = TNone ∧ ∃ name, shape t2 = TClass name).
Proof.
  unfold isAssignable, isSubtype. rewrite orb_true_iff, equalType_true.
  split.
  - intros [[?|?]|Hn]; [tauto | tauto |].
    destruct (shape t1), (shape t2); try discriminate. eauto.
  - intros [?|[?|(-> & name & ->)]]; tauto.
Qed.

(** C6, as the code has it: [join] is a stub, it returns the none type
    whatever it is given; joining a type with itself gives that type back
    only for the none type itself. *)
Theorem join_is_NONE env t1 t2 :
  join env t1 t2 = NONE ∧ (join env t1 t1 = t1 ↔ t1 = NONE).
Proof. unfold join. split; [done | split; congruence]. Qed.

(** C6 fails on the code: the join of the number type with itself is the none
    type, not the number type. *)
Lemma join_NUM_NUM : join defaultTypeEnv NUM NUM ≠ NUM.
Proof. discriminate. Qed.

(** The literals have the shared objects as their types, and [CLASS] makes an
    object of a class type. *)
Lemma tcLiteral_shared literal : shared_or_class (tcLiteral literal).
Proof. by destruct literal. Qed.

Lemma CLASS_shared name h t h' : CLASS name h = (Ok t, h') → shared_or_class t.
Proof. unfold CLASS. by intros [= <- _]. Qed.

(** C7: assignability is reflexive, the none type is assignable to every class
    type, and no other pair of distinct types is assignable.  On type
    objects: every object is assignable to itself; an object of the none
    type is assignable to every object of a class type; two objects of the
    class of one name are assignable to each other, also when they are two
    objects; an assignable pair that is not of one tag and name is the none
    type with a class type; and these are all the assignable pairs.  On the
    objects the system makes, where each primitive type has one shared
    object, assignability depends on the tags and names alone and is the
    relation of the claim: the two types are the same type, or the first is
    the none type and the second a class type. *)
Theorem isAssignable_cases env :
  (∀ t, isAssignable env t t = true)
  ∧ (∀ t1 t2 c, shape t1 = TNone → shape t2 = TClass c → isAssignable env t1 t2 = true)
  ∧ (∀ t1 t2 c, shape t1 = TClass c → shape t2 = TClass c →
       isAssignable env t1 t2 = true)
  ∧ (∀ t1 t2, isAssignable env t1 t2 = true → shape t1 ≠ shape t2 →
       shape t1 = TNone ∧ ∃ c, shape t2 = TClass c)
  ∧ (∀ t1 t2,
       isAssignable env t1 t2 = true
       ↔ t1 = t2
         ∨ (∃ c, shape t1 = TClass c ∧ shape t2 = TClass c)
         ∨ (shape t1 = TNone ∧ ∃ c, shape t2 = TClass c))
  ∧ (∀ t1 t2, shared_or_class t1 → shared_or_class t2 →
       (isAssignable env t1 t2 = true
        ↔ shape t1 = shape t2 ∨ (shape t1 = TNone ∧ ∃ c, shape t2 = TClass c))).
Proof.
  split; [|split; [|split; [|split; [|split]]]].
  - intros t. apply isAssignable_true. by left.
  - intros t1 t2 c H1 H2. apply isAssignable_true. eauto.
  - intros t1 t2 c H1 H2. apply isAssignable_true. eauto.
  - intros t1 t2 Ha Hne. apply isAssignable_true in Ha as [->|[(c & E1 & E2)|?]].
    + done.
    + congruence.
    + done.
  - intros t1 t2. apply isAssignable_true.
  - intros t1 t2 S1 S2. rewrite isAssignable_true. split.
    + intros [->|[(c & E1 & E2)|?]]; [by left | left; congruence | by right].
    + intros [E|?]; [|tauto].
      unfold shared_or_class in S1, S2. rewrite <- E in S2.
      destruct (shape t1) as [| | |c] eqn:E1.
      * left. congruence.
      * left. congruence.
      * left. congruence.
      * right. left. eauto.
Qed.

Lemma isAssignable_cases_witness :
  C_of_c ≠ C_of_d
  ∧ isAssignable defaultTypeEnv C_of_c C_of_d = true
  ∧ isAssignable defaultTypeEnv NONE C_of_c = true
  ∧ isAssignable defaultTypeEnv C_of_c NONE ≠ true
  ∧ isAssignable defaultTypeEnv NUM BOOL ≠ true.
Proof.
  pose proof (isAssignable_cases defaultTypeEnv) as (_ & Hnone & Hname & _ & _ & Hshared).
  split; [discriminate|].
  split; [exact (Hname C_of_c C_of_d "C" eq_refl eq_refl)|].
  split; [exact (Hnone NONE C_of_c "C" eq_refl eq_refl)|].
  split.
  - intros Ha. apply (Hshared C_of_c NONE I eq_refl) in Ha as [E|[E _]]; discriminate.
  - intros Ha. apply (Hshared NUM BOOL eq_refl eq_refl) in Ha as [E|[E _]]; discriminate.
Defined.

(** ** Single-argument builtins *)

(** C2, as the code has it: for a builtin other than [print] whose recorded
    signature has a first parameter type, once the argument type-checks its
    type is tested for assignability to that parameter type; the call gets
    the recorded return type when the test passes and is a type mismatch when
    it does not. *)
Theorem tcExpr_builtin1_checks_argument
    env locals a name arg loc h params retTyp expectedArgTyp tArg h' :
  name ≠ "print" →
  content h (functions env) !! name = Some (params, retTyp) →
  params !! 0%nat = Some expectedArgTyp →
  tcExpr env locals arg h = (Ok tArg, h') →
  ∃ t, Expr_a tArg = Some t ∧
    tcExpr env locals (EBuiltin1 a name arg loc) h =
    (if isAssignable env t expectedArgTyp
     then Ok (EBuiltin1 (Some retTyp) name tArg loc)
     else Throw (TypeMismatchError (nameOrTag expectedArgTyp)
                   (match shape t with TClass n => n | _ => Expr_tag tArg end) loc),
     h').
Proof.
  intros Hname Hsig Hparam Harg.
  destruct (tcExpr_annotated _ _ _ _ _ _ Harg) as [t Ht].
  exists t. split; [done|].
  cbn [tcExpr]. rewrite bool_decide_eq_false_2 by done.
  rewrite bind_run, has_run, Hsig, bool_decide_eq_true_2 by eauto.
  rewrite bind_run, get_run, Hsig. cbn [defined].
  rewrite bind_run, ret_run, bind_run, Harg.
  unfold annot. rewrite Ht, Hparam. cbn [defined].
  rewrite bind_run, ret_run, bind_run, ret_run.
  by destruct (isAssignable env t expectedArgTyp).
Qed.

Lemma tcExpr_builtin1_checks_argument_witness :
  "abs" ≠ "print"
  ∧ content scopeHeap (functions defaultTypeEnv) !! "abs" = Some ([NUM], NUM)
  ∧ [NUM] !! 0%nat = Some NUM
  ∧ tcExpr defaultTypeEnv topScope litOne scopeHeap
    = (Ok (ELiteral (Some NUM) (LNum 1) 1), scopeHeap)
  ∧ ∃ t, Expr_a (ELiteral (Some NUM) (LNum 1) 1) = Some t ∧
      tcExpr defaultTypeEnv topScope (EBuiltin1 None "abs" litOne 2) scopeHeap =
      (if isAssignable defaultTypeEnv t NUM
       then Ok (EBuiltin1 (Some NUM) "abs" (ELiteral (Some NUM) (LNum 1) 1) 2)
       else Throw (TypeMismatchError (nameOrTag NUM)
                     (match shape t with
                      | TClass n => n
                      | _ => Expr_tag (ELiteral (Some NUM) (LNum 1) 1)
                      end) 2),
       scopeHeap).
Proof.
  assert (Hname : "abs" ≠ "print") by discriminate.
  assert (Hsig : content scopeHeap (functions defaultTypeEnv) !! "abs" = Some ([NUM], NUM))
    by (vm_compute; reflexivity).
  assert (Hparam : [NUM] !! 0%nat = Some NUM) by reflexivity.
  assert (Harg : tcExpr defaultTypeEnv topScope litOne scopeHeap
                 = (Ok (ELiteral (Some NUM) (LNum 1) 1), scopeHeap)) by reflexivity.
  repeat split; try assumption.
  exact (tcExpr_builtin1_checks_argument defaultTypeEnv topScope None "abs" litOne 2
           scopeHeap [NUM] NUM NUM _ _ Hname Hsig Hparam Harg).
Defined.

(** C2 fails on the code: [abs] is in the function table and is not [print],
    its argument [True] type-checks, and the call is rejected. *)
Lemma abs_True_rejected :
  "abs" ≠ "print"
  ∧ outcome (has (functions defaultTypeEnv) "abs") scopeHeap = Ok true
  ∧ outcome (tcExpr defaultTypeEnv topScope litTrue) scopeHeap
    = Ok (ELiteral (Some BOOL) (LBool true) 1)
  ∧ outcome (tcExpr defaultTypeEnv topScope absTrue) scopeHeap
    = Throw (TypeMismatchError "number" "literal" 2).
Proof. split; [discriminate|]. vm_compute. auto. Qed.

(** ** Calls *)

Lemma CLASS_run name h : CLASS name h = (Ok (mkTy (next h) (TClass name)), bump h).
Proof. reflexivity. Qed.

Lemma content_bump `{Stored V} (r : MapRef V) h : content (bump h) r = content h r.
Proof. unfold content. by rewrite maps_of_bump. Qed.

(** What a call whose callee is a class does: only the number of arguments is
    looked at, and only when the class has an [__init__]. *)
Lemma tcExpr_call_class env locals a name arguments loc h fields methods :
  content h (classes env) !! name = Some (fields, methods) →
  tcExpr env locals (ECall a name arguments loc) h =
  (match content h methods !! "__init__" with
   | None => Ok (EConstruct (Some (mkTy (next h) (TClass name))) name loc)
   | Some (initArgs, initRet) =>
       if bool_decide (Z.of_nat (length arguments) ≠ (Z.of_nat (length initArgs) - 1)%Z)
       then Throw (TypeError
                     (initArityMessage (length initArgs) (length arguments + 1)) loc)
       else if negb (same_object initRet NONE)
       then Throw (TypeError (initReturnMessage initRet) loc)
       else Ok (EConstruct (Some (mkTy (next h) (TClass name))) name loc)
   end, bump h).
Proof.
  intros Hcls. cbn [tcExpr].
  rewrite bind_run, has_run, Hcls, bool_decide_eq_true_2 by eauto.
  rewrite bind_run, CLASS_run, bind_run, get_run, content_bump, Hcls.
  cbn [defined]. rewrite bind_run, ret_run, bind_run, has_run, content_bump.
  destruct (content h methods !! "__init__") as [[initArgs initRet]|] eqn:Hinit.
  - rewrite bool_decide_eq_true_2 by eauto.
    rewrite bind_run, get_run, content_bump, Hinit. cbn [defined].
    rewrite bind_run, ret_run.
    repeat case_match; reflexivity.
  - rewrite bool_decide_eq_false_2 by (by intros [??]). reflexivity.
Qed.

(** C9: when the callee of a call is a known class, the outcome does not
    depend on what the argument expressions are, only on how many there are;
    a node that is returned is a construct node, which has no arguments; and
    when the class has no [__init__], the call succeeds whatever the
    arguments. *)
Theorem tcExpr_call_class_ignores_arguments
    env locals a name arguments loc h fields methods :
  content h (classes env) !! name = Some (fields, methods) →
  let tConstruct := EConstruct (Some (mkTy (next h) (TClass name))) name loc in
  (∀ arguments', length arguments' = length arguments →
     tcExpr env locals (ECall a name arguments' loc) h
     = tcExpr env locals (ECall a name arguments loc) h)
  ∧ (∀ tExpr h',
       tcExpr env locals (ECall a name arguments loc) h = (Ok tExpr, h') →
       tExpr = tConstruct)
  ∧ (∀ e h',
       tcExpr env locals (ECall a name arguments loc) h = (Throw e, h') →
       ∃ message, e = TypeError message loc)
  ∧ (content h methods !! "__init__" = None →
     tcExpr env locals (ECall a name arguments loc) h = (Ok tConstruct, bump h)).
Proof.
  intros Hcls tConstruct.
  split; [|split; [|split]].
  - intros arguments' Hlen.
    rewrite !(tcExpr_call_class _ _ _ _ _ _ _ _ _ Hcls), Hlen. reflexivity.
  - intros tExpr h'. rewrite (tcExpr_call_class _ _ _ _ _ _ _ _ _ Hcls).
    intros Hrun. repeat case_match; by simplify_eq.
  - intros e h'. rewrite (tcExpr_call_class _ _ _ _ _ _ _ _ _ Hcls).
    intros Hrun. repeat case_match; simplify_eq; eauto.
  - intros Hinit. rewrite (tcExpr_call_class _ _ _ _ _ _ _ _ _ Hcls), Hinit.
    reflexivity.
Qed.

Lemma tcExpr_call_class_ignores_arguments_witness :
  content checkHeap (classes checkEnv) !! "C" = Some (mkRef 14, mkRef 15)
  ∧ tcExpr checkEnv checkScope newC_unbound checkHeap
    = (Ok (EConstruct (Some (mkTy (next checkHeap) (TClass "C"))) "C" 1), bump checkHeap).
Proof.
  assert (Hcls : content checkHeap (classes checkEnv) !! "C" = Some (mkRef 14, mkRef 15))
    by (vm_compute; reflexivity).
  split; [exact Hcls|].
  apply (tcExpr_call_class_ignores_arguments checkEnv checkScope None "C" [idUnbound] 1
           checkHeap _ _ Hcls).
  vm_compute. reflexivity.
Defined.

Example checkHeap_is_the_heap_of_tc :
  outcome (tc defaultTypeEnv (programC [SExpr None newC_unbound 2])) parsedHeap
  = outcome (newEnv ← mret checkEnv;
             tcBlock checkEnv checkScope [SExpr None newC_unbound 2];;
             mret (mkProgram (Some (mkTy 17 (TClass "C")))
                     [mkVarInit (Some NONE) "c" C_of_c LNone 0;
                      mkVarInit (Some NONE) "d" C_of_d LNone 0]
                     [mkFunDef (Some NONE) "f" [mkParam "x" C_of_x] NONE []
                        [SPass (Some NONE) 0] 0]
                     [mkClass (Some NONE) "C" [] [] 0]
                     [SExpr (Some (mkTy 17 (TClass "C")))
                        (EConstruct (Some (mkTy 17 (TClass "C"))) "C" 1) 2] 0,
                   newEnv)) checkHeap.
Proof. vm_compute. reflexivity. Qed.

(** C3 fails on the code, though the claim is what the checker is after
    ([equalType] compares classes by name, and the method-call case accepts
    such arguments): [f] takes a [C], the argument is a [C], and the call is
    rejected, because the two type objects are compared by identity. *)
Theorem call_with_class_argument_rejected :
  content checkHeap (functions checkEnv) !! "f" = Some ([C_of_x], NONE)
  ∧ outcome (tcExpr checkEnv checkScope idC) checkHeap = Ok (EId (Some C_of_c) "c" 1)
  ∧ shape C_of_c = shape C_of_x
  ∧ equalType C_of_c C_of_x = true
  ∧ outcome (tc defaultTypeEnv (programC [SExpr None call_f_c 3])) parsedHeap
    = Throw (TypeMismatchError "[C]" "[C]" 2)
  ∧ outcome (tc defaultTypeEnv (programC [SExpr None call_f_newC 3])) parsedHeap
    = Throw (TypeMismatchError "[C]" "[C]" 2).
Proof. vm_compute. repeat split; reflexivity. Qed.

(** ** Conditionals and loops *)

(** C4 fails on the code, though the claim is what the checker is after (the
    [while] case compares with [equalType], which knows classes by name): the
    condition is [True], either branch type-checks, both branches have the
    type [C], and the conditional is rejected, because the two type objects
    are compared by identity. *)
Theorem if_with_equal_class_branches_rejected :
  outcome (tcStmt checkEnv checkScope (SExpr None idC 2)) checkHeap
  = Ok (SExpr (Some C_of_c) (EId (Some C_of_c) "c" 1) 2)
  ∧ outcome (tcStmt checkEnv checkScope (SExpr None idD 3)) checkHeap
    = Ok (SExpr (Some C_of_d) (EId (Some C_of_d) "d" 1) 3)
  ∧ shape C_of_c = shape C_of_d
  ∧ equalType C_of_c C_of_d = true
  ∧ outcome (tc defaultTypeEnv (programC [if_c_d])) parsedHeap
    = Throw (SyntaxError "Types of then and else branches must match" 4)
  ∧ outcome (tc defaultTypeEnv (programC [if_newC_newC])) parsedHeap
    = Throw (SyntaxError "Types of then and else branches must match" 4).
Proof. vm_compute. repeat split; reflexivity. Qed.

Lemma mapM_Ok_length {A B} (f : A → M B) l h l' h' :
  mapM f l h = (Ok l', h') → length l' = length l.
Proof.
  revert h l' h'. induction l as [|x l IH]; intros h l' h' Hrun; cbn [mapM] in Hrun.
  - by run_inv.
  - run_inv. cbn. f_equal. eauto.
Qed.

Lemma tcBlock_Ok_last env locals stmts h tStmts h' :
  tcBlock env locals stmts h = (Ok tStmts, h') → stmts ≠ [] → is_Some (last tStmts).
Proof.
  intros Hrun Hne. apply mapM_Ok_length in Hrun.
  destruct tStmts as [|s tStmts] using rev_ind.
  - destruct stmts; [done | discriminate].
  - rewrite last_snoc. eauto.
Qed.

Lemma tcExpr_loc env locals expr h tExpr h' :
  tcExpr env locals expr h = (Ok tExpr, h') → Expr_loc tExpr = Expr_loc expr.
Proof.
  destruct expr; intros Hrun; cbn [tcExpr] in Hrun; run_inv; reflexivity.
Qed.

Lemma tcStmt_if_unfold env locals a cond thn els loc :
  tcStmt env locals (SIf a cond thn els loc) =
  (tCond ← tcExpr env locals cond;
   tThn ← tcBlock env locals thn;
   thnLast ← defined (last tThn);
   tEls ← tcBlock env locals els;
   elsLast ← defined (last tEls);
   if bool_decide (Expr_a tCond ≠ Some BOOL) then
     condTyp ← annot tCond;
     throw (ConditionTypeError (tag condTyp) (Expr_loc tCond))
   else if bool_decide (Stmt_a thnLast ≠ Stmt_a elsLast) then
     throw (SyntaxError "Types of then and else branches must match" loc)
   else mret (SIf (Stmt_a thnLast) tCond tThn tEls loc)).
Proof. reflexivity. Qed.

Lemma tcStmt_while_unfold env locals a cond body loc :
  tcStmt env locals (SWhile a cond body loc) =
  (tCond ← tcExpr env locals cond;
   tBody ← tcBlock env locals body;
   condTyp ← annot tCond;
   if negb (equalType condTyp BOOL) then
     throw (ConditionTypeError (tag condTyp) (Expr_loc tCond))
   else mret (SWhile (Some NONE) tCond tBody loc)).
Proof. reflexivity. Qed.

Lemma equalType_BOOL t : equalType t BOOL = bool_decide (t = BOOL).
Proof.
  unfold equalType, same_object. destruct (shape t); cbn; by rewrite orb_false_r.
Qed.

(** C5, as the code has it: when the condition of an [if] or a [while]
    type-checks to a type other than Bool, the statement fails with a
    condition-type failure that names the tag of that type, at the
    condition, provided that the branches (both non-empty) or the body
    type-check; the type of the condition is tested after the branches or
    the body are checked, so a failure inside them is the one that reaches
    the caller. *)
Theorem condition_type_failure env locals cond h tCond h1 condTyp :
  tcExpr env locals cond h = (Ok tCond, h1) →
  Expr_a tCond = Some condTyp →
  condTyp ≠ BOOL →
  (∀ a thn els loc tThn h2 tEls h3,
     tcBlock env locals thn h1 = (Ok tThn, h2) → thn ≠ [] →
     tcBlock env locals els h2 = (Ok tEls, h3) → els ≠ [] →
     tcStmt env locals (SIf a cond thn els loc) h
     = (Throw (ConditionTypeError (tag condTyp) (Expr_loc cond)), h3))
  ∧ (∀ a body loc tBody h2,
       tcBlock env locals body h1 = (Ok tBody, h2) →
       tcStmt env locals (SWhile a cond body loc) h
       = (Throw (ConditionTypeError (tag condTyp) (Expr_loc cond)), h2))
  ∧ (∀ a thn els loc e h2,
       tcBlock env locals thn h1 = (Throw e, h2) →
       tcStmt env locals (SIf a cond thn els loc) h = (Throw e, h2))
  ∧ (∀ a thn els loc tThn h2 e h3,
       tcBlock env locals thn h1 = (Ok tThn, h2) → thn ≠ [] →
       tcBlock env locals els h2 = (Throw e, h3) →
       tcStmt env locals (SIf a cond thn els loc) h = (Throw e, h3))
  ∧ (∀ a body loc e h2,
       tcBlock env locals body h1 = (Throw e, h2) →
       tcStmt env locals (SWhile a cond body loc) h = (Throw e, h2)).
Proof.
  intros Hcond Ha Hne.
  rewrite <- (tcExpr_loc _ _ _ _ _ _ Hcond).
  repeat split.
  - intros a thn els loc tThn h2 tEls h3 Hthn Hthn_ne Hels Hels_ne.
    destruct (tcBlock_Ok_last _ _ _ _ _ _ Hthn Hthn_ne) as [thnLast Hl1].
    destruct (tcBlock_Ok_last _ _ _ _ _ _ Hels Hels_ne) as [elsLast Hl2].
    rewrite tcStmt_if_unfold, bind_run, Hcond, bind_run, Hthn, Hl1.
    cbn [defined]. rewrite bind_run, ret_run, bind_run, Hels, Hl2.
    cbn [defined]. rewrite bind_run, ret_run.
    rewrite bool_decide_eq_true_2 by congruence.
    unfold annot. rewrite Ha. reflexivity.
  - intros a body loc tBody h2 Hbody.
    rewrite tcStmt_while_unfold, bind_run, Hcond, bind_run, Hbody.
    unfold annot. rewrite Ha. cbn [defined]. rewrite bind_run, ret_run.
    rewrite equalType_BOOL, bool_decide_eq_false_2 by done. reflexivity.
  - intros a thn els loc e h2 Hthn.
    by rewrite tcStmt_if_unfold, bind_run, Hcond, bind_run, Hthn.
  - intros a thn els loc tThn h2 e h3 Hthn Hthn_ne Hels.
    destruct (tcBlock_Ok_last _ _ _ _ _ _ Hthn Hthn_ne) as [thnLast Hl1].
    rewrite tcStmt_if_unfold, bind_run, Hcond, bind_run, Hthn, Hl1.
    cbn [defined]. by rewrite bind_run, ret_run, bind_run, Hels.
  - intros a body loc e h2 Hbody.
    by rewrite tcStmt_while_unfold, bind_run, Hcond, bind_run, Hbody.
Qed.

Lemma condition_type_failure_witness :
  tcExpr defaultTypeEnv topScope litOne scopeHeap
  = (Ok (ELiteral (Some NUM) (LNum 1) 1), scopeHeap)
  ∧ NUM ≠ BOOL
  ∧ tcStmt defaultTypeEnv topScope if_1_pass scopeHeap
    = (Throw (ConditionTypeError "number" 1), scopeHeap)
  ∧ tcStmt defaultTypeEnv topScope while_1_pass scopeHeap
    = (Throw (ConditionTypeError "number" 1), scopeHeap).
Proof.
  assert (Hcond : tcExpr defaultTypeEnv topScope litOne scopeHeap
                  = (Ok (ELiteral (Some NUM) (LNum 1) 1), scopeHeap)) by reflexivity.
  assert (Hne : NUM ≠ BOOL) by discriminate.
  destruct (condition_type_failure defaultTypeEnv topScope litOne scopeHeap _ _ NUM
              Hcond eq_refl Hne) as (Hif & Hwhile & _).
  split; [exact Hcond|]. split; [exact Hne|]. split.
  - apply (Hif None [SPass None 2] [SPass None 3] 4
             [SPass (Some NONE) 2] scopeHeap [SPass (Some NONE) 3] scopeHeap);
      [reflexivity | discriminate | reflexivity | discriminate].
  - apply (Hwhile None [SPass None 2] 3 [SPass (Some NONE) 2] scopeHeap). reflexivity.
Defined.

(** C5 fails on the code: the condition [1] type-checks to the number type,
    and the failure that reaches the caller is the unbound name in the body
    or in the branch. *)
Lemma unbound_name_reported_before_condition :
  outcome (tcExpr defaultTypeEnv topScope litOne) scopeHeap
  = Ok (ELiteral (Some NUM) (LNum 1) 1)
  ∧ outcome (tcStmt defaultTypeEnv topScope while_1_unbound) scopeHeap
    = Throw (NameError "zz" 1)
  ∧ outcome (tcStmt defaultTypeEnv topScope if_1_unbound) scopeHeap
    = Throw (NameError "zz" 1).
Proof. vm_compute. repeat split; reflexivity. Qed.

(** C10, as the code has it: once the condition of an [if] type-checks, an
    empty then-branch, or an empty else-branch after a then-branch that is
    not empty and type-checks, makes the checker read the annotation of the
    last statement of an empty list: the runtime fails, and none of the
    checker's diagnostics is produced; and an [if] for which the statement
    typer returns a node has two non-empty branches. *)
Theorem if_with_empty_branch env locals a cond loc h tCond h1 :
  tcExpr env locals cond h = (Ok tCond, h1) →
  (∀ els, tcStmt env locals (SIf a cond [] els loc) h = (Throw NativeTypeError, h1))
  ∧ (∀ thn tThn h2,
       tcBlock env locals thn h1 = (Ok tThn, h2) → thn ≠ [] →
       tcStmt env locals (SIf a cond thn [] loc) h = (Throw NativeTypeError, h2))
  ∧ (∀ thn els tStmt h',
       tcStmt env locals (SIf a cond thn els loc) h = (Ok tStmt, h') →
       thn ≠ [] ∧ els ≠ []).
Proof.
  intros Hcond. split; [|split].
  - intros els. by rewrite tcStmt_if_unfold, bind_run, Hcond.
  - intros thn tThn h2 Hthn Hne.
    destruct (tcBlock_Ok_last _ _ _ _ _ _ Hthn Hne) as [thnLast Hl].
    rewrite tcStmt_if_unfold, bind_run, Hcond, bind_run, Hthn, Hl.
    cbn [defined]. by rewrite bind_run, ret_run.
  - intros thn els tStmt h' Hrun. rewrite tcStmt_if_unfold in Hrun.
    apply bind_Ok_inv in Hrun as (tCond' & h2 & _ & Hrun).
    apply bind_Ok_inv in Hrun as (tThn & h3 & Ethn & Hrun).
    apply bind_Ok_inv in Hrun as (thnLast & h4 & Elast & Hrun).
    apply bind_Ok_inv in Hrun as (tEls & h5 & Eels & Hrun).
    apply bind_Ok_inv in Hrun as (elsLast & h6 & Elast' & _).
    apply defined_Ok_inv in Elast as [Elast _].
    apply defined_Ok_inv in Elast' as [Elast' _].
    split; intros ->.
    + cbn in Ethn. injection Ethn as <- <-. discriminate Elast.
    + cbn in Eels. injection Eels as <- <-. discriminate Elast'.
Qed.

Lemma if_with_empty_branch_witness :
  tcExpr defaultTypeEnv topScope litTrue scopeHeap
  = (Ok (ELiteral (Some BOOL) (LBool true) 1), scopeHeap)
  ∧ tcStmt defaultTypeEnv topScope if_True_no_else scopeHeap
    = (Throw NativeTypeError, scopeHeap).
Proof.
  assert (Hcond : tcExpr defaultTypeEnv topScope litTrue scopeHeap
                  = (Ok (ELiteral (Some BOOL) (LBool true) 1), scopeHeap)) by reflexivity.
  split; [exact Hcond|].
  destruct (if_with_empty_branch defaultTypeEnv topScope None litTrue 3 scopeHeap _ _
              Hcond) as (_ & Hels & _).
  apply (Hels [SPass None 2] [SPass (Some NONE) 2] scopeHeap); [reflexivity | discriminate].
Defined.

(** C10 fails on the code: an [if] without [else], so with an empty
    else-branch, whose condition is an unbound name fails with one of the
    checker's diagnostics, the name-resolution failure. *)
Lemma if_without_else_reports_unbound_condition :
  outcome (tcStmt defaultTypeEnv topScope if_unbound_no_else) scopeHeap
  = Throw (NameError "zz" 1)
  ∧ is_diagnostic (NameError "zz" 1) = true.
Proof. vm_compute. split; reflexivity. Qed.

(** ** The checker writes only to objects it makes *)

Lemma preserves_refl n h : preserves n h h.
Proof. split; [lia | auto]. Qed.

Lemma preserves_trans n h1 h2 h3 :
  preserves n h1 h2 → preserves n h2 h3 → preserves n h1 h3.
Proof.
  intros [Hn1 Hp1] [Hn2 Hp2]. split; [lia|].
  intros x Hx. destruct (Hp1 x Hx) as (E1 & E2 & E3).
  destruct (Hp2 x Hx) as (F1 & F2 & F3). rewrite F1, F2, F3. auto.
Qed.

Lemma preserves_bump n h : preserves n h (bump h).
Proof. split; [cbn; lia | auto]. Qed.

Lemma preserves_mono n n' h h' : n' ≤ n → preserves n h h' → preserves n' h h'.
Proof. intros Hle [Hn Hp]. split; [done|]. intros x Hx. apply Hp. lia. Qed.

Lemma content_preserved `{Stored V} n h h' (r : MapRef V) :
  preserves n h h' → address r < n → content h' r = content h r.
Proof.
  intros Hp Hr. unfold content.
  rewrite !lookup_total_alt, (maps_of_preserved n h h' _ Hp Hr). reflexivity.
Qed.

Lemma keeps_ret {A} n (x : A) (Q : A → Prop) : Q x → keeps n (mret x) Q.
Proof.
  intros HQ h r h' _ [= <- <-]. split; [apply preserves_refl|]. by intros ? [= <-].
Qed.

Lemma keeps_throw {A} n e (Q : A → Prop) : keeps n (throw e) Q.
Proof. intros h r h' _ [= <- <-]. split; [apply preserves_refl | done]. Qed.

Lemma keeps_bind {A B} n (m : M A) (k : A → M B) (Q : A → Prop) (Q' : B → Prop) :
  keeps n m Q → (∀ x, Q x → keeps n (k x) Q') → keeps n (m ≫= k) Q'.
Proof.
  intros Hm Hk h r h' Hn. rewrite bind_run.
  destruct (m h) as [[x|e] h1] eqn:E; intros Hrun.
  - destruct (Hm _ _ _ Hn E) as [Hp HQ].
    destruct (Hk x (HQ _ eq_refl) h1 r h') as [Hp' HQ']; [destruct Hp; lia | done |].
    split; [by eapply preserves_trans | done].
  - injection Hrun as <- <-. split; [by apply (Hm _ _ _ Hn E) | done].
Qed.

Lemma keeps_weaken {A} n (m : M A) (Q Q' : A → Prop) :
  keeps n m Q → (∀ x, Q x → Q' x) → keeps n m Q'.
Proof.
  intros Hm HQ h r h' Hn Hrun. destruct (Hm _ _ _ Hn Hrun) as [Hp Hq].
  split; [done | eauto].
Qed.

Lemma keeps_defined {A} n (o : option A) : keeps n (defined o) (λ _, True).
Proof. destruct o; [by apply keeps_ret | apply keeps_throw]. Qed.

Lemma keeps_annot n e : keeps n (annot e) (λ _, True).
Proof. apply keeps_defined. Qed.

Lemma keeps_CLASS n name : keeps n (CLASS name) (λ _, True).
Proof. intros h r h' _ [= <- <-]. split; [apply preserves_bump | done]. Qed.

Section MapObjects_keep.
Context {V : Type} `{Stored V}.
Implicit Types (r : MapRef V) (n : nat).

Lemma keeps_entries n r : keeps n (entries r) (λ _, True).
Proof. intros h res h' _ [= <- <-]. split; [apply preserves_refl | done]. Qed.

Lemma keeps_has n r key : keeps n (has r key) (λ _, True).
Proof. apply (keeps_bind _ _ _ _ _ (keeps_entries n r)). intros. by apply keeps_ret. Qed.

Lemma keeps_get n r key : keeps n (get r key) (λ _, True).
Proof. apply (keeps_bind _ _ _ _ _ (keeps_entries n r)). intros. by apply keeps_ret. Qed.

Lemma keeps_keys n r : keeps n (keys r) (λ _, True).
Proof. apply (keeps_bind _ _ _ _ _ (keeps_entries n r)). intros. by apply keeps_ret. Qed.

Lemma keeps_new_Map n (c : gmap string V) : keeps n (new_Map c) (λ r, n ≤ address r).
Proof.
  intros h res h' Hn [= <- <-]. split.
  - eapply preserves_trans; [|apply preserves_bump].
    apply with_maps_preserves. intros x Hx. apply lookup_insert_ne. lia.
  - intros r [= <-]. done.
Qed.

Lemma keeps_copy_Map n r : keeps n (copy_Map r) (λ r', n ≤ address r').
Proof.
  apply (keeps_bind _ _ _ _ _ (keeps_entries n r)). intros. apply keeps_new_Map.
Qed.

Lemma keeps_set n r key (value : V) : n ≤ address r → keeps n (set r key value) (λ _, True).
Proof.
  intros Hr h res h' Hn [= <- <-]. split; [|done].
  apply with_maps_preserves. intros x Hx. apply lookup_insert_ne. lia.
Qed.
End MapObjects_keep.

Lemma keeps_mapM {A B} n (f : A → M B) l :
  Forall (λ x, keeps n (f x) (λ _, True)) l → keeps n (mapM f l) (λ _, True).
Proof.
  induction 1 as [|x l Hx _ IH]; cbn [mapM].
  - by apply keeps_ret.
  - apply (keeps_bind _ _ _ _ _ Hx). intros y _.
    apply (keeps_bind _ _ _ _ _ IH). intros ys _. by apply keeps_ret.
Qed.

Lemma keeps_forEach {A} n (f : A → M unit) l :
  (∀ x, keeps n (f x) (λ _, True)) → keeps n (forEach f l) (λ _, True).
Proof.
  intros Hf. induction l as [|x l IH]; cbn [forEach].
  - by apply keeps_ret.
  - apply (keeps_bind _ _ _ _ _ (Hf x)). intros _ _. exact IH.
Qed.

Lemma keeps_everyM {A} n (p : A → nat → M bool) l :
  (∀ x i, keeps n (p x i) (λ _, True)) → keeps n (everyM p l) (λ _, True).
Proof.
  intros Hp. unfold everyM. generalize 0.
  induction l as [|x l IH]; intros i.
  - by apply keeps_ret.
  - apply (keeps_bind _ _ _ _ _ (Hp x i)). intros [] _; [apply IH | by apply keeps_ret].
Qed.

Create HintDb keeps discriminated.
#[local] Hint Resolve keeps_throw keeps_defined keeps_annot keeps_CLASS keeps_has keeps_get
  keeps_keys keeps_entries keeps_new_Map keeps_copy_Map : keeps.

(** Take a computation apart, down to its primitive steps. *)
Ltac keeps_step :=
  match goal with
  | |- True => exact I
  | |- Forall _ _ => first [eassumption | apply Forall_true; intros ?]
  | |- keeps _ (mret _) _ => apply keeps_ret
  | |- keeps _ (_ ≫= _) _ => eapply keeps_bind; [|intros ? ?]
  | |- keeps _ (if ?b then _ else _) _ => destruct b
  | |- keeps _ (let '(_, _) := ?p in _) _ => destruct p
  | |- keeps _ (match ?x with _ => _ end) _ => destruct x
  | |- keeps _ (mapM _ _) _ => apply keeps_mapM
  | |- keeps _ (forEach _ _) _ => apply keeps_forEach; intros ?
  | |- keeps _ (everyM _ _) _ => apply keeps_everyM; intros ? ?
  | |- keeps _ (set _ _ _) _ => apply keeps_set
  | |- keeps _ _ _ => solve [eauto with keeps]
  end.

Lemma keeps_tcExpr n env locals expr : keeps n (tcExpr env locals expr) (λ _, True).
Proof.
  induction expr using Expr_nested_ind; cbn [tcExpr].
  all: repeat keeps_step.
Qed.

#[local] Hint Resolve keeps_tcExpr : keeps.

Ltac keeps_auto :=
  repeat first
    [ keeps_step
    | match goal with
      | |- _ ∧ _ => split
      | |- _ ≤ _ => cbn in *; first [assumption | lia]
      | H : _ ∧ _ |- _ => destruct H
      end ].

Lemma keeps_tcStmt n env locals stmt : keeps n (tcStmt env locals stmt) (λ _, True).
Proof.
  induction stmt using Stmt_nested_ind; cbn [tcStmt].
  all: keeps_auto.
Qed.

#[local] Hint Resolve keeps_tcStmt : keeps.

Lemma keeps_tcBlock n env locals stmts : keeps n (tcBlock env locals stmts) (λ _, True).
Proof. unfold tcBlock. keeps_auto. Qed.

Lemma keeps_tcInit n env init : keeps n (tcInit env init) (λ _, True).
Proof. unfold tcInit. keeps_auto. Qed.

Lemma keeps_emptyLocalTypeEnv n :
  keeps n emptyLocalTypeEnv (λ locals, n ≤ address (vars locals)).
Proof. unfold emptyLocalTypeEnv. keeps_auto. Qed.

#[local] Hint Resolve keeps_tcBlock keeps_tcInit keeps_emptyLocalTypeEnv : keeps.

Lemma keeps_tcDef n env fun_ : keeps n (tcDef env fun_) (λ _, True).
Proof. unfold tcDef. keeps_auto. Qed.

#[local] Hint Resolve keeps_tcDef : keeps.

Lemma keeps_tcClass n env cls : keeps n (tcClass env cls) (λ _, True).
Proof. unfold tcClass. keeps_auto. Qed.

Lemma keeps_augmentTEnv n env program :
  keeps n (augmentTEnv env program)
    (λ newEnv, n ≤ address (globals newEnv) ∧ n ≤ address (functions newEnv)
               ∧ n ≤ address (classes newEnv)).
Proof. unfold augmentTEnv. keeps_auto. Qed.

#[local] Hint Resolve keeps_tcClass keeps_augmentTEnv : keeps.

Lemma keeps_tc n env program :
  keeps n (tc env program)
    (λ '(_, newEnv), n ≤ address (globals newEnv) ∧ n ≤ address (functions newEnv)
                     ∧ n ≤ address (classes newEnv)).
Proof. unfold tc. keeps_auto. Qed.

(** C8: [tc] never writes to the environment it is given.  Whatever the
    outcome, in the heap left by the call the globals, functions and classes
    maps of the environment hold the entries they held before, and so does
    every other map that existed before the call (the field and method maps
    of its classes among them); the environment that is returned is made of
    maps that did not exist before. *)
Theorem tc_never_mutates_environment env program h :
  env_in_heap env h →
  let h' := heap_after (tc env program) h in
  content h' (globals env) = content h (globals env)
  ∧ content h' (functions env) = content h (functions env)
  ∧ content h' (classes env) = content h (classes env)
  ∧ (∀ V (S : Stored V) (r : MapRef V), address r < next h → content h' r = content h r)
  ∧ (∀ tProgram newEnv,
       outcome (tc env program) h = Ok (tProgram, newEnv) →
       next h ≤ address (globals newEnv)
       ∧ next h ≤ address (functions newEnv)
       ∧ next h ≤ address (classes newEnv)).
Proof.
  intros (Hg & Hf & Hc) h'. subst h'. unfold heap_after, outcome.
  destruct (tc env program h) as [result h'] eqn:Hrun. cbn [fst snd].
  destruct (keeps_tc (next h) env program h result h' (le_n _) Hrun) as [Hp Hnew].
  assert (Hall : ∀ V (S : Stored V) (r : MapRef V),
             address r < next h → content h' r = content h r).
  { intros V S r Hr. by apply (content_preserved (next h)). }
  split; [by apply Hall|]. split; [by apply Hall|]. split; [by apply Hall|].
  split; [exact Hall|].
  intros tProgram newEnv ->. exact (Hnew _ eq_refl).
Qed.

Lemma tc_never_mutates_environment_witness :
  env_in_heap defaultTypeEnv parsedHeap
  ∧ content (heap_after (tc defaultTypeEnv (programC [if_c_d])) parsedHeap)
      (functions defaultTypeEnv)
    = content parsedHeap (functions defaultTypeEnv).
Proof.
  assert (Henv : env_in_heap defaultTypeEnv parsedHeap) by (unfold env_in_heap; cbn; lia).
  split; [exact Henv|].
  exact (proj1 (proj2 (tc_never_mutates_environment defaultTypeEnv (programC [if_c_d])
                         parsedHeap Henv))).
Defined.

(** ** What the heap holds after the steps of [tc] *)

Section MapObjects_content.
Context {V : Type} `{Stored V}.
Implicit Types (r : MapRef V).

Lemma new_Map_Ok_inv (c : gmap string V) h r h' :
  new_Map c h = (Ok r, h') →
  address r = next h ∧ next h' = S (next h) ∧ content h' r = c.
Proof.
  intros [= <- <-]. split; [done|]. split.
  - cbn. by rewrite next_with_maps.
  - unfold content. cbn. by rewrite maps_of_bump, maps_of_with_maps, lookup_total_insert_eq.
Qed.

Lemma copy_Map_Ok_inv r h r' h' :
  copy_Map r h = (Ok r', h') →
  address r' = next h ∧ next h' = S (next h) ∧ content h' r' = content h r.
Proof. unfold copy_Map. rewrite bind_run. cbn [entries]. apply new_Map_Ok_inv. Qed.

Lemma set_run r key (value : V) h :
  ∃ h', set r key value h = (Ok tt, h')
        ∧ next h' = next h
        ∧ content h' r = <[key := value]> (content h r).
Proof.
  eexists. split; [reflexivity|]. split.
  - by rewrite next_with_maps.
  - unfold content at 1. by rewrite maps_of_with_maps, lookup_total_insert_eq.
Qed.

Lemma forEach_set_run {A} r (key : A → string) (value : A → V) l h :
  ∃ h', forEach (λ x, set r (key x) (value x)) l h = (Ok tt, h')
        ∧ next h' = next h
        ∧ content h' r = foldl (λ m x, <[key x := value x]> m) (content h r) l.
Proof.
  revert h. induction l as [|x l IH]; intros h; cbn [forEach foldl].
  - eexists. by split.
  - destruct (set_run r (key x) (value x) h) as (h1 & E1 & N1 & C1).
    destruct (IH h1) as (h2 & E2 & N2 & C2).
    exists h2. rewrite bind_run, E1, E2, N2, N1, C2, C1. done.
Qed.
End MapObjects_content.

Lemma emptyLocalTypeEnv_Ok_inv h locals h' :
  emptyLocalTypeEnv h = (Ok locals, h') →
  address (vars locals) = next h ∧ next h' = S (next h)
  ∧ content h' (vars locals) = ∅ ∧ topLevel locals = true.
Proof.
  unfold emptyLocalTypeEnv. intros Hrun.
  apply bind_Ok_inv in Hrun as (v & h1 & E & Hrun).
  apply new_Map_Ok_inv in E as (? & ? & ?).
  rewrite ret_run in Hrun. injection Hrun as <- <-. done.
Qed.

Lemma declare_lookup_None globs inits name :
  globs !! name = None → name ∉ (init_name <$> inits) → declare globs inits !! name = None.
Proof.
  unfold declare. revert globs.
  induction inits as [|init inits IH]; intros globs Hg Hn; cbn [foldl].
  - done.
  - rewrite fmap_cons in Hn. apply not_elem_of_cons in Hn as [Hne Hn].
    apply IH; [|done]. by rewrite lookup_insert_ne.
Qed.

(** What [augmentTEnv] makes of the globals. *)
Lemma augmentTEnv_globals env program h newEnv h' :
  augmentTEnv env program h = (Ok newEnv, h') →
  address (globals newEnv) = next h
  ∧ next h < next h'
  ∧ content h' (globals newEnv) = declare (content h (globals env)) (prog_inits program).
Proof.
  unfold augmentTEnv. intros Hrun.
  apply bind_Ok_inv in Hrun as (newGlobs & ha & Ea & Hrun).
  apply bind_Ok_inv in Hrun as (newFuns & hb & Eb & Hrun).
  apply bind_Ok_inv in Hrun as (newClasses & hc & Ec & Hrun).
  apply bind_Ok_inv in Hrun as ([] & hd & Ed & Hrun).
  pose proof (keeps_copy_Map (next ha) (functions env) _ _ _ (le_n _) Eb) as [Pb Qb].
  specialize (Qb _ eq_refl). cbn beta in Qb.
  assert (Hb : next ha ≤ next hb) by apply Pb.
  pose proof (keeps_copy_Map (next ha) (classes env) _ _ _ Hb Ec) as [Pc Qc].
  specialize (Qc _ eq_refl). cbn beta in Qc.
  assert (Hc : next ha ≤ next hc) by (destruct Pc; lia).
  apply copy_Map_Ok_inv in Ea as (Aa & Na & Ca).
  destruct (forEach_set_run newGlobs init_name init_type (prog_inits program) hc)
    as (hd' & Ed' & Nd & Cd).
  rewrite Ed' in Ed. injection Ed as ->.
  match type of Hrun with
  | ?m hd = _ =>
      assert (Hrest : keeps (next ha) m (λ _, True)) by keeps_auto
  end.
  assert (Hd : next ha ≤ next hd) by lia.
  destruct (Hrest _ _ _ Hd Hrun) as [Pd _].
  assert (newEnv = mkGlobalTypeEnv newGlobs newFuns newClasses) as ->.
  { repeat (apply bind_Ok_inv in Hrun as (? & ? & ? & Hrun)).
    rewrite ret_run in Hrun. by injection Hrun as <- <-. }
  cbn [globals].
  split; [done|]. split; [destruct Pd; lia|].
  rewrite (content_preserved (next ha) hd h') by (done || lia).
  rewrite Cd.
  rewrite (content_preserved (next ha) hb hc) by (done || lia).
  rewrite (content_preserved (next ha) ha hb) by (done || lia).
  by rewrite Ca.
Qed.

Lemma mapM_Ok_elem {A B} n (f : A → M B) l h l' h' x :
  (∀ y, keeps n (f y) (λ _, True)) → n ≤ next h →
  mapM f l h = (Ok l', h') → x ∈ l →
  ∃ hi y hi', preserves n h hi ∧ f x hi = (Ok y, hi').
Proof.
  intros Hf. revert h l' h'.
  induction l as [|z l IH]; intros h l' h' Hn Hrun Hx; [by apply elem_of_nil in Hx|].
  cbn [mapM] in Hrun.
  apply bind_Ok_inv in Hrun as (y & h1 & Ez & Hrun).
  apply bind_Ok_inv in Hrun as (ys & h2 & El & Hrun).
  apply elem_of_cons in Hx as [->|Hx].
  - exists h, y, h1. split; [apply preserves_refl | done].
  - destruct (Hf z _ _ _ Hn Ez) as [Pz _].
    destruct (IH h1 ys h2) as (hi & y' & hi' & Pi & Ei); [destruct Pz; lia | done | done |].
    exists hi, y', hi'. split; [by eapply preserves_trans | done].
Qed.

Lemma keeps_mapM_all {A B} n (f : A → M B) l :
  (∀ x, keeps n (f x) (λ _, True)) → keeps n (mapM f l) (λ _, True).
Proof. intros Hf. apply keeps_mapM, Forall_true, Hf. Qed.

Lemma tcStmt_assign_unfold env locals a name value loc :
  tcStmt env locals (SAssign a name value loc) =
  (tValExpr ← tcExpr env locals value;
   isLocal ← has (vars locals) name;
   nameTyp ←
     (if isLocal : bool then get (vars locals) name
      else
        isGlobal ← has (globals env) name;
        if isGlobal : bool then get (globals env) name
        else throw (NameError name loc));
   valTyp ← annot tValExpr;
   nameTyp ← defined nameTyp;
   if negb (isAssignable env valTyp nameTyp) then
     throw (TypeMismatchError (tag nameTyp) (tag valTyp) loc)
   else mret (SAssign (Some NONE) name tValExpr loc)).
Proof. reflexivity. Qed.

(** A plain assignment to a name that is in neither scope: a name-resolution
    failure, once the value has type-checked. *)
Lemma tcStmt_assign_undeclared env locals a name value loc h tValExpr h1 :
  address (vars locals) < next h →
  address (globals env) < next h →
  content h (vars locals) !! name = None →
  content h (globals env) !! name = None →
  tcExpr env locals value h = (Ok tValExpr, h1) →
  tcStmt env locals (SAssign a name value loc) h = (Throw (NameError name loc), h1).
Proof.
  intros Hl Hg Hnl Hng Hval.
  destruct (keeps_tcExpr (next h) env locals value _ _ _ (le_n _) Hval) as [Hp _].
  rewrite tcStmt_assign_unfold, bind_run, Hval, bind_run, has_run.
  rewrite (content_preserved _ _ _ _ Hp Hl), Hnl.
  rewrite bool_decide_eq_false_2 by (by intros [??]).
  rewrite bind_run, bind_run, has_run.
  rewrite (content_preserved _ _ _ _ Hp Hg), Hng.
  rewrite bool_decide_eq_false_2 by (by intros [??]).
  reflexivity.
Qed.

(** The heap in which [tc] checks the statements of a program, when it gets
    that far and succeeds: the scope is empty, and the globals are those of
    the given environment with the declarations of the program. *)
Lemma tc_Ok_inv env program h tProgram newEnv h' :
  env_in_heap env h →
  tc env program h = (Ok (tProgram, newEnv), h') →
  ∃ locals h5 tBody,
    address (vars locals) < next h5
    ∧ address (globals newEnv) < next h5
    ∧ content h5 (vars locals) = ∅
    ∧ content h5 (globals newEnv) = declare (content h (globals env)) (prog_inits program)
    ∧ tcBlock newEnv locals (prog_stmts program) h5 = (Ok tBody, h')
    ∧ prog_stmts tProgram = tBody.
Proof.
  intros (Hg & _ & _) Hrun. unfold tc in Hrun.
  apply bind_Ok_inv in Hrun as (locals & h1 & E1 & Hrun).
  apply bind_Ok_inv in Hrun as (newEnv' & h2 & E2 & Hrun).
  apply bind_Ok_inv in Hrun as (tInits & h3 & E3 & Hrun).
  apply bind_Ok_inv in Hrun as (tDefs & h4 & E4 & Hrun).
  apply bind_Ok_inv in Hrun as (tClasses & h5 & E5 & Hrun).
  apply bind_Ok_inv in Hrun as (tBody & h6 & E6 & Hrun).
  apply bind_Ok_inv in Hrun as (names & h7 & E7 & Hrun).
  destruct (keeps_emptyLocalTypeEnv (next h) _ _ _ (le_n _) E1) as [P1 _].
  apply emptyLocalTypeEnv_Ok_inv in E1 as (A1 & N1 & C1 & _).
  destruct (keeps_augmentTEnv (next h1) env program _ _ _ (le_n _) E2) as [P2 _].
  apply augmentTEnv_globals in E2 as (A2 & N2 & C2).
  assert (K3 := keeps_mapM_all (next h2) _ (prog_inits program) (keeps_tcInit _ env)).
  destruct (K3 _ _ _ (le_n _) E3) as [P3 _].
  assert (K4 := keeps_mapM_all (next h2) _ (prog_funs program) (keeps_tcDef _ newEnv')).
  assert (L3 : next h2 ≤ next h3) by (destruct P3; lia).
  destruct (K4 _ _ _ L3 E4) as [P4 _].
  assert (K5 := keeps_mapM_all (next h2) _ (prog_classes program) (keeps_tcClass _ newEnv')).
  assert (L4 : next h2 ≤ next h4) by (destruct P4; lia).
  destruct (K5 _ _ _ L4 E5) as [P5 _].
  assert (P25 : preserves (next h2) h2 h5)
    by (eapply preserves_trans; [eapply preserves_trans|]; eassumption).
  assert (Hlocals : address (vars locals) < next h2) by lia.
  assert (Hglobs : address (globals newEnv') < next h2) by lia.
  assert (C5l : content h5 (vars locals) = ∅).
  { rewrite (content_preserved _ _ _ _ P25 Hlocals).
    by rewrite (content_preserved (next h1) h1 h2) by (done || lia). }
  assert (C5g : content h5 (globals newEnv')
                = declare (content h (globals env)) (prog_inits program)).
  { rewrite (content_preserved _ _ _ _ P25 Hglobs), C2.
    by rewrite (content_preserved (next h) h h1). }
  destruct (keeps_tcBlock (next h5) newEnv' locals _ _ _ _ (le_n _) E6) as [P6 _].
  rewrite keys_run in E7. injection E7 as <- <-.
  rewrite (content_preserved (next h5) h5 h6) in Hrun by (done || destruct P25; lia).
  rewrite C5l, map_to_list_empty in Hrun. cbn [fmap list_fmap forEach] in Hrun.
  rewrite bind_run, ret_run, ret_run in Hrun. injection Hrun as <- <- <-.
  exists locals, h5, tBody. cbn [prog_stmts].
  destruct P25. repeat split; try done; lia.
Qed.

(** ** Assignment to a name that was never declared *)

(** C1, as the code has it: a plain assignment to a name that is in neither
    the local scope nor the global environment is a name-resolution failure,
    once its value has type-checked; so a program with such an assignment
    among its top-level statements, to a name that neither the given globals
    nor its own declarations have, does not type-check; and no statement
    adds a binding to the local scope: when a program type-checks, the
    globals of the returned environment are the given globals with the
    declared variables of the program, nothing more. *)
Theorem first_assignment_declares_nothing :
  (∀ env locals a name value loc h tValExpr h1,
      address (vars locals) < next h →
      address (globals env) < next h →
      content h (vars locals) !! name = None →
      content h (globals env) !! name = None →
      tcExpr env locals value h = (Ok tValExpr, h1) →
      tcStmt env locals (SAssign a name value loc) h = (Throw (NameError name loc), h1))
  ∧ (∀ env program h a name value loc,
       env_in_heap env h →
       content h (globals env) !! name = None →
       name ∉ (init_name <$> prog_inits program) →
       SAssign a name value loc ∈ prog_stmts program →
       ∃ e, outcome (tc env program) h = Throw e)
  ∧ (∀ env program h tProgram newEnv h',
       env_in_heap env h →
       tc env program h = (Ok (tProgram, newEnv), h') →
       content h' (globals newEnv)
       = declare (content h (globals env)) (prog_inits program)).
Proof.
  split; [|split].
  - intros. eapply tcStmt_assign_undeclared; eassumption.
  - intros env program h a name value loc Henv Hg Hinits Hin.
    unfold outcome.
    destruct (tc env program h) as [[[tProgram newEnv]|e] h'] eqn:Hrun; [exfalso | eauto].
    destruct (tc_Ok_inv _ _ _ _ _ _ Henv Hrun)
      as (locals & h5 & tBody & Hl & Hn & Cl & Cg & Hblock & _).
    destruct (mapM_Ok_elem (next h5) _ _ _ _ _ _ (keeps_tcStmt _ newEnv locals)
                (le_n _) Hblock Hin) as (hi & tStmt & hi' & Pi & Ei).
    pose proof Ei as Ei'.
    rewrite tcStmt_assign_unfold in Ei'.
    apply bind_Ok_inv in Ei' as (tValExpr & hj & Eval & _).
    assert (Hthrow : tcStmt newEnv locals (SAssign a name value loc) hi
                     = (Throw (NameError name loc), hj)).
    { apply (tcStmt_assign_undeclared _ _ _ _ _ _ _ tValExpr);
        [destruct Pi; lia | destruct Pi; lia | | | done].
      - rewrite (content_preserved _ _ _ _ Pi Hl), Cl. apply lookup_empty.
      - rewrite (content_preserved _ _ _ _ Pi Hn), Cg. by apply declare_lookup_None. }
    rewrite Hthrow in Ei. discriminate.
  - intros env program h tProgram newEnv h' Henv Hrun.
    destruct (tc_Ok_inv _ _ _ _ _ _ Henv Hrun)
      as (locals & h5 & tBody & Hl & Hn & Cl & Cg & Hblock & _).
    destruct (keeps_tcBlock (next h5) _ _ _ _ _ _ (le_n _) Hblock) as [P _].
    by rewrite (content_preserved _ _ _ _ P Hn).
Qed.

Lemma first_assignment_declares_nothing_witness :
  env_in_heap defaultTypeEnv defaultHeap
  ∧ content defaultHeap (globals defaultTypeEnv) !! "x" = None
  ∧ ("x" ∉ (init_name <$> prog_inits program_assign_x))
  ∧ (assign_x_1 ∈ prog_stmts program_assign_x)
  ∧ ∃ e, outcome (tc defaultTypeEnv program_assign_x) defaultHeap = Throw e.
Proof.
  assert (Henv : env_in_heap defaultTypeEnv defaultHeap)
    by (unfold env_in_heap; vm_compute; lia).
  assert (Hg : content defaultHeap (globals defaultTypeEnv) !! "x" = None)
    by (vm_compute; reflexivity).
  assert (Hinits : "x" ∉ (init_name <$> prog_inits program_assign_x))
    by (cbn; apply not_elem_of_nil).
  assert (Hin : assign_x_1 ∈ prog_stmts program_assign_x) by (cbn; apply list_elem_of_here).
  split; [exact Henv|]. split; [exact Hg|]. split; [exact Hinits|]. split; [exact Hin|].
  exact (proj1 (proj2 first_assignment_declares_nothing) defaultTypeEnv program_assign_x
           defaultHeap None "x" litOne 2 Henv Hg Hinits Hin).
Defined.

(** C1 fails on the code: [x = 1], with [x] in neither scope, is rejected with
    a name-resolution failure; no environment is returned. *)
Lemma first_assignment_is_a_name_error :
  content defaultHeap (globals defaultTypeEnv) !! "x" = None
  ∧ outcome (tcStmt defaultTypeEnv topScope assign_x_1) scopeHeap = Throw (NameError "x" 2)
  ∧ outcome (tc defaultTypeEnv program_assign_x) defaultHeap = Throw (NameError "x" 2).
Proof. vm_compute. repeat split; reflexivity. Qed.


(** * More properties of the checker *)

(** ** The relations on types *)

Lemma equalType_NUM t : equalType t NUM = bool_decide (t = NUM).
Proof.
  unfold equalType, same_object. destruct (shape t); cbn; by rewrite orb_false_r.
Qed.

(** X1: [equalType] is an equivalence on type objects: reflexive, symmetric
    and transitive. *)
Theorem equalType_equivalence :
  (∀ t, equalType t t = true)
  ∧ (∀ t1 t2, equalType t1 t2 = equalType t2 t1)
  ∧ (∀ t1 t2 t3, equalType t1 t2 = true → equalType t2 t3 = true →
       equalType t1 t3 = true).
Proof.
  split; [|split].
  - intros t. apply equalType_true. by left.
  - intros t1 t2. apply eq_true_iff_eq. rewrite !equalType_true.
    split; (intros [->|(n & ? & ?)]; [by left | right; eauto]).
  - intros t1 t2 t3. rewrite !equalType_true.
    intros [->|(n & E1 & E2)] [<-|(n' & E3 & E4)]; eauto.
    right. exists n. split; [done|]. congruence.
Qed.

Lemma equalType_equivalence_witness :
  equalType C_of_c C_of_d = true ∧ equalType C_of_d C_of_x = true
  ∧ equalType C_of_c C_of_x = true.
Proof.
  assert (H1 : equalType C_of_c C_of_d = true) by reflexivity.
  assert (H2 : equalType C_of_d C_of_x = true) by reflexivity.
  split; [exact H1|]. split; [exact H2|].
  exact (proj2 (proj2 equalType_equivalence) C_of_c C_of_d C_of_x H1 H2).
Defined.

(** X2: assignability is a preorder that contains [equalType], and two types
    assignable to each other are equal types; the environment plays no part
    in it. *)
Theorem isAssignable_preorder env :
  (∀ t1 t2, equalType t1 t2 = true → isAssignable env t1 t2 = true)
  ∧ (∀ t1 t2 t3, isAssignable env t1 t2 = true → isAssignable env t2 t3 = true →
       isAssignable env t1 t3 = true)
  ∧ (∀ t1 t2, isAssignable env t1 t2 = true → isAssignable env t2 t1 = true →
       equalType t1 t2 = true)
  ∧ (∀ env' t1 t2, isAssignable env' t1 t2 = isAssignable env t1 t2).
Proof.
  split; [|split; [|split]].
  - intros t1 t2. rewrite equalType_true, isAssignable_true. tauto.
  - intros t1 t2 t3. rewrite !isAssignable_true.
    intros [->|[(n & E1 & E2)|(E1 & n & E2)]] [<-|[(n' & E3 & E4)|(E3 & n' & E4)]];
      eauto 10; try congruence.
    right. left. exists n. split; [done|]. congruence.
  - intros t1 t2. rewrite !isAssignable_true, equalType_true.
    intros [->|[?|(E1 & n & E2)]] [E|[(n' & E3 & E4)|(E3 & n' & E4)]];
      eauto; congruence.
  - reflexivity.
Qed.

Lemma isAssignable_preorder_witness :
  isAssignable defaultTypeEnv NONE C_of_c = true
  ∧ isAssignable defaultTypeEnv C_of_c C_of_d = true
  ∧ isAssignable defaultTypeEnv NONE C_of_d = true.
Proof.
  assert (H1 : isAssignable defaultTypeEnv NONE C_of_c = true) by reflexivity.
  assert (H2 : isAssignable defaultTypeEnv C_of_c C_of_d = true) by reflexivity.
  split; [exact H1|]. split; [exact H2|].
  exact (proj1 (proj2 (isAssignable_preorder defaultTypeEnv)) NONE C_of_c C_of_d H1 H2).
Defined.

(** ** The typers only read *)

Lemma reads_only_ret {A} (x : A) : reads_only (mret x).
Proof. intros h r h' [= <- <-]. auto. Qed.

Lemma reads_only_throw {A} e : reads_only (@throw A e).
Proof. intros h r h' [= <- <-]. auto. Qed.

Lemma reads_only_bind {A B} (m : M A) (k : A → M B) :
  reads_only m → (∀ x, reads_only (k x)) → reads_only (m ≫= k).
Proof.
  intros Hm Hk h r h'. rewrite bind_run.
  destruct (m h) as [[x|e] h1] eqn:E; intros Hrun.
  - destruct (Hm _ _ _ E) as (N1 & T1 & S1 & C1).
    destruct (Hk x _ _ _ Hrun) as (N2 & T2 & S2 & C2).
    split; [lia|]. split; [congruence|]. split; congruence.
  - injection Hrun as <- <-. exact (Hm _ _ _ E).
Qed.

Lemma reads_only_defined {A} (o : option A) : reads_only (defined o).
Proof. destruct o; [apply reads_only_ret | apply reads_only_throw]. Qed.

Lemma reads_only_annot e : reads_only (annot e).
Proof. apply reads_only_defined. Qed.

Lemma reads_only_CLASS name : reads_only (CLASS name).
Proof. intros h r h' [= <- <-]. cbn. split; [lia | auto]. Qed.

Lemma reads_only_entries `{Stored V} (r : MapRef V) : reads_only (entries r).
Proof. intros h res h' [= <- <-]. auto. Qed.

Lemma reads_only_has `{Stored V} (r : MapRef V) key : reads_only (has r key).
Proof.
  apply reads_only_bind; [apply reads_only_entries | intros; apply reads_only_ret].
Qed.

Lemma reads_only_get `{Stored V} (r : MapRef V) key : reads_only (get r key).
Proof.
  apply reads_only_bind; [apply reads_only_entries | intros; apply reads_only_ret].
Qed.

Lemma reads_only_mapM {A B} (f : A → M B) l :
  Forall (λ x, reads_only (f x)) l → reads_only (mapM f l).
Proof.
  induction 1 as [|x l Hx _ IH]; cbn [mapM].
  - apply reads_only_ret.
  - apply reads_only_bind; [done | intros y].
    apply reads_only_bind; [done | intros ys]. apply reads_only_ret.
Qed.

Lemma reads_only_everyM {A} (p : A → nat → M bool) l :
  (∀ x i, reads_only (p x i)) → reads_only (everyM p l).
Proof.
  intros Hp. unfold everyM. generalize 0.
  induction l as [|x l IH]; intros i.
  - apply reads_only_ret.
  - apply reads_only_bind; [done|]. intros []; [apply IH | apply reads_only_ret].
Qed.

Create HintDb reads discriminated.
#[local] Hint Resolve reads_only_ret reads_only_throw reads_only_defined reads_only_annot
  reads_only_CLASS reads_only_has reads_only_get reads_only_entries : reads.

Ltac reads_step :=
  match goal with
  | |- Forall _ _ => first [eassumption | apply Forall_true; intros ?]
  | |- reads_only (_ ≫= _) => apply reads_only_bind; [|intros ?]
  | |- reads_only (if ?b then _ else _) => destruct b
  | |- reads_only (let '(_, _) := ?p in _) => destruct p
  | |- reads_only (match ?x with _ => _ end) => destruct x
  | |- reads_only (mapM _ _) => apply reads_only_mapM
  | |- reads_only (everyM _ _) => apply reads_only_everyM; intros ? ?
  | |- reads_only _ => solve [eauto with reads]
  end.

Lemma reads_only_tcExpr env locals expr : reads_only (tcExpr env locals expr).
Proof.
  induction expr using Expr_nested_ind; cbn [tcExpr].
  all: repeat reads_step.
Qed.

#[local] Hint Resolve reads_only_tcExpr : reads.

Lemma reads_only_tcStmt env locals stmt : reads_only (tcStmt env locals stmt).
Proof.
  induction stmt using Stmt_nested_ind; cbn [tcStmt].
  all: repeat reads_step.
Qed.

#[local] Hint Resolve reads_only_tcStmt : reads.

Lemma reads_only_tcBlock env locals stmts : reads_only (tcBlock env locals stmts).
Proof. unfold tcBlock. repeat reads_step. Qed.

Lemma reads_only_content `{Stored V} {A} (m : M A) h res h' (r : MapRef V) :
  reads_only m → m h = (res, h') → content h' r = content h r.
Proof.
  intros Hm Hrun. destruct (Hm _ _ _ Hrun) as (Hn & E1 & E2 & E3).
  apply (content_preserved (S (address r))); [|lia].
  split; [done|]. intros x _. by rewrite E1, E2, E3.
Qed.

(** X3: the expression typer writes to no map.  Whatever the expression and
    whatever the outcome, the heap it leaves has the maps of the heap it
    started from, with the same entries; it can only have made new type
    objects. *)
Theorem tcExpr_writes_nothing env locals expr h :
  let h' := heap_after (tcExpr env locals expr) h in
  next h ≤ next h'
  ∧ typeMaps h' = typeMaps h ∧ sigMaps h' = sigMaps h ∧ classMaps h' = classMaps h.
Proof.
  unfold heap_after. destruct (tcExpr env locals expr h) as [r h'] eqn:Hrun.
  exact (reads_only_tcExpr _ _ _ _ _ _ Hrun).
Qed.

(** X4: neither does the statement typer, on one statement or on a block: in
    particular no statement adds a binding to the scope or to the globals. *)
Theorem tcStmt_tcBlock_write_nothing env locals :
  (∀ stmt h,
     let h' := heap_after (tcStmt env locals stmt) h in
     next h ≤ next h'
     ∧ typeMaps h' = typeMaps h ∧ sigMaps h' = sigMaps h ∧ classMaps h' = classMaps h)
  ∧ (∀ stmts h,
       let h' := heap_after (tcBlock env locals stmts) h in
       next h ≤ next h'
       ∧ typeMaps h' = typeMaps h ∧ sigMaps h' = sigMaps h ∧ classMaps h' = classMaps h).
Proof.
  split.
  - intros stmt h. unfold heap_after.
    destruct (tcStmt env locals stmt h) as [r h'] eqn:Hrun.
    exact (reads_only_tcStmt _ _ _ _ _ _ Hrun).
  - intros stmts h. unfold heap_after.
    destruct (tcBlock env locals stmts h) as [r h'] eqn:Hrun.
    exact (reads_only_tcBlock _ _ _ _ _ _ Hrun).
Qed.

(** ** The nodes that are returned *)

Lemma mapM_Ok_Forall {A B} (f : A → M B) (Q : B → Prop) l h l' h' :
  Forall (λ x, ∀ h y h', f x h = (Ok y, h') → Q y) l →
  mapM f l h = (Ok l', h') → Forall Q l'.
Proof.
  intros Hall. revert h l' h'.
  induction Hall as [|x l Hx _ IH]; intros h l' h' Hrun; cbn [mapM] in Hrun.
  - run_inv. constructor.
  - apply bind_Ok_inv in Hrun as (y & h1 & Ex & Hrun).
    apply bind_Ok_inv in Hrun as (ys & h2 & El & Hrun).
    rewrite ret_run in Hrun. injection Hrun as <- <-.
    constructor; eauto.
Qed.

(** X5: a node returned by the expression typer carries a type, keeps the
    location of the node it was made from, and keeps its kind, except that a
    call whose callee is a class comes back as the construct node of that
    class. *)
Theorem tcExpr_returned_node env locals expr h tExpr h' :
  tcExpr env locals expr h = (Ok tExpr, h') →
  is_Some (Expr_a tExpr)
  ∧ Expr_loc tExpr = Expr_loc expr
  ∧ (Expr_tag tExpr = Expr_tag expr
     ∨ ∃ a name arguments loc,
         expr = ECall a name arguments loc
         ∧ is_Some (content h (classes env) !! name)
         ∧ tExpr = EConstruct (Some (mkTy (next h) (TClass name))) name loc).
Proof.
  intros Hrun.
  split; [by eapply tcExpr_annotated|]. split; [by eapply tcExpr_loc|].
  destruct expr; cbn [tcExpr] in Hrun; run_inv; cbn [Expr_tag]; auto.
  all: right; do 4 eexists; split; [reflexivity|].
  all: repeat match goal with
         | H : bool_decide _ = true |- _ => apply bool_decide_eq_true_1 in H
         | H : CLASS _ _ = (Ok _, _) |- _ => rewrite CLASS_run in H; injection H as <- <-
         end.
  all: split; [assumption | reflexivity].
Qed.

Lemma tcExpr_returned_node_witness :
  tcExpr checkEnv checkScope newC checkHeap
  = (Ok (EConstruct (Some (mkTy 17 (TClass "C"))) "C" 1), bump checkHeap)
  ∧ is_Some (Expr_a (EConstruct (Some (mkTy 17 (TClass "C"))) "C" 1))
  ∧ Expr_loc (EConstruct (Some (mkTy 17 (TClass "C"))) "C" 1) = Expr_loc newC.
Proof.
  assert (Hrun : tcExpr checkEnv checkScope newC checkHeap
                 = (Ok (EConstruct (Some (mkTy 17 (TClass "C"))) "C" 1), bump checkHeap))
    by (vm_compute; reflexivity).
  split; [exact Hrun|].
  destruct (tcExpr_returned_node _ _ _ _ _ _ Hrun) as (Ha & Hl & _).
  split; [exact Ha | exact Hl].
Defined.

Lemma tcStmt_annotated env locals stmt :
  ∀ h tStmt h', tcStmt env locals stmt h = (Ok tStmt, h') → is_Some (Stmt_a tStmt).
Proof.
  induction stmt using Stmt_nested_ind; intros h0 tStmt h' Hrun.
  4: { rewrite tcStmt_if_unfold in Hrun.
       apply bind_Ok_inv in Hrun as (tCond & h1 & _ & Hrun).
       apply bind_Ok_inv in Hrun as (tThn & h2 & Ethn & Hrun).
       apply bind_Ok_inv in Hrun as (thnLast & h3 & Elast & Hrun).
       apply defined_Ok_inv in Elast as [Elast ->].
       apply (mapM_Ok_Forall _ (λ s, is_Some (Stmt_a s)) _ _ _ _ H) in Ethn.
       apply last_Some_elem_of in Elast.
       rewrite Forall_forall in Ethn. specialize (Ethn _ Elast).
       run_inv. exact Ethn. }
  all: cbn [tcStmt] in Hrun; run_inv; cbn [Stmt_a]; eauto.
  all: eapply tcExpr_annotated; eassumption.
Qed.

(** X6: a statement node returned by the statement typer carries a type, and
    a block comes back with as many statements as it had, each with a
    type. *)
Theorem tcStmt_tcBlock_returned_nodes env locals :
  (∀ stmt h tStmt h',
     tcStmt env locals stmt h = (Ok tStmt, h') → is_Some (Stmt_a tStmt))
  ∧ (∀ stmts h tStmts h',
       tcBlock env locals stmts h = (Ok tStmts, h') →
       length tStmts = length stmts ∧ Forall (λ s, is_Some (Stmt_a s)) tStmts).
Proof.
  split; [apply tcStmt_annotated|].
  intros stmts h tStmts h' Hrun. split; [by eapply mapM_Ok_length|].
  eapply mapM_Ok_Forall; [|exact Hrun].
  apply Forall_true. intros stmt. apply tcStmt_annotated.
Qed.

Lemma tcStmt_tcBlock_returned_nodes_witness :
  tcBlock defaultTypeEnv topScope [SPass None 1; SExpr None litOne 2] scopeHeap
  = (Ok [SPass (Some NONE) 1; SExpr (Some NUM) (ELiteral (Some NUM) (LNum 1) 1) 2],
     scopeHeap)
  ∧ length [SPass (Some NONE) 1; SExpr (Some NUM) (ELiteral (Some NUM) (LNum 1) 1) 2]
    = length [SPass None 1; SExpr None litOne 2].
Proof.
  assert (Hrun : tcBlock defaultTypeEnv topScope [SPass None 1; SExpr None litOne 2]
                   scopeHeap
                 = (Ok [SPass (Some NONE) 1;
                        SExpr (Some NUM) (ELiteral (Some NUM) (LNum 1) 1) 2], scopeHeap))
    by reflexivity.
  split; [exact Hrun|].
  exact (proj1 (proj2 (tcStmt_tcBlock_returned_nodes defaultTypeEnv topScope)
                  _ _ _ _ Hrun)).
Defined.

(** ** Operators *)

(** X7: the operands of a binary operator are checked from left to right
    before the operator's own rule: a failure in the left operand is the one
    that is reported, then a failure in the right operand. *)
Theorem tcExpr_binop_operand_order env locals a op left_ right_ loc h :
  (∀ e h1,
     tcExpr env locals left_ h = (Throw e, h1) →
     tcExpr env locals (EBinop a op left_ right_ loc) h = (Throw e, h1))
  ∧ (∀ tLeft h1 e h2,
       tcExpr env locals left_ h = (Ok tLeft, h1) →
       tcExpr env locals right_ h1 = (Throw e, h2) →
       tcExpr env locals (EBinop a op left_ right_ loc) h = (Throw e, h2)).
Proof.
  split.
  - intros e h1 Hl. cbn [tcExpr]. by rewrite bind_run, Hl.
  - intros tLeft h1 e h2 Hl Hr. cbn [tcExpr]. by rewrite bind_run, Hl, bind_run, Hr.
Qed.

Lemma tcExpr_binop_operand_order_witness :
  tcExpr defaultTypeEnv topScope idUnbound scopeHeap = (Throw (NameError "zz" 1), scopeHeap)
  ∧ tcExpr defaultTypeEnv topScope (EBinop None BinOp.Plus idUnbound litTrue 3) scopeHeap
    = (Throw (NameError "zz" 1), scopeHeap).
Proof.
  assert (Hl : tcExpr defaultTypeEnv topScope idUnbound scopeHeap
               = (Throw (NameError "zz" 1), scopeHeap)) by (vm_compute; reflexivity).
  split; [exact Hl|].
  exact (proj1 (tcExpr_binop_operand_order defaultTypeEnv topScope None BinOp.Plus
                  idUnbound litTrue 3 scopeHeap) _ _ Hl).
Defined.

Lemma operandsAccepted_dec op lt rt :
  (operandsAccepted op lt rt ↔
   match op with
   | BinOp.Plus | BinOp.Minus | BinOp.Mul | BinOp.IDiv | BinOp.Mod
   | BinOp.Lte | BinOp.Gte | BinOp.Lt | BinOp.Gt =>
       equalType lt NUM && equalType rt NUM = true
   | BinOp.Eq | BinOp.Neq => equalType lt rt = true
   | BinOp.And | BinOp.Or => equalType lt BOOL && equalType rt BOOL = true
   | BinOp.Is => negb (isNoneOrClass lt) || negb (isNoneOrClass rt) = false
   end).
Proof.
  destruct op; cbn [operandsAccepted];
    rewrite ?andb_true_iff, ?orb_false_iff, ?negb_false_iff, ?equalType_NUM,
      ?equalType_BOOL, ?bool_decide_eq_true, ?equalType_true; reflexivity.
Qed.

(** X8: the typing table of the binary operators.  Once both operands have
    type-checked, an operator node without an annotation of its own gets the
    operator's result type when the operand types are the ones the operator
    accepts (number and number for the arithmetic and the relational
    operators, equal types for [==] and [!=], bool and bool for [and] and
    [or], any two none or class types for [is]), and is an
    unsupported-operand failure naming the operator and the two type tags
    otherwise. *)
Theorem tcExpr_binop_rules env locals op left_ right_ loc h tLeft h1 tRight h2 lt rt :
  tcExpr env locals left_ h = (Ok tLeft, h1) →
  tcExpr env locals right_ h1 = (Ok tRight, h2) →
  Expr_a tLeft = Some lt →
  Expr_a tRight = Some rt →
  (operandsAccepted op lt rt →
   tcExpr env locals (EBinop None op left_ right_ loc) h
   = (Ok (EBinop (Some (binopType op)) op tLeft tRight loc), h2))
  ∧ (¬ operandsAccepted op lt rt →
     tcExpr env locals (EBinop None op left_ right_ loc) h
     = (Throw (UnsupportedOprandTypeError (BinOp.name op) [tag lt; tag rt] loc), h2)).
Proof.
  intros Hl Hr Hlt Hrt.
  rewrite operandsAccepted_dec.
  cbn [tcExpr]. rewrite bind_run, Hl, bind_run, Hr. unfold annot.
  rewrite Hlt, Hrt. cbn [defined]. rewrite bind_run, ret_run, bind_run, ret_run.
  split; intros Hacc; destruct op; cbn [binopType under] in *.
  all: try (rewrite Hacc; reflexivity).
  all: try (apply not_true_is_false in Hacc; rewrite Hacc; reflexivity).
  all: apply not_false_is_true in Hacc; rewrite Hacc; reflexivity.
Qed.

Lemma tcExpr_binop_rules_witness :
  tcExpr checkEnv checkScope newC checkHeap
  = (Ok (EConstruct (Some (mkTy 17 (TClass "C"))) "C" 1), bump checkHeap)
  ∧ tcExpr checkEnv checkScope litOne (bump checkHeap)
    = (Ok (ELiteral (Some NUM) (LNum 1) 1), bump checkHeap)
  ∧ ¬ operandsAccepted BinOp.Is (mkTy 17 (TClass "C")) NUM
  ∧ tcExpr checkEnv checkScope newC_is_one checkHeap
    = (Throw (UnsupportedOprandTypeError "Is" ["class"; "number"] 3), bump checkHeap).
Proof.
  assert (Hl : tcExpr checkEnv checkScope newC checkHeap
               = (Ok (EConstruct (Some (mkTy 17 (TClass "C"))) "C" 1), bump checkHeap))
    by (vm_compute; reflexivity).
  assert (Hr : tcExpr checkEnv checkScope litOne (bump checkHeap)
               = (Ok (ELiteral (Some NUM) (LNum 1) 1), bump checkHeap)) by reflexivity.
  assert (Hno : ¬ operandsAccepted BinOp.Is (mkTy 17 (TClass "C")) NUM)
    by (intros [_ H]; discriminate H).
  split; [exact Hl|]. split; [exact Hr|]. split; [exact Hno|].
  exact (proj2 (tcExpr_binop_rules checkEnv checkScope BinOp.Is newC litOne 3 checkHeap
                  _ _ _ _ _ _ Hl Hr eq_refl eq_refl) Hno).
Defined.

(** X9: the typing table of the unary operators.  Once the operand has
    type-checked, negation wants the number type and [not] the bool type; the
    node gets the type of its operand, and any other operand type is an
    unsupported-operand failure naming the operator and the type tag. *)
Theorem tcExpr_uniop_rules env locals a op expr loc h tExpr h1 t :
  tcExpr env locals expr h = (Ok tExpr, h1) →
  Expr_a tExpr = Some t →
  tcExpr env locals (EUniop a op expr loc) h
  = (if bool_decide (t = uniopType op)
     then Ok (EUniop (Some (uniopType op)) op tExpr loc)
     else Throw (UnsupportedOprandTypeError (UniOp.name op) [tag t] loc), h1).
Proof.
  intros He Ht. cbn [tcExpr]. rewrite bind_run, He. unfold annot. rewrite Ht.
  cbn [defined]. rewrite bind_run, ret_run.
  destruct op; cbn [uniopType]; rewrite ?equalType_NUM, ?equalType_BOOL;
    case_bool_decide; subst; reflexivity.
Qed.

Lemma tcExpr_uniop_rules_witness :
  tcExpr defaultTypeEnv topScope litTrue scopeHeap
  = (Ok (ELiteral (Some BOOL) (LBool true) 1), scopeHeap)
  ∧ tcExpr defaultTypeEnv topScope (EUniop None UniOp.Neg litTrue 2) scopeHeap
    = (Throw (UnsupportedOprandTypeError "Neg" ["bool"] 2), scopeHeap).
Proof.
  assert (He : tcExpr defaultTypeEnv topScope litTrue scopeHeap
               = (Ok (ELiteral (Some BOOL) (LBool true) 1), scopeHeap)) by reflexivity.
  split; [exact He|].
  exact (tcExpr_uniop_rules defaultTypeEnv topScope None UniOp.Neg litTrue 2 scopeHeap
           _ _ BOOL He eq_refl).
Defined.

(** ** Names *)

Lemma tcExpr_id_run env locals name loc h :
  tcExpr env locals (EId None name loc) h =
  (match resolve h env locals name with
   | Some t => Ok (EId (Some t) name loc)
   | None => Throw (NameError name loc)
   end, h).
Proof.
  cbn [tcExpr]. unfold resolve. rewrite bind_run, has_run.
  destruct (content h (vars locals) !! name) as [t|] eqn:El.
  - rewrite bool_decide_eq_true_2 by eauto. by rewrite bind_run, get_run, El.
  - rewrite bool_decide_eq_false_2 by (by intros [??]).
    rewrite bind_run, has_run.
    destruct (content h (globals env) !! name) as [t|] eqn:Eg.
    + rewrite bool_decide_eq_true_2 by eauto. by rewrite bind_run, get_run, Eg.
    + by rewrite bool_decide_eq_false_2 by (by intros [??]).
Qed.

Lemma tcStmt_assign_run env locals a name value loc h tValExpr h1 valTyp :
  tcExpr env locals value h = (Ok tValExpr, h1) →
  Expr_a tValExpr = Some valTyp →
  tcStmt env locals (SAssign a name value loc) h =
  (match resolve h env locals name with
   | Some nameTyp =>
       if isAssignable env valTyp nameTyp
       then Ok (SAssign (Some NONE) name tValExpr loc)
       else Throw (TypeMismatchError (tag nameTyp) (tag valTyp) loc)
   | None => Throw (NameError name loc)
   end, h1).
Proof.
  intros Hval Ha. unfold resolve.
  rewrite <- !(reads_only_content _ _ _ _ _ (reads_only_tcExpr _ _ _) Hval).
  rewrite tcStmt_assign_unfold, bind_run, Hval, bind_run, has_run.
  destruct (content h1 (vars locals) !! name) as [t|] eqn:El.
  - rewrite bool_decide_eq_true_2 by eauto.
    rewrite bind_run, get_run, El. unfold annot. rewrite Ha. cbn [defined].
    rewrite bind_run, ret_run, bind_run, ret_run.
    by destruct (isAssignable env valTyp t).
  - rewrite bool_decide_eq_false_2 by (by intros [??]).
    rewrite bind_run, bind_run, has_run.
    destruct (content h1 (globals env) !! name) as [t|] eqn:Eg.
    + rewrite bool_decide_eq_true_2 by eauto.
      rewrite get_run, Eg. unfold annot. rewrite Ha. cbn [defined].
      rewrite bind_run, ret_run, bind_run, ret_run.
      by destruct (isAssignable env valTyp t).
    + by rewrite bool_decide_eq_false_2 by (by intros [??]).
Qed.

(** X10: the target of an assignment resolves as the identifier does, in the
    local scope first and then in the globals.  When the value type-checks,
    [name = value] is accepted exactly when the expression [name] has a type
    and the type of the value is assignable to it, a type mismatch naming the
    two tags when it is not assignable, and a name-resolution failure when
    the expression [name] is one.  For both, a binding of the name in the
    local scope is the one that counts, whatever the globals bind the name
    to; the binding of the globals counts when the local scope has none; and
    a name that neither binds is a name-resolution failure. *)
Theorem tcStmt_assign_follows_id env locals a name value loc h tValExpr h1 valTyp loc' :
  tcExpr env locals value h = (Ok tValExpr, h1) →
  Expr_a tValExpr = Some valTyp →
  (∀ tId h2 nameTyp,
     tcExpr env locals (EId None name loc') h = (Ok tId, h2) →
     Expr_a tId = Some nameTyp →
     tcStmt env locals (SAssign a name value loc) h
     = (if isAssignable env valTyp nameTyp
        then Ok (SAssign (Some NONE) name tValExpr loc)
        else Throw (TypeMismatchError (tag nameTyp) (tag valTyp) loc), h1))
  ∧ (∀ e h2,
       tcExpr env locals (EId None name loc') h = (Throw e, h2) →
       tcStmt env locals (SAssign a name value loc) h = (Throw (NameError name loc), h1))
  ∧ (∀ localTyp,
       content h (vars locals) !! name = Some localTyp →
       tcExpr env locals (EId None name loc') h = (Ok (EId (Some localTyp) name loc'), h)
       ∧ tcStmt env locals (SAssign a name value loc) h
         = (if isAssignable env valTyp localTyp
            then Ok (SAssign (Some NONE) name tValExpr loc)
            else Throw (TypeMismatchError (tag localTyp) (tag valTyp) loc), h1))
  ∧ (∀ globalTyp,
       content h (vars locals) !! name = None →
       content h (globals env) !! name = Some globalTyp →
       tcExpr env locals (EId None name loc') h = (Ok (EId (Some globalTyp) name loc'), h)
       ∧ tcStmt env locals (SAssign a name value loc) h
         = (if isAssignable env valTyp globalTyp
            then Ok (SAssign (Some NONE) name tValExpr loc)
            else Throw (TypeMismatchError (tag globalTyp) (tag valTyp) loc), h1))
  ∧ (content h (vars locals) !! name = None →
     content h (globals env) !! name = None →
     tcExpr env locals (EId None name loc') h = (Throw (NameError name loc'), h)
     ∧ tcStmt env locals (SAssign a name value loc) h = (Throw (NameError name loc), h1)).
Proof.
  intros Hval Ha.
  rewrite (tcStmt_assign_run _ _ _ _ _ _ _ _ _ _ Hval Ha), tcExpr_id_run.
  split; [|split; [|split; [|split]]].
  - intros tId h2 nameTyp Hid Hty.
    destruct (resolve h env locals name); [|discriminate].
    injection Hid as <- <-. cbn in Hty. by injection Hty as ->.
  - intros e h2 Hid. by destruct (resolve h env locals name).
  - intros localTyp El. unfold resolve. by rewrite El.
  - intros globalTyp El Eg. unfold resolve. by rewrite El, Eg.
  - intros El Eg. unfold resolve. by rewrite El, Eg.
Qed.

Lemma tcStmt_assign_follows_id_witness :
  content shadowHeap (globals defaultTypeEnv) !! "x" = Some NUM
  ∧ content shadowHeap (vars shadowScope) !! "x" = Some BOOL
  ∧ tcExpr defaultTypeEnv shadowScope (EId None "x" 0) shadowHeap
    = (Ok (EId (Some BOOL) "x" 0), shadowHeap)
  ∧ tcStmt defaultTypeEnv shadowScope assign_x_True shadowHeap
    = (Ok (SAssign (Some NONE) "x" (ELiteral (Some BOOL) (LBool true) 1) 2), shadowHeap).
Proof.
  assert (Hval : tcExpr defaultTypeEnv shadowScope litTrue shadowHeap
                 = (Ok (ELiteral (Some BOOL) (LBool true) 1), shadowHeap)) by reflexivity.
  assert (Hg : content shadowHeap (globals defaultTypeEnv) !! "x" = Some NUM)
    by (vm_compute; reflexivity).
  assert (Hl : content shadowHeap (vars shadowScope) !! "x" = Some BOOL)
    by (vm_compute; reflexivity).
  split; [exact Hg|]. split; [exact Hl|].
  exact (proj1 (proj2 (proj2 (tcStmt_assign_follows_id defaultTypeEnv shadowScope None "x"
                                litTrue 2 shadowHeap _ _ BOOL 0 Hval eq_refl))) BOOL Hl).
Defined.

(** ** Builtins *)

(** X11: [print] takes an argument of any type and has the type of its
    argument; the function table is not looked at, so this holds whatever the
    table records for [print], and when it records nothing. *)
Theorem tcExpr_print_any_argument env locals a arg loc h tArg h1 :
  tcExpr env locals arg h = (Ok tArg, h1) →
  tcExpr env locals (EBuiltin1 a "print" arg loc) h
  = (Ok (EBuiltin1 (Expr_a tArg) "print" tArg loc), h1)
  ∧ is_Some (Expr_a tArg).
Proof.
  intros Harg. split; [|by eapply tcExpr_annotated].
  cbn [tcExpr]. rewrite bool_decide_eq_true_2 by done. by rewrite bind_run, Harg.
Qed.

Lemma tcExpr_print_any_argument_witness :
  content bootHeap (functions (mkGlobalTypeEnv (mkRef 3) (mkRef 4) (mkRef 5))) !! "print"
  = None
  ∧ tcExpr (mkGlobalTypeEnv (mkRef 3) (mkRef 4) (mkRef 5)) topScope litTrue bootHeap
    = (Ok (ELiteral (Some BOOL) (LBool true) 1), bootHeap)
  ∧ tcExpr (mkGlobalTypeEnv (mkRef 3) (mkRef 4) (mkRef 5)) topScope
      (EBuiltin1 None "print" litTrue 2) bootHeap
    = (Ok (EBuiltin1 (Some BOOL) "print" (ELiteral (Some BOOL) (LBool true) 1) 2),
       bootHeap).
Proof.
  assert (Harg : tcExpr (mkGlobalTypeEnv (mkRef 3) (mkRef 4) (mkRef 5)) topScope litTrue
                   bootHeap
                 = (Ok (ELiteral (Some BOOL) (LBool true) 1), bootHeap)) by reflexivity.
  split; [vm_compute; reflexivity|]. split; [exact Harg|].
  exact (proj1 (tcExpr_print_any_argument _ topScope None litTrue 2 bootHeap _ _ Harg)).
Defined.

(** X12: a two-argument builtin tests each declared parameter type for
    assignability to the type of the argument, the declared type first: once
    both arguments have type-checked, the call gets the recorded return type
    when both tests pass, and is a type mismatch listing the declared and the
    actual types when one does not. *)
Theorem tcExpr_builtin2_rules
    env locals a name left_ right_ loc h params retTyp leftTyp rightTyp
    tLeftArg h1 tRightArg h2 lt rt :
  content h (functions env) !! name = Some (params, retTyp) →
  params !! 0 = Some leftTyp →
  params !! 1 = Some rightTyp →
  tcExpr env locals left_ h = (Ok tLeftArg, h1) →
  tcExpr env locals right_ h1 = (Ok tRightArg, h2) →
  Expr_a tLeftArg = Some lt →
  Expr_a tRightArg = Some rt →
  tcExpr env locals (EBuiltin2 a name left_ right_ loc) h
  = (if isAssignable env leftTyp lt && isAssignable env rightTyp rt
     then Ok (EBuiltin2 (Some retTyp) name tLeftArg tRightArg loc)
     else Throw (TypeMismatchError (toObject [leftTyp; rightTyp]) (toObject [lt; rt]) loc),
     h2).
Proof.
  intros Hsig Hp0 Hp1 Hl Hr Hlt Hrt. cbn [tcExpr].
  rewrite bind_run, has_run, Hsig, bool_decide_eq_true_2 by eauto.
  rewrite bind_run, get_run, Hsig. cbn [defined].
  rewrite bind_run, ret_run, bind_run, Hl, bind_run, Hr.
  unfold annot. rewrite Hlt, Hrt, Hp0, Hp1. cbn [defined].
  repeat (rewrite bind_run, ret_run).
  by destruct (isAssignable env leftTyp lt && isAssignable env rightTyp rt).
Qed.

Lemma tcExpr_builtin2_rules_witness :
  content scopeHeap (functions defaultTypeEnv) !! "max" = Some ([NUM; NUM], NUM)
  ∧ tcExpr defaultTypeEnv topScope max_1_True scopeHeap
    = (Throw (TypeMismatchError "[number,number]" "[number,bool]" 2), scopeHeap).
Proof.
  assert (Hsig : content scopeHeap (functions defaultTypeEnv) !! "max"
                 = Some ([NUM; NUM], NUM)) by (vm_compute; reflexivity).
  split; [exact Hsig|].
  exact (tcExpr_builtin2_rules defaultTypeEnv topScope None "max" litOne litTrue 2
           scopeHeap [NUM; NUM] NUM NUM NUM _ scopeHeap _ scopeHeap NUM BOOL
           Hsig eq_refl eq_refl eq_refl eq_refl eq_refl eq_refl).
Defined.

(** X13: a callee that no table knows is a name-resolution failure, and the
    arguments are not checked: for a one-argument builtin other than
    [print], a two-argument builtin, and a call whose callee is neither a
    class nor a function, the failure is reported whatever the arguments
    are, and the heap is left as it was. *)
Theorem unknown_callee_is_a_name_error env locals a name loc h :
  content h (functions env) !! name = None →
  (∀ arg, name ≠ "print" →
     tcExpr env locals (EBuiltin1 a name arg loc) h = (Throw (NameError name loc), h))
  ∧ (∀ left_ right_,
       tcExpr env locals (EBuiltin2 a name left_ right_ loc) h
       = (Throw (NameError name loc), h))
  ∧ (∀ arguments,
       content h (classes env) !! name = None →
       tcExpr env locals (ECall a name arguments loc) h = (Throw (NameError name loc), h)).
Proof.
  intros Hf. split; [|split].
  - intros arg Hname. cbn [tcExpr]. rewrite bool_decide_eq_false_2 by done.
    by rewrite bind_run, has_run, Hf, bool_decide_eq_false_2 by (by intros [??]).
  - intros left_ right_. cbn [tcExpr].
    by rewrite bind_run, has_run, Hf, bool_decide_eq_false_2 by (by intros [??]).
  - intros arguments Hc. cbn [tcExpr].
    rewrite bind_run, has_run, Hc, bool_decide_eq_false_2 by (by intros [??]).
    by rewrite bind_run, has_run, Hf, bool_decide_eq_false_2 by (by intros [??]).
Qed.

Lemma unknown_callee_is_a_name_error_witness :
  content scopeHeap (functions defaultTypeEnv) !! "g" = None
  ∧ tcExpr defaultTypeEnv topScope (EBuiltin2 None "g" idUnbound litOne 2) scopeHeap
    = (Throw (NameError "g" 2), scopeHeap).
Proof.
  assert (Hf : content scopeHeap (functions defaultTypeEnv) !! "g" = None)
    by (vm_compute; reflexivity).
  split; [exact Hf|].
  exact (proj1 (proj2 (unknown_callee_is_a_name_error defaultTypeEnv topScope None "g" 2
                         scopeHeap Hf)) idUnbound litOne).
Defined.

(** ** Calls of functions and constructors *)

(** X14: a call of a function (a name the function table knows and the class
    table does not) checks its arguments first, from left to right, so a
    failure in an argument is the one that is reported; when the arguments
    type-check and their number is not the number of declared parameters the
    call is an arity failure that gives both numbers; and a call that is
    accepted comes back with the declared return type, with as many
    arguments as parameters, and with the argument nodes it was given,
    not the checked ones. *)
Theorem tcExpr_call_function env locals a name arguments loc h argTypes retType :
  content h (classes env) !! name = None →
  content h (functions env) !! name = Some (argTypes, retType) →
  (∀ e h1,
     mapM (tcExpr env locals) arguments h = (Throw e, h1) →
     tcExpr env locals (ECall a name arguments loc) h = (Throw e, h1))
  ∧ (∀ tArgs h1,
       mapM (tcExpr env locals) arguments h = (Ok tArgs, h1) →
       length argTypes ≠ length arguments →
       tcExpr env locals (ECall a name arguments loc) h
       = (Throw (TypeError (arityMessage name (length argTypes) (length arguments)) loc),
          h1))
  ∧ (∀ tExpr h1,
       tcExpr env locals (ECall a name arguments loc) h = (Ok tExpr, h1) →
       tExpr = ECall (Some retType) name arguments loc
       ∧ length arguments = length argTypes).
Proof.
  intros Hc Hf.
  assert (Hstart : tcExpr env locals (ECall a name arguments loc) h =
    (tArgs ← mapM (tcExpr env locals) arguments;
     if bool_decide (length argTypes = length arguments)
        && every (λ tArg i, bool_decide (Expr_a tArg = argTypes !! i)) tArgs
     then mret (ECall (Some retType) name arguments loc)
     else if bool_decide (length argTypes ≠ length arguments) then
       throw (TypeError (arityMessage name (length argTypes) (length arguments)) loc)
     else
       actual ← mapM annot tArgs;
       throw (TypeMismatchError (toObject argTypes) (toObject actual) loc)) h).
  { cbn [tcExpr].
    rewrite bind_run, has_run, Hc, bool_decide_eq_false_2 by (by intros [??]).
    rewrite bind_run, has_run, Hf, bool_decide_eq_true_2 by eauto.
    rewrite bind_run, get_run, Hf. cbn [defined]. by rewrite bind_run, ret_run. }
  rewrite Hstart. split; [|split].
  - intros e h1 Hargs. by rewrite bind_run, Hargs.
  - intros tArgs h1 Hargs Hlen. rewrite bind_run, Hargs.
    rewrite (bool_decide_eq_false_2 (length argTypes = length arguments)) by done.
    cbn [andb]. by rewrite bool_decide_eq_true_2 by done.
  - intros tExpr h1 Hrun.
    apply bind_Ok_inv in Hrun as (tArgs & h2 & Hargs & Hrun).
    destruct (bool_decide (length argTypes = length arguments)) eqn:Hlen.
    + apply bool_decide_eq_true_1 in Hlen. cbn [andb] in Hrun.
      destruct (every _ tArgs).
      * rewrite ret_run in Hrun. by injection Hrun as <- <-.
      * rewrite bool_decide_eq_false_2 in Hrun by (intros Hne; by apply Hne).
        apply bind_Ok_inv in Hrun as (? & ? & _ & Hrun). discriminate Hrun.
    + apply bool_decide_eq_false_1 in Hlen. cbn [andb] in Hrun.
      rewrite bool_decide_eq_true_2 in Hrun by done. discriminate Hrun.
Qed.

Lemma tcExpr_call_function_witness :
  content checkHeap (classes checkEnv) !! "f" = None
  ∧ content checkHeap (functions checkEnv) !! "f" = Some ([C_of_x], NONE)
  ∧ tcExpr checkEnv checkScope (ECall None "f" [litOne; litTrue] 2) checkHeap
    = (Throw (TypeError "f takes 1 positional arguments but 2 were given" 2), checkHeap).
Proof.
  assert (Hc : content checkHeap (classes checkEnv) !! "f" = None)
    by (vm_compute; reflexivity).
  assert (Hf : content checkHeap (functions checkEnv) !! "f" = Some ([C_of_x], NONE))
    by (vm_compute; reflexivity).
  split; [exact Hc|]. split; [exact Hf|].
  apply (proj1 (proj2 (tcExpr_call_function checkEnv checkScope None "f"
                         [litOne; litTrue] 2 checkHeap _ _ Hc Hf))
           [ELiteral (Some NUM) (LNum 1) 1; ELiteral (Some BOOL) (LBool true) 1]).
  - reflexivity.
  - cbn. discriminate.
Defined.

(** X15: the construction of an object of a class that has an [__init__] is
    accepted exactly when the number of arguments is the number of parameters
    of [__init__] less one, for the receiver, and [__init__] returns the none
    type; a wrong number of arguments is an arity failure, reported before a
    wrong return type.  In particular an [__init__] declared without any
    parameter makes every construction an arity failure. *)
Theorem tcExpr_constructor_with_init
    env locals a name arguments loc h fields methods initArgs initRet :
  content h (classes env) !! name = Some (fields, methods) →
  content h methods !! "__init__" = Some (initArgs, initRet) →
  (length initArgs = S (length arguments) → initRet = NONE →
   tcExpr env locals (ECall a name arguments loc) h
   = (Ok (EConstruct (Some (mkTy (next h) (TClass name))) name loc), bump h))
  ∧ (length initArgs ≠ S (length arguments) →
     tcExpr env locals (ECall a name arguments loc) h
     = (Throw (TypeError (initArityMessage (length initArgs) (length arguments + 1)) loc),
        bump h))
  ∧ (length initArgs = S (length arguments) → initRet ≠ NONE →
     tcExpr env locals (ECall a name arguments loc) h
     = (Throw (TypeError (initReturnMessage initRet) loc), bump h))
  ∧ (initArgs = [] →
     ∃ message, tcExpr env locals (ECall a name arguments loc) h
                = (Throw (TypeError message loc), bump h)).
Proof.
  intros Hc Hinit.
  rewrite (tcExpr_call_class _ _ _ _ _ _ _ _ _ Hc), Hinit.
  split; [|split; [|split]].
  - intros Hlen ->. rewrite bool_decide_eq_false_2 by lia. reflexivity.
  - intros Hlen. rewrite bool_decide_eq_true_2 by lia. reflexivity.
  - intros Hlen Hret. rewrite bool_decide_eq_false_2 by lia.
    unfold same_object. rewrite bool_decide_eq_false_2 by done. reflexivity.
  - intros ->. eexists. rewrite bool_decide_eq_true_2 by (cbn; lia). reflexivity.
Qed.

Example heapD_is_the_heap_of_tc :
  outcome (tc defaultTypeEnv (programD [SExpr None lookup_d_n 3])) parsedHeap
  = outcome (tBody ← tcBlock envD scopeD [SExpr None lookup_d_n 3];
             mret (mkProgram (Some NUM)
                     [mkVarInit (Some NONE) "d" D_of_d LNone 0] []
                     [mkClass (Some NONE) "D" [mkVarInit (Some NONE) "n" NUM (LNum 0) 0]
                        [mkFunDef (Some NONE) "__init__" [mkParam "self" D_of_init_self]
                           NONE [] [SPass (Some NONE) 0] 0;
                         mkFunDef (Some NONE) "get" [mkParam "self" D_of_get_self] NUM []
                           [SReturn (Some NUM)
                              (ELookup (Some NUM) (EId (Some D_of_get_self) "self" 1)
                                 "n" 2) 3] 0] 0]
                     tBody 0, envD)) heapD.
Proof. vm_compute. reflexivity. Qed.

Lemma tcExpr_constructor_with_init_witness :
  content heapD (classes envD) !! "D" = Some (mkRef 14, mkRef 15)
  ∧ content heapD (mkRef 15 : MapRef Sig) !! "__init__" = Some ([D_of_init_self], NONE)
  ∧ tcExpr envD scopeD (ECall None "D" [litOne] 2) heapD
    = (Throw (TypeError "__init__() takes 1 positional arguments but 2 were given" 2),
       bump heapD).
Proof.
  assert (Hc : content heapD (classes envD) !! "D" = Some (mkRef 14, mkRef 15))
    by (vm_compute; reflexivity).
  assert (Hi : content heapD (mkRef 15 : MapRef Sig) !! "__init__"
               = Some ([D_of_init_self], NONE)) by (vm_compute; reflexivity).
  split; [exact Hc|]. split; [exact Hi|].
  apply (proj1 (proj2 (tcExpr_constructor_with_init envD scopeD None "D" [litOne] 2 heapD
                         _ _ _ _ Hc Hi))).
  cbn. lia.
Defined.

(** ** Fields and methods *)

(** X16: the lookup of a field, once the object has type-checked, tells
    three failures apart: an object that is not of a class type is an
    attribute failure on the tag of its type, a class type the class table
    does not know is a name-resolution failure on the class name, a field the
    class does not declare is an attribute failure on the class name; a
    declared field gives the node its declared type. *)
Theorem tcExpr_lookup_rules env locals a obj field loc h tObj h1 t :
  tcExpr env locals obj h = (Ok tObj, h1) →
  Expr_a tObj = Some t →
  ((∀ cname, shape t ≠ TClass cname) →
   tcExpr env locals (ELookup a obj field loc) h
   = (Throw (AttributeError (tag t) field loc), h1))
  ∧ (∀ cname, shape t = TClass cname →
       content h (classes env) !! cname = None →
       tcExpr env locals (ELookup a obj field loc) h = (Throw (NameError cname loc), h1))
  ∧ (∀ cname fields methods, shape t = TClass cname →
       content h (classes env) !! cname = Some (fields, methods) →
       tcExpr env locals (ELookup a obj field loc) h
       = (match content h fields !! field with
          | Some fieldTyp => Ok (ELookup (Some fieldTyp) tObj field loc)
          | None => Throw (AttributeError cname field loc)
          end, h1)).
Proof.
  intros Hobj Ht.
  assert (Hstart : tcExpr env locals (ELookup a obj field loc) h =
    (match shape t with
     | TClass cname =>
         isClass ← has (classes env) cname;
         if isClass : bool then
           entry ← get (classes env) cname;
           '(fields, _) ← defined entry;
           hasField ← has fields field;
           if hasField : bool then
             fieldTyp ← get fields field;
             mret (ELookup fieldTyp tObj field loc)
           else throw (AttributeError cname field loc)
         else throw (NameError cname loc)
     | _ => throw (AttributeError (tag t) field loc)
     end) h1).
  { cbn [tcExpr]. rewrite bind_run, Hobj. unfold annot. rewrite Ht. cbn [defined].
    by rewrite bind_run, ret_run. }
  rewrite Hstart. clear Hstart.
  assert (Hsame : ∀ V (S : Stored V) (r : MapRef V), content h1 r = content h r).
  { intros. by eapply reads_only_content; [apply reads_only_tcExpr|]. }
  split; [|split].
  - intros Hn. destruct (shape t) eqn:Es; try reflexivity. by destruct (Hn name).
  - intros cname -> Hc.
    by rewrite bind_run, has_run, Hsame, Hc, bool_decide_eq_false_2 by (by intros [??]).
  - intros cname fields methods -> Hc.
    rewrite bind_run, has_run, Hsame, Hc, bool_decide_eq_true_2 by eauto.
    rewrite bind_run, get_run, Hsame, Hc. cbn [defined].
    rewrite bind_run, ret_run, bind_run, has_run, Hsame.
    destruct (content h fields !! field) as [fieldTyp|] eqn:Ef.
    + rewrite bool_decide_eq_true_2 by eauto. by rewrite bind_run, get_run, Hsame, Ef.
    + by rewrite bool_decide_eq_false_2 by (by intros [??]).
Qed.

Lemma tcExpr_lookup_rules_witness :
  tcExpr envD scopeD idD_obj heapD = (Ok (EId (Some D_of_d) "d" 1), heapD)
  ∧ content heapD (classes envD) !! "D" = Some (mkRef 14, mkRef 15)
  ∧ tcExpr envD scopeD lookup_d_m heapD = (Throw (AttributeError "D" "m" 2), heapD)
  ∧ tcExpr envD scopeD lookup_d_n heapD
    = (Ok (ELookup (Some NUM) (EId (Some D_of_d) "d" 1) "n" 2), heapD).
Proof.
  assert (Hobj : tcExpr envD scopeD idD_obj heapD = (Ok (EId (Some D_of_d) "d" 1), heapD))
    by (vm_compute; reflexivity).
  assert (Hc : content heapD (classes envD) !! "D" = Some (mkRef 14, mkRef 15))
    by (vm_compute; reflexivity).
  split; [exact Hobj|]. split; [exact Hc|].
  pose proof (λ field, proj2 (proj2 (tcExpr_lookup_rules envD scopeD None idD_obj field 2
                                       heapD _ _ D_of_d Hobj eq_refl))
                         "D" _ _ eq_refl Hc) as Hrule.
  split.
  - unfold lookup_d_m. rewrite (Hrule "m"). vm_compute. reflexivity.
  - unfold lookup_d_n. rewrite (Hrule "n"). vm_compute. reflexivity.
Defined.

Lemma everyM_from_0 {A} (p : A → nat → M bool) l : everyM p l = everyM_from p 0 l.
Proof. reflexivity. Qed.

Lemma mapM_annot_run es tys h :
  Forall2 (λ e ty, Expr_a e = Some ty) es tys → mapM annot es h = (Ok tys, h).
Proof.
  induction 1 as [|e ty es tys He _ IH]; cbn [mapM]; [done|].
  rewrite bind_run. change (annot e h) with (defined (Expr_a e) h).
  rewrite He. cbn [defined]. by rewrite ret_run, bind_run, IH.
Qed.

Lemma mapM_tcExpr_annotated env locals arguments h tArgs h' :
  mapM (tcExpr env locals) arguments h = (Ok tArgs, h') →
  ∃ actual, Forall2 (λ tArg ty, Expr_a tArg = Some ty) tArgs actual.
Proof.
  intros Hrun.
  assert (Hall : Forall (λ tArg, is_Some (Expr_a tArg)) tArgs).
  { eapply mapM_Ok_Forall; [|exact Hrun].
    apply Forall_true. intros e h0 y h0'. apply tcExpr_annotated. }
  clear Hrun. induction Hall as [|tArg tArgs [ty Hty] _ (actual & IH)].
  - exists []. constructor.
  - exists (ty :: actual). by constructor.
Qed.

Lemma everyM_assignable env (pre rest : list Expr) actual (declared : list Ty) h :
  Forall2 (λ e ty, Expr_a e = Some ty) rest actual →
  length declared = length rest →
  everyM_from (λ argTyp i,
                 realArg ← defined ((pre ++ rest)%list !! i);
                 ty ← annot realArg;
                 mret (isAssignable env ty argTyp)) (length pre) declared h
  = (Ok (bool_decide (Forall2 (λ ty argTyp, isAssignable env ty argTyp = true)
                        actual declared)), h).
Proof.
  intros Hann. revert pre declared.
  induction Hann as [|e ty rest actual He _ IH]; intros pre declared Hlen.
  - destruct declared; [|discriminate]. cbn [everyM_from].
    rewrite ret_run, bool_decide_eq_true_2 by constructor. reflexivity.
  - destruct declared as [|argTyp declared]; [discriminate|].
    cbn [everyM_from].
    rewrite bind_run, bind_run.
    rewrite lookup_app_r by lia. rewrite Nat.sub_diag. cbn [lookup list_lookup defined].
    rewrite ret_run, bind_run. unfold annot at 1. rewrite He. cbn [defined].
    rewrite ret_run, ret_run.
    destruct (isAssignable env ty argTyp) eqn:Eas.
    + specialize (IH (pre ++ [e])%list declared).
      rewrite length_app, Nat.add_1_r, <- app_assoc in IH. cbn [app] in IH.
      rewrite IH by (cbn in Hlen; lia).
      f_equal. f_equal. apply bool_decide_ext. rewrite Forall2_cons. tauto.
    + rewrite ret_run. f_equal. f_equal. symmetry. apply bool_decide_eq_false_2.
      intros HF. apply Forall2_cons in HF as [HF _]. congruence.
Qed.

(** X17: a method call, once the receiver and the arguments have
    type-checked and the receiver is of a known class with that method.  The
    receiver counts as the first argument: when the number of declared
    parameters is not the number of arguments plus one, the call is an arity
    failure that gives both numbers; otherwise the call gets the declared
    return type when the type of the receiver and of every argument is
    assignable to the declared type at its position, and is a type mismatch
    listing the declared and the actual types when one is not. *)
Theorem tcExpr_method_call_rules
    env locals a obj method arguments loc h tObj h1 tArgs h2 t cname fields methods
    methodArgs methodRet :
  tcExpr env locals obj h = (Ok tObj, h1) →
  mapM (tcExpr env locals) arguments h1 = (Ok tArgs, h2) →
  Expr_a tObj = Some t →
  shape t = TClass cname →
  content h (classes env) !! cname = Some (fields, methods) →
  content h methods !! method = Some (methodArgs, methodRet) →
  ∃ actual,
    Forall2 (λ tArg ty, Expr_a tArg = Some ty) tArgs actual
    ∧ (length methodArgs ≠ S (length arguments) →
       tcExpr env locals (EMethodCall a obj method arguments loc) h
       = (Throw (TypeError (arityMessage method (length methodArgs)
                              (S (length arguments))) loc), h2))
    ∧ (length methodArgs = S (length arguments) →
       tcExpr env locals (EMethodCall a obj method arguments loc) h
       = (if bool_decide (Forall2 (λ ty argTyp, isAssignable env ty argTyp = true)
                            (t :: actual) methodArgs)
          then Ok (EMethodCall (Some methodRet) tObj method tArgs loc)
          else Throw (TypeMismatchError (toObject methodArgs) (toObject (t :: actual)) loc),
          h2)).
Proof.
  intros Hobj Hargs Ht Hshape Hc Hm.
  destruct (mapM_tcExpr_annotated _ _ _ _ _ _ Hargs) as (actual & Hactual).
  exists actual. split; [exact Hactual|].
  pose proof (mapM_Ok_length _ _ _ _ _ Hargs) as Hlen.
  assert (Hsame : ∀ V (S : Stored V) (r : MapRef V), content h2 r = content h r).
  { intros.
    rewrite (reads_only_content _ _ _ _ r
               (reads_only_mapM _ _ (Forall_true _ _ (reads_only_tcExpr env locals)))
               Hargs).
    by eapply reads_only_content; [apply reads_only_tcExpr|]. }
  assert (Hreal : Forall2 (λ e ty, Expr_a e = Some ty) (tObj :: tArgs) (t :: actual))
    by (by constructor).
  assert (Hstart : tcExpr env locals (EMethodCall a obj method arguments loc) h =
    (let realArgs := tObj :: tArgs in
     let sameLength := bool_decide (length methodArgs = length realArgs) in
     accepted ←
       (if sameLength then
          everyM (λ argTyp i,
                    realArg ← defined (realArgs !! i);
                    actual ← annot realArg;
                    mret (isAssignable env actual argTyp)) methodArgs
        else mret false);
     if accepted : bool then
       mret (EMethodCall (Some methodRet) tObj method tArgs loc)
     else if negb sameLength then
       throw (TypeError (arityMessage method (length methodArgs) (length realArgs)) loc)
     else
       actual ← mapM annot realArgs;
       throw (TypeMismatchError (toObject methodArgs) (toObject actual) loc)) h2).
  { cbn [tcExpr]. rewrite bind_run, Hobj, bind_run, Hargs.
    change (annot tObj) with (defined (Expr_a tObj)).
    rewrite Ht. cbn [defined]. rewrite bind_run, ret_run, Hshape.
    rewrite bind_run, has_run, Hsame, Hc, bool_decide_eq_true_2 by eauto.
    rewrite bind_run, get_run, Hsame, Hc. cbn [defined].
    rewrite bind_run, ret_run, bind_run, has_run, Hsame, Hm.
    rewrite bool_decide_eq_true_2 by eauto.
    rewrite bind_run, get_run, Hsame, Hm. cbn [defined].
    by rewrite bind_run, ret_run. }
  rewrite Hstart. clear Hstart. cbv zeta. cbn [length]. rewrite Hlen.
  split.
  - intros Hne. rewrite bool_decide_eq_false_2 by done.
    by rewrite bind_run, ret_run.
  - intros Heq. rewrite bool_decide_eq_true_2 by done.
    rewrite bind_run, everyM_from_0.
    pose proof (everyM_assignable env [] (tObj :: tArgs) (t :: actual) methodArgs h2 Hreal)
      as Hevery.
    cbn [app length] in Hevery. rewrite Hevery by lia.
    case_bool_decide; [reflexivity|]. cbn [negb].
    by rewrite bind_run, (mapM_annot_run _ _ _ Hreal).
Qed.

Lemma tcExpr_method_call_rules_witness :
  tcExpr envD scopeD idD_obj heapD = (Ok (EId (Some D_of_d) "d" 1), heapD)
  ∧ content heapD (classes envD) !! "D" = Some (mkRef 14, mkRef 15)
  ∧ content heapD (mkRef 15 : MapRef Sig) !! "get" = Some ([D_of_get_self], NUM)
  ∧ tcExpr envD scopeD call_d_get_1 heapD
    = (Throw (TypeError "get takes 1 positional arguments but 2 were given" 2), heapD).
Proof.
  assert (Hobj : tcExpr envD scopeD idD_obj heapD = (Ok (EId (Some D_of_d) "d" 1), heapD))
    by (vm_compute; reflexivity).
  assert (Hargs : mapM (tcExpr envD scopeD) [litOne] heapD
                  = (Ok [ELiteral (Some NUM) (LNum 1) 1], heapD)) by reflexivity.
  assert (Hc : content heapD (classes envD) !! "D" = Some (mkRef 14, mkRef 15))
    by (vm_compute; reflexivity).
  assert (Hm : content heapD (mkRef 15 : MapRef Sig) !! "get" = Some ([D_of_get_self], NUM))
    by (vm_compute; reflexivity).
  split; [exact Hobj|]. split; [exact Hc|]. split; [exact Hm|].
  destruct (tcExpr_method_call_rules envD scopeD None idD_obj "get" [litOne] 2 heapD
              _ _ _ _ D_of_d "D" _ _ _ _ Hobj Hargs eq_refl eq_refl Hc Hm)
    as (actual & _ & Harity & _).
  apply Harity. cbn. lia.
Defined.

Lemma tcExpr_lookup_run env locals a obj field loc h tObj h1 t :
  tcExpr env locals obj h = (Ok tObj, h1) →
  Expr_a tObj = Some t →
  tcExpr env locals (ELookup a obj field loc) h
  = (match fieldOf h env t field loc with
     | Ok fieldTyp => Ok (ELookup (Some fieldTyp) tObj field loc)
     | Throw e => Throw e
     end, h1).
Proof.
  intros Hobj Ht.
  assert (Hsame : ∀ V (S : Stored V) (r : MapRef V), content h1 r = content h r).
  { intros. by eapply reads_only_content; [apply reads_only_tcExpr|]. }
  cbn [tcExpr]. rewrite bind_run, Hobj.
  change (annot tObj) with (defined (Expr_a tObj)). rewrite Ht. cbn [defined].
  rewrite bind_run, ret_run. unfold fieldOf.
  destruct (shape t) as [| | |cname]; try reflexivity.
  rewrite bind_run, has_run, Hsame.
  destruct (content h (classes env) !! cname) as [[fields methods]|] eqn:Hc.
  - rewrite bool_decide_eq_true_2 by eauto.
    rewrite bind_run, get_run, Hsame, Hc. cbn [defined].
    rewrite bind_run, ret_run, bind_run, has_run, Hsame.
    destruct (content h fields !! field) as [fieldTyp|] eqn:Ef.
    + rewrite bool_decide_eq_true_2 by eauto. by rewrite bind_run, get_run, Hsame, Ef.
    + by rewrite bool_decide_eq_false_2 by (by intros [??]).
  - by rewrite bool_decide_eq_false_2 by (by intros [??]).
Qed.

Lemma tcStmt_field_assign_run env locals a obj field value loc h tObj h1 tVal h2 t valTyp :
  tcExpr env locals obj h = (Ok tObj, h1) →
  tcExpr env locals value h1 = (Ok tVal, h2) →
  Expr_a tObj = Some t →
  Expr_a tVal = Some valTyp →
  tcStmt env locals (SFieldAssign a obj field value loc) h
  = (match fieldOf h env t field loc with
     | Ok fieldTyp =>
         if isAssignable env valTyp fieldTyp
         then Ok (SFieldAssign (Some NONE) tObj field tVal loc)
         else Throw (TypeMismatchError (tag fieldTyp) (tag valTyp) loc)
     | Throw e => Throw e
     end, h2).
Proof.
  intros Hobj Hval Ht Hv.
  assert (Hsame : ∀ V (S : Stored V) (r : MapRef V), content h2 r = content h r).
  { intros. rewrite (reads_only_content _ _ _ _ r (reads_only_tcExpr _ _ _) Hval).
    by eapply reads_only_content; [apply reads_only_tcExpr|]. }
  cbn [tcStmt]. rewrite bind_run, Hobj, bind_run, Hval.
  change (annot tObj) with (defined (Expr_a tObj)). rewrite Ht. cbn [defined].
  rewrite bind_run, ret_run. unfold fieldOf.
  destruct (shape t) as [| | |cname]; try reflexivity.
  rewrite bind_run, has_run, Hsame.
  destruct (content h (classes env) !! cname) as [[fields methods]|] eqn:Hc.
  - rewrite bool_decide_eq_true_2 by eauto. cbn [negb].
    rewrite bind_run, get_run, Hsame, Hc. cbn [defined].
    rewrite bind_run, ret_run, bind_run, has_run, Hsame.
    destruct (content h fields !! field) as [fieldTyp|] eqn:Ef.
    + rewrite bool_decide_eq_true_2 by eauto. cbn [negb].
      rewrite bind_run, get_run, Hsame, Ef.
      change (annot tVal) with (defined (Expr_a tVal)). rewrite Hv. cbn [defined].
      rewrite bind_run, ret_run, bind_run, ret_run.
      by destruct (isAssignable env valTyp fieldTyp).
    + by rewrite bool_decide_eq_false_2 by (by intros [??]).
  - by rewrite bool_decide_eq_false_2 by (by intros [??]).
Qed.

(** X18: an assignment to a field follows the lookup of that field.  Once the
    object and the value have type-checked, [obj.field = value] is accepted
    exactly when the expression [obj.field] has a type and the type of the
    value is assignable to it, a type mismatch naming the two tags when it is
    not assignable, and the failure of the expression [obj.field], at the
    location of the statement, when that expression fails. *)
Theorem tcStmt_field_assign_follows_lookup
    env locals a a' obj field value loc h tObj h1 tVal h2 valTyp :
  tcExpr env locals obj h = (Ok tObj, h1) →
  tcExpr env locals value h1 = (Ok tVal, h2) →
  Expr_a tVal = Some valTyp →
  (∀ tLookup h' fieldTyp,
     tcExpr env locals (ELookup a' obj field loc) h = (Ok tLookup, h') →
     Expr_a tLookup = Some fieldTyp →
     tcStmt env locals (SFieldAssign a obj field value loc) h
     = (if isAssignable env valTyp fieldTyp
        then Ok (SFieldAssign (Some NONE) tObj field tVal loc)
        else Throw (TypeMismatchError (tag fieldTyp) (tag valTyp) loc), h2))
  ∧ (∀ e h',
       tcExpr env locals (ELookup a' obj field loc) h = (Throw e, h') →
       tcStmt env locals (SFieldAssign a obj field value loc) h = (Throw e, h2)).
Proof.
  intros Hobj Hval Hv.
  destruct (tcExpr_annotated _ _ _ _ _ _ Hobj) as [t Ht].
  rewrite (tcExpr_lookup_run _ _ _ _ _ _ _ _ _ _ Hobj Ht).
  rewrite (tcStmt_field_assign_run _ _ _ _ _ _ _ _ _ _ _ _ _ _ Hobj Hval Ht Hv).
  split.
  - intros tLookup h' fieldTyp Hrun Hty.
    destruct (fieldOf h env t field loc); [|discriminate].
    injection Hrun as <- <-. cbn in Hty. by injection Hty as ->.
  - intros e h' Hrun. destruct (fieldOf h env t field loc); [discriminate|].
    by injection Hrun as -> _.
Qed.

Lemma tcStmt_field_assign_follows_lookup_witness :
  tcExpr envD scopeD idD_obj heapD = (Ok (EId (Some D_of_d) "d" 1), heapD)
  ∧ tcExpr envD scopeD litTrue heapD = (Ok (ELiteral (Some BOOL) (LBool true) 1), heapD)
  ∧ tcExpr envD scopeD (ELookup None idD_obj "n" 3) heapD
    = (Ok (ELookup (Some NUM) (EId (Some D_of_d) "d" 1) "n" 3), heapD)
  ∧ tcStmt envD scopeD assign_d_n_True heapD
    = (Throw (TypeMismatchError "number" "bool" 3), heapD).
Proof.
  assert (Hobj : tcExpr envD scopeD idD_obj heapD = (Ok (EId (Some D_of_d) "d" 1), heapD))
    by (vm_compute; reflexivity).
  assert (Hval : tcExpr envD scopeD litTrue heapD
                 = (Ok (ELiteral (Some BOOL) (LBool true) 1), heapD)) by reflexivity.
  assert (Hlookup : tcExpr envD scopeD (ELookup None idD_obj "n" 3) heapD
                    = (Ok (ELookup (Some NUM) (EId (Some D_of_d) "d" 1) "n" 3), heapD))
    by (vm_compute; reflexivity).
  split; [exact Hobj|]. split; [exact Hval|]. split; [exact Hlookup|].
  exact (proj1 (tcStmt_field_assign_follows_lookup envD scopeD None None idD_obj "n"
                  litTrue 3 heapD _ _ _ _ BOOL Hobj Hval eq_refl) _ _ NUM Hlookup eq_refl).
Defined.

(** ** Return and blocks *)

(** X19: [return].  In a top-level scope it is a syntax failure whatever the
    returned expression is, which is not even checked; in the scope of a
    function, once the expression has type-checked, the statement gets the
    type of the expression when that type is assignable to the declared
    return type, and is a type mismatch naming the two types otherwise. *)
Theorem tcStmt_return_rules env locals a value loc h :
  (topLevel locals = true →
   tcStmt env locals (SReturn a value loc) h
   = (Throw (SyntaxError "‘return’ outside of functions" loc), h))
  ∧ (topLevel locals = false →
     ∀ tRet h1 retTyp,
       tcExpr env locals value h = (Ok tRet, h1) →
       Expr_a tRet = Some retTyp →
       tcStmt env locals (SReturn a value loc) h
       = (if isAssignable env retTyp (expectedRet locals)
          then Ok (SReturn (Some retTyp) tRet loc)
          else Throw (TypeMismatchError (nameOrTag (expectedRet locals))
                        (nameOrTag retTyp) loc), h1)).
Proof.
  split.
  - intros Htop. cbn [tcStmt]. by rewrite Htop.
  - intros Htop tRet h1 retTyp Hval Hty. cbn [tcStmt]. rewrite Htop, bind_run, Hval.
    change (annot tRet) with (defined (Expr_a tRet)). rewrite Hty. cbn [defined].
    rewrite bind_run, ret_run.
    by destruct (isAssignable env retTyp (expectedRet locals)).
Qed.

Lemma tcStmt_return_rules_witness :
  topLevel topScope = true
  ∧ tcStmt defaultTypeEnv topScope (SReturn None idUnbound 2) scopeHeap
    = (Throw (SyntaxError "‘return’ outside of functions" 2), scopeHeap).
Proof.
  split; [reflexivity|].
  exact (proj1 (tcStmt_return_rules defaultTypeEnv topScope None idUnbound 2 scopeHeap)
           eq_refl).
Defined.

Lemma mapM_app_Ok {A B} (f : A → M B) l1 l2 h l1' h1 :
  mapM f l1 h = (Ok l1', h1) →
  mapM f (l1 ++ l2)%list h
  = match mapM f l2 h1 with
    | (Ok l2', h2) => (Ok (l1' ++ l2')%list, h2)
    | (Throw e, h2) => (Throw e, h2)
    end.
Proof.
  revert h l1'. induction l1 as [|x l1 IH]; intros h l1' Hrun; cbn [mapM app] in *.
  - rewrite ret_run in Hrun. injection Hrun as <- <-.
    by destruct (mapM f l2 h) as [[?|?] ?].
  - apply bind_Ok_inv in Hrun as (y & h' & Ex & Hrun).
    apply bind_Ok_inv in Hrun as (ys & h'' & El & Hrun).
    rewrite ret_run in Hrun. injection Hrun as <- <-.
    rewrite bind_run, Ex, bind_run, (IH _ _ El).
    by destruct (mapM f l2 h'') as [[?|?] ?].
Qed.

(** X20: a block is checked statement by statement, from the first to the
    last, each in the heap the one before left.  The check of two blocks one
    after the other is the check of the first followed by the check of the
    second; and the first statement that fails ends the check with its own
    failure, the statements after it are not looked at. *)
Theorem tcBlock_in_order env locals pre h tPre h1 :
  tcBlock env locals pre h = (Ok tPre, h1) →
  (∀ post tPost h2,
     tcBlock env locals post h1 = (Ok tPost, h2) →
     tcBlock env locals (pre ++ post)%list h = (Ok (tPre ++ tPost)%list, h2))
  ∧ (∀ stmt post e h2,
       tcStmt env locals stmt h1 = (Throw e, h2) →
       tcBlock env locals (pre ++ stmt :: post)%list h = (Throw e, h2)).
Proof.
  unfold tcBlock. intros Hpre. split.
  - intros post tPost h2 Hpost. by rewrite (mapM_app_Ok _ _ _ _ _ _ Hpre), Hpost.
  - intros stmt post e h2 Hstmt. rewrite (mapM_app_Ok _ _ _ _ _ _ Hpre).
    cbn [mapM]. by rewrite bind_run, Hstmt.
Qed.

Lemma tcBlock_in_order_witness :
  tcBlock defaultTypeEnv topScope [SPass None 1] scopeHeap
  = (Ok [SPass (Some NONE) 1], scopeHeap)
  ∧ tcStmt defaultTypeEnv topScope return_1 scopeHeap
    = (Throw (SyntaxError "‘return’ outside of functions" 2), scopeHeap)
  ∧ tcBlock defaultTypeEnv topScope [SPass None 1; return_1; SExpr None idUnbound 3]
      scopeHeap
    = (Throw (SyntaxError "‘return’ outside of functions" 2), scopeHeap).
Proof.
  assert (Hpre : tcBlock defaultTypeEnv topScope [SPass None 1] scopeHeap
                 = (Ok [SPass (Some NONE) 1], scopeHeap)) by reflexivity.
  assert (Hstmt : tcStmt defaultTypeEnv topScope return_1 scopeHeap
                  = (Throw (SyntaxError "‘return’ outside of functions" 2), scopeHeap))
    by reflexivity.
  split; [exact Hpre|]. split; [exact Hstmt|].
  exact (proj2 (tcBlock_in_order defaultTypeEnv topScope [SPass None 1] scopeHeap _ _ Hpre)
           return_1 [SExpr None idUnbound 3] _ _ Hstmt).
Defined.

(** ** Declarations *)

Lemma initAccepted_isAssignable env init :
  initAccepted init ↔ isAssignable env (tcLiteral (init_value init)) (init_type init) = true.
Proof.
  unfold initAccepted. rewrite isAssignable_true. split.
  - intros [->|(-> & c & Hc)]; [by left|]. right. right. eauto.
  - intros [<-|[(c & Hl & _)|(Hl & c & Hc)]]; [by left | |].
    + destruct (init_value init); discriminate.
    + right. split; [|eauto]. destruct (init_value init); (done || discriminate).
Qed.

(** X21: what [tcInit] accepts.  A declaration is accepted, without a look at
    the heap, when its declared type is the type of its literal, or when the
    literal is [None] and the declared type is a class; any other
    declaration is a type mismatch that names the tag of the declared type
    and the tag of the type of the literal, at the declaration. *)
Theorem tcInit_rules env init h :
  (initAccepted init →
   tcInit env init h
   = (Ok (mkVarInit (Some NONE) (init_name init) (init_type init) (init_value init)
            (init_loc init)), h))
  ∧ (¬ initAccepted init →
     tcInit env init h
     = (Throw (TypeMismatchError (tag (init_type init))
                 (tag (tcLiteral (init_value init))) (init_loc init)), h)).
Proof.
  rewrite (initAccepted_isAssignable env). unfold tcInit.
  split; intros Hacc.
  - by rewrite Hacc.
  - apply not_true_is_false in Hacc. by rewrite Hacc.
Qed.

Lemma tcInit_rules_witness :
  ¬ initAccepted (mkVarInit None "x" NUM LNone 1)
  ∧ initAccepted (mkVarInit None "c" C_of_c LNone 1)
  ∧ tcInit defaultTypeEnv (mkVarInit None "x" NUM LNone 1) defaultHeap
    = (Throw (TypeMismatchError "number" "none" 1), defaultHeap)
  ∧ tcInit defaultTypeEnv (mkVarInit None "c" C_of_c LNone 1) defaultHeap
    = (Ok (mkVarInit (Some NONE) "c" C_of_c LNone 1), defaultHeap).
Proof.
  assert (Hbad : ¬ initAccepted (mkVarInit None "x" NUM LNone 1)).
  { intros [H|(_ & c & H)]; discriminate H. }
  assert (Hok : initAccepted (mkVarInit None "c" C_of_c LNone 1)).
  { right. split; [reflexivity|]. by exists "C". }
  split; [exact Hbad|]. split; [exact Hok|]. split.
  - exact (proj2 (tcInit_rules defaultTypeEnv _ defaultHeap) Hbad).
  - exact (proj1 (tcInit_rules defaultTypeEnv _ defaultHeap) Hok).
Defined.

Lemma tcInit_accepted_run env init h :
  initAccepted init →
  tcInit env init h
  = (Ok (mkVarInit (Some NONE) (init_name init) (init_type init) (init_value init)
           (init_loc init)), h).
Proof.
  rewrite (initAccepted_isAssignable env). unfold tcInit. by intros ->.
Qed.

Lemma tcInit_rejected_run env init h :
  ¬ initAccepted init →
  tcInit env init h
  = (Throw (TypeMismatchError (tag (init_type init)) (tag (tcLiteral (init_value init)))
              (init_loc init)), h).
Proof.
  rewrite (initAccepted_isAssignable env). unfold tcInit.
  intros Hacc. apply not_true_is_false in Hacc. by rewrite Hacc.
Qed.

Lemma forEach_app_Ok {A} (f : A → M unit) l1 l2 h h1 :
  forEach f l1 h = (Ok tt, h1) →
  forEach f (l1 ++ l2)%list h = forEach f l2 h1.
Proof.
  revert h. induction l1 as [|x l1 IH]; intros h Hrun; cbn [forEach app] in *.
  - rewrite ret_run in Hrun. by injection Hrun as <-.
  - apply bind_Ok_inv in Hrun as ([] & h' & Ex & Hrun).
    rewrite bind_run, Ex. by apply IH.
Qed.

(** The local declarations of a function, put in its scope one by one. *)
Lemma forEach_tcInit_set_run env (r : MapRef Ty) inits h :
  Forall initAccepted inits →
  ∃ h', forEach (λ init, tInit ← tcInit env init;
                         set r (init_name init) (init_type tInit)) inits h = (Ok tt, h')
        ∧ next h' = next h
        ∧ content h' r = declare (content h r) inits.
Proof.
  intros Hall. revert h. unfold declare.
  induction Hall as [|init inits Hacc _ IH]; intros h; cbn [forEach foldl].
  - eexists. by split.
  - destruct (set_run r (init_name init) (init_type init) h) as (h1 & E1 & N1 & C1).
    destruct (IH h1) as (h2 & E2 & N2 & C2).
    exists h2. rewrite bind_run, bind_run, (tcInit_accepted_run _ _ _ Hacc).
    cbn [init_type]. rewrite E1, E2, N2, N1, C2, C1. auto.
Qed.


Lemma emptyLocalTypeEnv_run h :
  ∃ h1, emptyLocalTypeEnv h = (Ok (mkLocalTypeEnv (mkRef (next h)) NONE true), h1)
        ∧ next h1 = S (next h)
        ∧ content h1 (mkRef (next h) : MapRef Ty) = ∅.
Proof.
  destruct (new_Map (∅ : gmap string Ty) h) as [res h1] eqn:Enew.
  pose proof Enew as Enew'. injection Enew' as <- _.
  exists h1. split.
  - unfold emptyLocalTypeEnv. by rewrite bind_run, Enew.
  - by apply new_Map_Ok_inv in Enew as (_ & ? & ?).
Qed.

(** X22: how [tcDef] checks a function.  The body is checked in a new scope,
    not a top-level one, that expects the declared return type and holds the
    parameters and then the local declarations, so that a local declaration
    hides a parameter of the same name; the function comes back with the
    type none and the checked body, or with the failure of the body.  A
    local declaration that [tcInit] does not accept is reported first, and
    the body is not checked. *)
Theorem tcDef_scope env fun_ h :
  let locals := mkLocalTypeEnv (mkRef (next h)) (fun_ret fun_) false in
  (Forall initAccepted (fun_inits fun_) →
   ∃ h0,
     next h0 = S (next h)
     ∧ content h0 (vars locals) = functionScope fun_
     ∧ tcDef env fun_ h
       = match tcBlock env locals (fun_body fun_) h0 with
         | (Ok tBody, h') =>
             (Ok (mkFunDef (Some NONE) (fun_name fun_) (fun_parameters fun_) (fun_ret fun_)
                    (fun_inits fun_) tBody (fun_loc fun_)), h')
         | (Throw e, h') => (Throw e, h')
         end)
  ∧ (∀ pre bad post,
       fun_inits fun_ = (pre ++ bad :: post)%list →
       Forall initAccepted pre →
       ¬ initAccepted bad →
       outcome (tcDef env fun_) h
       = Throw (TypeMismatchError (tag (init_type bad)) (tag (tcLiteral (init_value bad)))
                  (init_loc bad))).
Proof.
  intros locals.
  destruct (emptyLocalTypeEnv_run h) as (h1 & E1 & N1 & C1).
  destruct (forEach_set_run (mkRef (next h) : MapRef Ty) param_name param_type
              (fun_parameters fun_) h1) as (h2 & E2 & N2 & C2).
  split.
  - intros Hall.
    destruct (forEach_tcInit_set_run env (mkRef (next h)) (fun_inits fun_) h2 Hall)
      as (h3 & E3 & N3 & C3).
    exists h3. split; [lia|]. split.
    + cbn [vars locals]. unfold functionScope. by rewrite C3, C2, C1.
    + unfold tcDef. rewrite bind_run, E1. cbn [vars].
      rewrite bind_run, E2, bind_run, E3, bind_run.
      by destruct (tcBlock env _ (fun_body fun_) h3) as [[tBody|e] h'].
  - intros pre bad post Hinits Hpre Hbad.
    destruct (forEach_tcInit_set_run env (mkRef (next h)) pre h2 Hpre)
      as (h3 & E3 & _).
    unfold outcome, tcDef. rewrite bind_run, E1. cbn [vars].
    rewrite bind_run, E2, bind_run, Hinits, (forEach_app_Ok _ _ _ _ _ E3).
    cbn [forEach]. by rewrite bind_run, bind_run, (tcInit_rejected_run _ _ _ Hbad).
Qed.

Lemma tcDef_scope_witness :
  Forall initAccepted (fun_inits funShadow)
  ∧ functionScope funShadow !! "x" = Some BOOL
  ∧ outcome (tcDef defaultTypeEnv funShadow) defaultHeap
    = Throw (TypeMismatchError "number" "bool" 3)
  ∧ fun_inits funBadInit = ([] ++ mkVarInit None "x" NUM (LBool true) 1 :: [])%list
  ∧ ¬ initAccepted (mkVarInit None "x" NUM (LBool true) 1)
  ∧ outcome (tcDef defaultTypeEnv funBadInit) defaultHeap
    = Throw (TypeMismatchError "number" "bool" 1).
Proof.
  assert (Hall : Forall initAccepted (fun_inits funShadow)).
  { repeat constructor. }
  assert (Hbad : ¬ initAccepted (mkVarInit None "x" NUM (LBool true) 1)).
  { intros [H|(H & _)]; discriminate H. }
  split; [exact Hall|]. split; [vm_compute; reflexivity|].
  split; [vm_compute; reflexivity|].
  split; [reflexivity|]. split; [exact Hbad|].
  exact (proj2 (tcDef_scope defaultTypeEnv funBadInit defaultHeap) [] _ [] eq_refl
           (Forall_nil_2 _) Hbad).
Defined.

(** ** The environment of a program *)

Lemma set_Ty_heap (r : MapRef Ty) key value h :
  set r key value h
  = (Ok tt, mkHeap (next h) (<[address r := <[key := value]> (content h r)]> (typeMaps h))
              (sigMaps h) (classMaps h)).
Proof. reflexivity. Qed.

Lemma set_Sig_heap (r : MapRef Sig) key value h :
  set r key value h
  = (Ok tt, mkHeap (next h) (typeMaps h)
              (<[address r := <[key := value]> (content h r)]> (sigMaps h)) (classMaps h)).
Proof. reflexivity. Qed.

Lemma set_Class_heap (r : MapRef ClassEntry) key value h :
  set r key value h
  = (Ok tt, mkHeap (next h) (typeMaps h) (sigMaps h)
              (<[address r := <[key := value]> (content h r)]> (classMaps h))).
Proof. reflexivity. Qed.

Lemma new_Map_Ty_heap (c : gmap string Ty) h :
  new_Map c h
  = (Ok (mkRef (next h)),
     mkHeap (S (next h)) (<[next h := c]> (typeMaps h)) (sigMaps h) (classMaps h)).
Proof. reflexivity. Qed.

Lemma new_Map_Sig_heap (c : gmap string Sig) h :
  new_Map c h
  = (Ok (mkRef (next h)),
     mkHeap (S (next h)) (typeMaps h) (<[next h := c]> (sigMaps h)) (classMaps h)).
Proof. reflexivity. Qed.

Lemma new_Map_Class_heap (c : gmap string ClassEntry) h :
  new_Map c h
  = (Ok (mkRef (next h)),
     mkHeap (S (next h)) (typeMaps h) (sigMaps h) (<[next h := c]> (classMaps h))).
Proof. reflexivity. Qed.

(** A loop of [set] on a map of types: the content of that map, and nothing
    else moves. *)
Lemma forEach_set_Ty_run {A} (r : MapRef Ty) (key : A → string) (value : A → Ty) l h :
  ∃ h', forEach (λ x, set r (key x) (value x)) l h = (Ok tt, h')
        ∧ next h' = next h
        ∧ sigMaps h' = sigMaps h ∧ classMaps h' = classMaps h
        ∧ content h' r = foldl (λ m x, <[key x := value x]> m) (content h r) l
        ∧ ∀ x, x ≠ address r → typeMaps h' !! x = typeMaps h !! x.
Proof.
  revert h. induction l as [|y l IH]; intros h; cbn [forEach foldl].
  - exists h. rewrite ret_run. auto 10.
  - rewrite bind_run, set_Ty_heap.
    destruct (IH (mkHeap (next h)
                    (<[address r := <[key y := value y]> (content h r)]> (typeMaps h))
                    (sigMaps h) (classMaps h))) as (h' & E & N & S & C & Hc & Hx).
    exists h'. rewrite E. split; [done|]. split; [done|]. split; [done|]. split; [done|].
    split.
    + rewrite Hc. f_equal. unfold content. cbn. by rewrite lookup_total_insert_eq.
    + intros x Hne. rewrite (Hx x Hne). cbn. by rewrite lookup_insert_ne.
Qed.

Lemma forEach_set_Sig_run {A} (r : MapRef Sig) (key : A → string) (value : A → Sig) l h :
  ∃ h', forEach (λ x, set r (key x) (value x)) l h = (Ok tt, h')
        ∧ next h' = next h
        ∧ typeMaps h' = typeMaps h ∧ classMaps h' = classMaps h
        ∧ content h' r = foldl (λ m x, <[key x := value x]> m) (content h r) l
        ∧ ∀ x, x ≠ address r → sigMaps h' !! x = sigMaps h !! x.
Proof.
  revert h. induction l as [|y l IH]; intros h; cbn [forEach foldl].
  - exists h. rewrite ret_run. auto 10.
  - rewrite bind_run, set_Sig_heap.
    destruct (IH (mkHeap (next h) (typeMaps h)
                    (<[address r := <[key y := value y]> (content h r)]> (sigMaps h))
                    (classMaps h))) as (h' & E & N & T & C & Hc & Hx).
    exists h'. rewrite E. split; [done|]. split; [done|]. split; [done|]. split; [done|].
    split.
    + rewrite Hc. f_equal. unfold content. cbn. by rewrite lookup_total_insert_eq.
    + intros x Hne. rewrite (Hx x Hne). cbn. by rewrite lookup_insert_ne.
Qed.

(** One class: two new maps with the fields and the methods the class
    declares, and the entry of the class in [newClasses]. *)
Lemma declareClass_run newClasses cls h :
  ∃ h', declareClass newClasses cls h = (Ok tt, h')
        ∧ next h' = S (S (next h))
        ∧ content h' (mkRef (next h) : MapRef Ty) = fieldsOf cls
        ∧ content h' (mkRef (S (next h)) : MapRef Sig) = methodsOf cls
        ∧ (∀ x, x ≠ next h → typeMaps h' !! x = typeMaps h !! x)
        ∧ (∀ x, x ≠ S (next h) → sigMaps h' !! x = sigMaps h !! x)
        ∧ classMaps h'
          = <[address newClasses :=
                <[cls_name cls := (mkRef (next h), mkRef (S (next h)))]>
                  (content h newClasses)]> (classMaps h).
Proof.
  unfold declareClass.
  rewrite bind_run, new_Map_Ty_heap. cbn beta iota.
  rewrite bind_run, new_Map_Sig_heap. cbn beta iota. cbn [next typeMaps sigMaps classMaps].
  set (h2 := mkHeap (S (S (next h))) (<[next h := ∅]> (typeMaps h))
               (<[S (next h) := ∅]> (sigMaps h)) (classMaps h)).
  destruct (forEach_set_Ty_run (mkRef (next h)) init_name init_type (cls_fields cls) h2)
    as (h3 & E3 & N3 & S3 & C3 & Hc3 & Hx3).
  destruct (forEach_set_Sig_run (mkRef (S (next h))) fun_name signature (cls_methods cls) h3)
    as (h4 & E4 & N4 & T4 & C4 & Hc4 & Hx4).
  rewrite bind_run, E3, bind_run, E4, set_Class_heap.
  eexists. split; [reflexivity|]. cbn [next typeMaps sigMaps classMaps].
  split; [by rewrite N4, N3|]. split; [|split; [|split; [|split]]].
  - unfold content at 1. cbn [maps_of Ty_stored typeMaps address].
    rewrite T4. change (typeMaps h3 !!! next h) with (content h3 (mkRef (next h) : MapRef Ty)).
    rewrite Hc3. unfold fieldsOf, declare. f_equal.
    unfold content, h2. cbn. by rewrite lookup_total_insert_eq.
  - unfold content at 1. cbn [maps_of Sig_stored sigMaps address].
    change (sigMaps h4 !!! S (next h))
      with (content h4 (mkRef (S (next h)) : MapRef Sig)).
    rewrite Hc4. unfold methodsOf, declareFuns. f_equal.
    unfold content. cbn [maps_of Sig_stored address]. rewrite S3.
    unfold h2. cbn. by rewrite lookup_total_insert_eq.
  - intros x Hne. rewrite T4, (Hx3 x) by done. unfold h2. cbn. by rewrite lookup_insert_ne.
  - intros x Hne. rewrite (Hx4 x) by done. rewrite S3. unfold h2. cbn.
    by rewrite lookup_insert_ne.
  - rewrite C4, C3. unfold content. cbn [maps_of ClassEntry_stored]. by rewrite C4, C3.
Qed.

(** The loop over the classes: the maps that exist stay as they are, but for
    the entries of the declared classes in [newClasses]. *)
Lemma declareClasses_run newClasses classes h :
  ∃ h', forEach (declareClass newClasses) classes h = (Ok tt, h')
        ∧ next h ≤ next h'
        ∧ (∀ x, x < next h →
             typeMaps h' !! x = typeMaps h !! x ∧ sigMaps h' !! x = sigMaps h !! x)
        ∧ (∀ x, x ≠ address newClasses → classMaps h' !! x = classMaps h !! x)
        ∧ (∀ name, name ∉ (cls_name <$> classes) →
             content h' newClasses !! name = content h newClasses !! name).
Proof.
  revert h. induction classes as [|cls classes IH]; intros h; cbn [forEach].
  - exists h. rewrite ret_run. auto 10.
  - destruct (declareClass_run newClasses cls h) as (h1 & E1 & N1 & _ & _ & T1 & S1 & C1).
    destruct (IH h1) as (h' & E & N & TS & C & Hn).
    exists h'. rewrite bind_run, E1, E.
    split; [done|]. split; [lia|]. split; [|split].
    + intros x Hx. destruct (TS x) as [-> ->]; [lia|].
      rewrite T1, S1 by lia. done.
    + intros x Hx. rewrite (C x Hx), C1. by rewrite lookup_insert_ne.
    + intros name Hname. rewrite fmap_cons in Hname.
      apply not_elem_of_cons in Hname as [Hne Hname].
      rewrite (Hn name Hname). unfold content at 1. cbn [maps_of ClassEntry_stored].
      rewrite C1, lookup_total_insert_eq. by rewrite lookup_insert_ne.
Qed.

(** The entry of a class that no later class of the program replaces. *)
Lemma declareClasses_entry newClasses pre cls post h h' :
  forEach (declareClass newClasses) (pre ++ cls :: post)%list h = (Ok tt, h') →
  cls_name cls ∉ (cls_name <$> post) →
  ∃ fields methods,
    content h' newClasses !! cls_name cls = Some (fields, methods)
    ∧ content h' fields = fieldsOf cls
    ∧ content h' methods = methodsOf cls
    ∧ next h ≤ address fields ∧ next h ≤ address methods.
Proof.
  intros Hrun Hlast.
  destruct (declareClasses_run newClasses pre h) as (ha & Ea & Na & _).
  rewrite (forEach_app_Ok _ _ _ _ _ Ea) in Hrun. cbn [forEach] in Hrun.
  destruct (declareClass_run newClasses cls ha) as (hb & Eb & Nb & Fb & Mb & _ & _ & Cb).
  rewrite bind_run, Eb in Hrun.
  destruct (declareClasses_run newClasses post hb) as (hc & Ec & Nc & TSc & _ & Hn).
  rewrite Ec in Hrun. injection Hrun as <-.
  exists (mkRef (next ha)), (mkRef (S (next ha))).
  split; [|split; [|split; [|split]]].
  - rewrite (Hn _ Hlast). unfold content. cbn [maps_of ClassEntry_stored].
    rewrite Cb, lookup_total_insert_eq. apply lookup_insert_eq.
  - rewrite <- Fb. unfold content. cbn [maps_of Ty_stored address].
    rewrite !lookup_total_alt. by destruct (TSc (next ha)) as [-> _]; [lia|].
  - rewrite <- Mb. unfold content. cbn [maps_of Sig_stored address].
    rewrite !lookup_total_alt. by destruct (TSc (S (next ha))) as [_ ->]; [lia|].
  - cbn. lia.
  - cbn. lia.
Qed.

Lemma augmentTEnv_unfold env program :
  augmentTEnv env program =
  (newGlobs ← copy_Map (globals env);
   newFuns ← copy_Map (functions env);
   newClasses ← copy_Map (classes env);
   forEach (λ init, set newGlobs (init_name init) (init_type init)) (prog_inits program);;
   forEach (λ fun_, set newFuns (fun_name fun_) (signature fun_)) (prog_funs program);;
   forEach (declareClass newClasses) (prog_classes program);;
   mret (mkGlobalTypeEnv newGlobs newFuns newClasses)).
Proof. reflexivity. Qed.

(** What [augmentTEnv] returns, and the heap it leaves. *)
Lemma augmentTEnv_run env program h :
  let newEnv := mkGlobalTypeEnv (mkRef (next h)) (mkRef (S (next h)))
                  (mkRef (S (S (next h)))) in
  ∃ h', augmentTEnv env program h = (Ok newEnv, h')
        ∧ S (S (S (next h))) ≤ next h'
        ∧ content h' (globals newEnv)
          = declare (content h (globals env)) (prog_inits program)
        ∧ content h' (functions newEnv)
          = declareFuns (content h (functions env)) (prog_funs program)
        ∧ (∀ name, name ∉ (cls_name <$> prog_classes program) →
             content h' (classes newEnv) !! name = content h (classes env) !! name)
        ∧ (∀ pre cls post,
             prog_classes program = (pre ++ cls :: post)%list →
             cls_name cls ∉ (cls_name <$> post) →
             ∃ fields methods,
               content h' (classes newEnv) !! cls_name cls = Some (fields, methods)
               ∧ content h' fields = fieldsOf cls
               ∧ content h' methods = methodsOf cls
               ∧ next h ≤ address fields ∧ next h ≤ address methods).
Proof.
  intros newEnv. subst newEnv. cbn [globals functions classes].
  rewrite augmentTEnv_unfold.
  set (ha := mkHeap (S (next h)) (<[next h := content h (globals env)]> (typeMaps h))
               (sigMaps h) (classMaps h)).
  set (hb := mkHeap (S (S (next h))) (typeMaps ha)
               (<[S (next h) := content h (functions env)]> (sigMaps h)) (classMaps h)).
  set (hc := mkHeap (S (S (S (next h)))) (typeMaps ha) (sigMaps hb)
               (<[S (S (next h)) := content h (classes env)]> (classMaps h))).
  assert (Ea : copy_Map (globals env) h = (Ok (mkRef (next h)), ha)) by reflexivity.
  assert (Eb : copy_Map (functions env) ha = (Ok (mkRef (S (next h))), hb)) by reflexivity.
  assert (Ec : copy_Map (classes env) hb = (Ok (mkRef (S (S (next h)))), hc)) by reflexivity.
  destruct (forEach_set_Ty_run (mkRef (next h)) init_name init_type (prog_inits program) hc)
    as (hd & Ed & Nd & Sd & Cd & Hcd & _).
  destruct (forEach_set_Sig_run (mkRef (S (next h))) fun_name signature
              (prog_funs program) hd) as (he & Ee & Ne & Te & Ce & Hce & _).
  destruct (declareClasses_run (mkRef (S (S (next h)))) (prog_classes program) he)
    as (hf & Ef & Nf & TSf & _ & Hnf).
  assert (Hnext : next he = S (S (S (next h)))) by (by rewrite Ne, Nd).
  assert (Hclasses : content he (mkRef (S (S (next h))) : MapRef ClassEntry)
                     = content h (classes env)).
  { unfold content at 1. cbn [maps_of ClassEntry_stored address].
    rewrite Ce, Cd. unfold hc. cbn. by rewrite lookup_total_insert_eq. }
  exists hf. rewrite bind_run, Ea, bind_run, Eb, bind_run, Ec, bind_run, Ed, bind_run, Ee.
  rewrite bind_run, Ef, ret_run.
  split; [done|]. split; [lia|]. split; [|split; [|split]].
  - unfold content at 1. cbn [maps_of Ty_stored address]. rewrite lookup_total_alt.
    destruct (TSf (next h)) as [-> _]; [lia|]. rewrite <- lookup_total_alt, Te.
    change (typeMaps hd !!! next h) with (content hd (mkRef (next h) : MapRef Ty)).
    rewrite Hcd. unfold declare. f_equal.
    unfold content, hc, ha. cbn. by rewrite lookup_total_insert_eq.
  - unfold content at 1. cbn [maps_of Sig_stored address]. rewrite lookup_total_alt.
    destruct (TSf (S (next h))) as [_ ->]; [lia|]. rewrite <- lookup_total_alt.
    change (sigMaps he !!! S (next h)) with (content he (mkRef (S (next h)) : MapRef Sig)).
    rewrite Hce. unfold declareFuns. f_equal.
    unfold content. cbn [maps_of Sig_stored address]. rewrite Sd.
    unfold hc, hb. cbn. by rewrite lookup_total_insert_eq.
  - intros name Hname. by rewrite (Hnf name Hname), Hclasses.
  - intros pre cls post Hcls Hlast. rewrite Hcls in Ef.
    destruct (declareClasses_entry _ _ _ _ _ _ Ef Hlast)
      as (fields & methods & H1 & H2 & H3 & H4 & H5).
    exists fields, methods. repeat (split; [done || lia|]). lia.
Qed.

Lemma declare_lookup globs inits name :
  (name ∉ (init_name <$> inits) → declare globs inits !! name = globs !! name)
  ∧ (∀ pre init post, inits = (pre ++ init :: post)%list → init_name init = name →
       name ∉ (init_name <$> post) → declare globs inits !! name = Some (init_type init)).
Proof.
  split.
  - unfold declare. revert globs.
    induction inits as [|init inits IH]; intros globs Hn; cbn [foldl]; [done|].
    rewrite fmap_cons in Hn. apply not_elem_of_cons in Hn as [Hne Hn].
    rewrite IH by done. by rewrite lookup_insert_ne.
  - intros pre init post -> <- Hpost. unfold declare.
    rewrite foldl_app. cbn [foldl].
    assert (Hl : ∀ g : gmap string Ty, foldl (λ m i, <[init_name i := init_type i]> m) g post
                      !! init_name init = g !! init_name init).
    { clear -Hpost. induction post as [|i post IH]; intros g; cbn [foldl]; [done|].
      rewrite fmap_cons in Hpost. apply not_elem_of_cons in Hpost as [Hne Hpost].
      rewrite IH by done. by rewrite lookup_insert_ne. }
    rewrite Hl. apply lookup_insert_eq.
Qed.

Lemma declareFuns_lookup funs defs name :
  (name ∉ (fun_name <$> defs) → declareFuns funs defs !! name = funs !! name)
  ∧ (∀ pre fun_ post, defs = (pre ++ fun_ :: post)%list → fun_name fun_ = name →
       name ∉ (fun_name <$> post) → declareFuns funs defs !! name = Some (signature fun_)).
Proof.
  split.
  - unfold declareFuns. revert funs.
    induction defs as [|d defs IH]; intros funs Hn; cbn [foldl]; [done|].
    rewrite fmap_cons in Hn. apply not_elem_of_cons in Hn as [Hne Hn].
    rewrite IH by done. by rewrite lookup_insert_ne.
  - intros pre fun_ post -> <- Hpost. unfold declareFuns.
    rewrite foldl_app. cbn [foldl].
    assert (Hl : ∀ g : gmap string Sig, foldl (λ m f, <[fun_name f := signature f]> m) g post
                      !! fun_name fun_ = g !! fun_name fun_).
    { clear -Hpost. induction post as [|f post IH]; intros g; cbn [foldl]; [done|].
      rewrite fmap_cons in Hpost. apply not_elem_of_cons in Hpost as [Hne Hpost].
      rewrite IH by done. by rewrite lookup_insert_ne. }
    rewrite Hl. apply lookup_insert_eq.
Qed.

(** X23: [augmentTEnv] never fails.  The globals it returns are the given
    globals with every declared variable bound to its declared type, and the
    functions are the given functions with every function of the program
    bound to its signature: a name the program does not define keeps the
    binding it had, so the builtin functions stay unless the program defines
    a function of that name, and of two definitions of one name the later
    one is the one recorded. *)
Theorem augmentTEnv_declarations env program h :
  ∃ newEnv h',
    augmentTEnv env program h = (Ok newEnv, h')
    ∧ content h' (globals newEnv) = declare (content h (globals env)) (prog_inits program)
    ∧ content h' (functions newEnv)
      = declareFuns (content h (functions env)) (prog_funs program)
    ∧ (∀ name, name ∉ (init_name <$> prog_inits program) →
         content h' (globals newEnv) !! name = content h (globals env) !! name)
    ∧ (∀ name, name ∉ (fun_name <$> prog_funs program) →
         content h' (functions newEnv) !! name = content h (functions env) !! name)
    ∧ (∀ pre fun_ post,
         prog_funs program = (pre ++ fun_ :: post)%list →
         fun_name fun_ ∉ (fun_name <$> post) →
         content h' (functions newEnv) !! fun_name fun_ = Some (signature fun_)).
Proof.
  destruct (augmentTEnv_run env program h) as (h' & Hrun & _ & Hg & Hf & _).
  eexists _, h'. split; [exact Hrun|]. split; [exact Hg|]. split; [exact Hf|].
  rewrite Hg, Hf. split; [|split].
  - intros name. apply declare_lookup.
  - intros name. apply declareFuns_lookup.
  - intros pre fun_ post Hfuns Hlast.
    by apply (proj2 (declareFuns_lookup _ _ _) pre fun_ post).
Qed.

Lemma augmentTEnv_declarations_witness :
  ∃ newEnv h',
    augmentTEnv defaultTypeEnv programAbs defaultHeap = (Ok newEnv, h')
    ∧ content h' (functions newEnv) !! "abs" = Some ([NUM; NUM], NUM)
    ∧ content h' (functions newEnv) !! "max"
      = content defaultHeap (functions defaultTypeEnv) !! "max".
Proof.
  destruct (augmentTEnv_declarations defaultTypeEnv programAbs defaultHeap)
    as (newEnv & h' & Hrun & _ & _ & _ & Hkeep & Hlast).
  exists newEnv, h'. split; [exact Hrun|]. split.
  - apply (Hlast [] funAbs2 []); [reflexivity|]. cbn. apply not_elem_of_nil.
  - apply Hkeep. cbn. intros Hin. apply list_elem_of_singleton in Hin. discriminate Hin.
Defined.

(** X24: the classes [augmentTEnv] returns.  A class name the program does
    not declare keeps the entry it had; a class of the program gets an entry
    made of two new maps, which hold the fields and the methods that this
    class declares itself, each field with its declared type and each method
    with its signature; when the program declares a name twice, the entry is
    the one of the later class. *)
Theorem augmentTEnv_classes env program h :
  ∃ newEnv h',
    augmentTEnv env program h = (Ok newEnv, h')
    ∧ (∀ name, name ∉ (cls_name <$> prog_classes program) →
         content h' (classes newEnv) !! name = content h (classes env) !! name)
    ∧ (∀ pre cls post,
         prog_classes program = (pre ++ cls :: post)%list →
         cls_name cls ∉ (cls_name <$> post) →
         ∃ fields methods,
           content h' (classes newEnv) !! cls_name cls = Some (fields, methods)
           ∧ content h' fields = fieldsOf cls
           ∧ content h' methods = methodsOf cls
           ∧ next h ≤ address fields ∧ next h ≤ address methods).
Proof.
  destruct (augmentTEnv_run env program h) as (h' & Hrun & _ & _ & _ & Hkeep & Hentry).
  eexists _, h'. split; [exact Hrun|]. split; [exact Hkeep | exact Hentry].
Qed.

Lemma augmentTEnv_classes_witness :
  ∃ newEnv h' fields methods,
    augmentTEnv defaultTypeEnv (programD []) parsedHeap = (Ok newEnv, h')
    ∧ content h' (classes newEnv) !! "D" = Some (fields, methods)
    ∧ content h' fields = fieldsOf classD
    ∧ content h' methods = methodsOf classD.
Proof.
  destruct (augmentTEnv_classes defaultTypeEnv (programD []) parsedHeap)
    as (newEnv & h' & Hrun & _ & Hentry).
  destruct (Hentry [] classD [] eq_refl (not_elem_of_nil _))
    as (fields & methods & H1 & H2 & H3 & _).
  exists newEnv, h', fields, methods. auto.
Defined.

(** ** Whole programs *)

Lemma mapM_tcInit_accepted env inits h :
  Forall initAccepted inits →
  ∃ tInits, mapM (tcInit env) inits h = (Ok tInits, h).
Proof.
  induction 1 as [|init inits Hacc _ (tInits & IH)]; cbn [mapM].
  - by eexists.
  - eexists. by rewrite bind_run, (tcInit_accepted_run _ _ _ Hacc), bind_run, IH.
Qed.

(** X25: the declarations of the variables come first.  When one of the
    top-level declarations of a program is not accepted by [tcInit], the
    program is rejected with the type mismatch of the first such
    declaration, whatever its functions, classes and statements are. *)
Theorem tc_rejects_bad_declaration env program h pre bad post :
  prog_inits program = (pre ++ bad :: post)%list →
  Forall initAccepted pre →
  ¬ initAccepted bad →
  outcome (tc env program) h
  = Throw (TypeMismatchError (tag (init_type bad)) (tag (tcLiteral (init_value bad)))
             (init_loc bad)).
Proof.
  intros Hinits Hpre Hbad.
  destruct (emptyLocalTypeEnv_run h) as (h1 & E1 & _).
  destruct (augmentTEnv_run env program h1) as (h2 & E2 & _).
  destruct (mapM_tcInit_accepted env pre h2 Hpre) as (tPre & E3).
  unfold outcome, tc. rewrite bind_run, E1, bind_run, E2, bind_run.
  rewrite Hinits, (mapM_app_Ok _ _ _ _ _ _ E3). cbn [mapM].
  by rewrite bind_run, (tcInit_rejected_run _ _ _ Hbad).
Qed.

Lemma tc_rejects_bad_declaration_witness :
  prog_inits programBadInit = ([] ++ mkVarInit None "x" NUM (LBool true) 1 :: [])%list
  ∧ ¬ initAccepted (mkVarInit None "x" NUM (LBool true) 1)
  ∧ outcome (tc defaultTypeEnv programBadInit) defaultHeap
    = Throw (TypeMismatchError "number" "bool" 1).
Proof.
  assert (Hbad : ¬ initAccepted (mkVarInit None "x" NUM (LBool true) 1)).
  { intros [H|(H & _)]; discriminate H. }
  split; [reflexivity|]. split; [exact Hbad|].
  exact (tc_rejects_bad_declaration defaultTypeEnv programBadInit defaultHeap [] _ []
           eq_refl (Forall_nil_2 _) Hbad).
Defined.

(** X26: the program [tc] returns.  Its type is the type of its last
    statement, and the none type when it has no statement; it has a type in
    either case; it has as many declarations, functions, classes and
    statements as the program that was given, and its location. *)
Theorem tc_returned_program env program h tProgram newEnv h' :
  tc env program h = (Ok (tProgram, newEnv), h') →
  prog_a tProgram
  = match last (prog_stmts tProgram) with
    | Some stmt => Stmt_a stmt
    | None => Some NONE
    end
  ∧ is_Some (prog_a tProgram)
  ∧ (prog_stmts program = [] → prog_a tProgram = Some NONE)
  ∧ length (prog_inits tProgram) = length (prog_inits program)
  ∧ length (prog_funs tProgram) = length (prog_funs program)
  ∧ length (prog_classes tProgram) = length (prog_classes program)
  ∧ length (prog_stmts tProgram) = length (prog_stmts program)
  ∧ prog_loc tProgram = prog_loc program.
Proof.
  intros Hrun. unfold tc in Hrun.
  apply bind_Ok_inv in Hrun as (locals & h1 & _ & Hrun).
  apply bind_Ok_inv in Hrun as (newEnv' & h2 & _ & Hrun).
  apply bind_Ok_inv in Hrun as (tInits & h3 & E3 & Hrun).
  apply bind_Ok_inv in Hrun as (tDefs & h4 & E4 & Hrun).
  apply bind_Ok_inv in Hrun as (tClasses & h5 & E5 & Hrun).
  apply bind_Ok_inv in Hrun as (tBody & h6 & E6 & Hrun).
  apply bind_Ok_inv in Hrun as (names & h7 & _ & Hrun).
  apply bind_Ok_inv in Hrun as ([] & h8 & _ & Hrun).
  rewrite ret_run in Hrun. injection Hrun as <- <- <-.
  cbn [prog_a prog_inits prog_funs prog_classes prog_stmts prog_loc].
  apply mapM_Ok_length in E3, E4, E5.
  pose proof (mapM_Ok_length _ _ _ _ _ E6) as Hlen.
  assert (Hann : Forall (λ s, is_Some (Stmt_a s)) tBody).
  { eapply mapM_Ok_Forall; [|exact E6]. apply Forall_true. intros s. apply tcStmt_annotated. }
  split; [done|]. split; [|split].
  - destruct (last tBody) as [stmt|] eqn:El; [|by eexists].
    apply last_Some_elem_of in El. rewrite Forall_forall in Hann. by apply Hann.
  - intros Hnil. rewrite Hnil in Hlen. by destruct tBody.
  - auto.
Qed.

Lemma tc_returned_program_witness :
  ∃ newEnv h',
    tc defaultTypeEnv (programD [SExpr None lookup_d_n 3]) parsedHeap
    = (Ok (mkProgram (Some NUM)
             [mkVarInit (Some NONE) "d" D_of_d LNone 0] []
             [mkClass (Some NONE) "D" [mkVarInit (Some NONE) "n" NUM (LNum 0) 0]
                [mkFunDef (Some NONE) "__init__" [mkParam "self" D_of_init_self]
                   NONE [] [SPass (Some NONE) 0] 0;
                 mkFunDef (Some NONE) "get" [mkParam "self" D_of_get_self] NUM []
                   [SReturn (Some NUM)
                      (ELookup (Some NUM) (EId (Some D_of_get_self) "self" 1) "n" 2)
                      3] 0] 0]
             [SExpr (Some NUM) (ELookup (Some NUM) (EId (Some D_of_d) "d" 1) "n" 2) 3]
             0, newEnv), h')
    ∧ is_Some (Some NUM).
Proof.
  destruct (tc defaultTypeEnv (programD [SExpr None lookup_d_n 3]) parsedHeap)
    as [[[tProgram newEnv]|e] h'] eqn:Hrun.
  - pose proof (tc_returned_program _ _ _ _ _ _ Hrun) as (_ & Hsome & _).
    assert (Hp : outcome (tc defaultTypeEnv (programD [SExpr None lookup_d_n 3])) parsedHeap
                 = Ok (tProgram, newEnv)) by (unfold outcome; by rewrite Hrun).
    rewrite heapD_is_the_heap_of_tc in Hp. vm_compute in Hp. injection Hp as <- <-.
    eexists _, h'. split; [reflexivity|]. exact Hsome.
  - exfalso.
    assert (Hp : outcome (tc defaultTypeEnv (programD [SExpr None lookup_d_n 3])) parsedHeap
                 = Throw e) by (unfold outcome; by rewrite Hrun).
    rewrite heapD_is_the_heap_of_tc in Hp. vm_compute in Hp. discriminate Hp.
Defined.

(** The heaps [tc] goes through when it succeeds: the one [augmentTEnv]
    starts from and the one it leaves; after that, no map that exists is
    written to. *)
Lemma tc_Ok_heaps env program h tProgram newEnv h' :
  tc env program h = (Ok (tProgram, newEnv), h') →
  ∃ h1 h2,
    next h1 = S (next h)
    ∧ preserves (next h) h h1
    ∧ augmentTEnv env program h1 = (Ok newEnv, h2)
    ∧ preserves (next h2) h2 h'.
Proof.
  intros Hrun. unfold tc in Hrun.
  apply bind_Ok_inv in Hrun as (locals & h1 & E1 & Hrun).
  apply bind_Ok_inv in Hrun as (newEnv' & h2 & E2 & Hrun).
  apply bind_Ok_inv in Hrun as (tInits & h3 & E3 & Hrun).
  apply bind_Ok_inv in Hrun as (tDefs & h4 & E4 & Hrun).
  apply bind_Ok_inv in Hrun as (tClasses & h5 & E5 & Hrun).
  apply bind_Ok_inv in Hrun as (tBody & h6 & E6 & Hrun).
  apply bind_Ok_inv in Hrun as (names & h7 & E7 & Hrun).
  destruct (keeps_emptyLocalTypeEnv (next h) _ _ _ (le_n _) E1) as [P1 _].
  apply emptyLocalTypeEnv_Ok_inv in E1 as (A1 & N1 & C1 & _).
  destruct (keeps_augmentTEnv (next h1) env program _ _ _ (le_n _) E2) as [P2 _].
  pose proof E2 as E2'. apply augmentTEnv_globals in E2' as (_ & N2 & _).
  assert (K3 := keeps_mapM_all (next h2) _ (prog_inits program) (keeps_tcInit _ env)).
  destruct (K3 _ _ _ (le_n _) E3) as [P3 _].
  assert (K4 := keeps_mapM_all (next h2) _ (prog_funs program) (keeps_tcDef _ newEnv')).
  assert (L3 : next h2 ≤ next h3) by (destruct P3; lia).
  destruct (K4 _ _ _ L3 E4) as [P4 _].
  assert (K5 := keeps_mapM_all (next h2) _ (prog_classes program) (keeps_tcClass _ newEnv')).
  assert (L4 : next h2 ≤ next h4) by (destruct P4; lia).
  destruct (K5 _ _ _ L4 E5) as [P5 _].
  assert (L5 : next h2 ≤ next h5) by (destruct P5; lia).
  destruct (keeps_tcBlock (next h2) newEnv' locals _ _ _ _ L5 E6) as [P6 _].
  assert (P26 : preserves (next h2) h2 h6).
  { eapply preserves_trans; [eapply preserves_trans; [eapply preserves_trans|]|];
      eassumption. }
  rewrite keys_run in E7. injection E7 as <- <-.
  rewrite (content_preserved (next h2) h2 h6) in Hrun by (done || lia).
  rewrite (content_preserved (next h1) h1 h2) in Hrun by (done || lia).
  rewrite C1, map_to_list_empty in Hrun. cbn [fmap list_fmap forEach] in Hrun.
  rewrite bind_run, ret_run, ret_run in Hrun. injection Hrun as <- <- <-.
  exists h1, h2. auto.
Qed.

(** X27: what a later chunk sees.  When [tc] accepts a program against an
    environment whose maps are in the heap, the environment it returns has,
    for every variable, function and class name that the program does not
    declare, the binding the given environment had; and its functions are
    the given functions with the functions of the program. *)
Theorem tc_environment_grows env program h tProgram newEnv h' :
  env_in_heap env h →
  tc env program h = (Ok (tProgram, newEnv), h') →
  content h' (functions newEnv) = declareFuns (content h (functions env)) (prog_funs program)
  ∧ (∀ name, name ∉ (init_name <$> prog_inits program) →
       content h' (globals newEnv) !! name = content h (globals env) !! name)
  ∧ (∀ name, name ∉ (fun_name <$> prog_funs program) →
       content h' (functions newEnv) !! name = content h (functions env) !! name)
  ∧ (∀ name, name ∉ (cls_name <$> prog_classes program) →
       content h' (classes newEnv) !! name = content h (classes env) !! name).
Proof.
  intros (Hg & Hf & Hc) Hrun.
  destruct (tc_Ok_heaps _ _ _ _ _ _ Hrun) as (h1 & h2 & N1 & P1 & E2 & P2).
  destruct (augmentTEnv_run env program h1) as (h2' & E2' & N2 & Cg & Cf & Ckeep & _).
  rewrite E2 in E2'. injection E2' as -> <-.
  cbn [globals functions classes] in *.
  rewrite !(content_preserved _ _ _ _ P2) by (cbn; lia).
  rewrite Cg, Cf.
  rewrite (content_preserved _ _ _ _ P1 Hg), (content_preserved _ _ _ _ P1 Hf).
  split; [done|]. split; [|split].
  - intros name. apply declare_lookup.
  - intros name. apply declareFuns_lookup.
  - intros name Hname. rewrite (Ckeep name Hname).
    by rewrite (content_preserved _ _ _ _ P1 Hc).
Qed.

Lemma tc_environment_grows_witness :
  env_in_heap defaultTypeEnv parsedHeap
  ∧ ∃ tProgram newEnv h',
      tc defaultTypeEnv (programD []) parsedHeap = (Ok (tProgram, newEnv), h')
      ∧ content h' (functions newEnv) !! "print"
        = content parsedHeap (functions defaultTypeEnv) !! "print".
Proof.
  assert (Henv : env_in_heap defaultTypeEnv parsedHeap) by (unfold env_in_heap; cbn; lia).
  split; [exact Henv|].
  destruct (tc defaultTypeEnv (programD []) parsedHeap)
    as [[[tProgram newEnv]|e] h'] eqn:Hrun.
  - exists tProgram, newEnv, h'. split; [reflexivity|].
    apply (proj1 (proj2 (proj2 (tc_environment_grows _ _ _ _ _ _ Henv Hrun)))).
    cbn. apply not_elem_of_nil.
  - exfalso.
    assert (Hp : outcome (tc defaultTypeEnv (programD [])) parsedHeap = Throw e)
      by (unfold outcome; by rewrite Hrun).
    vm_compute in Hp. discriminate Hp.
Defined.

Lemma mapM_tcInit_accepted_run env inits h :
  Forall initAccepted inits →
  mapM (tcInit env) inits h = (Ok (checkedInit <$> inits), h).
Proof.
  induction 1 as [|init inits Hacc _ IH]; cbn [mapM]; [done|].
  by rewrite bind_run, (tcInit_accepted_run _ _ _ Hacc), bind_run, IH.
Qed.

(** X28: how [tcClass] checks a class.  The field declarations are checked
    first, in order, and a field that [tcInit] does not accept is reported
    before any method is looked at; when all fields are accepted the methods
    are checked one after the other as plain functions, each in a scope of
    its own parameters and local declarations, and the class comes back with
    the type none, its name and location, its fields marked and its methods
    checked. *)
Theorem tcClass_rules env cls h :
  (∀ pre bad post,
     cls_fields cls = (pre ++ bad :: post)%list →
     Forall initAccepted pre →
     ¬ initAccepted bad →
     tcClass env cls h
     = (Throw (TypeMismatchError (tag (init_type bad)) (tag (tcLiteral (init_value bad)))
                 (init_loc bad)), h))
  ∧ (Forall initAccepted (cls_fields cls) →
     tcClass env cls h
     = match mapM (tcDef env) (cls_methods cls) h with
       | (Ok tMethods, h') =>
           (Ok (mkClass (Some NONE) (cls_name cls) (checkedInit <$> cls_fields cls)
                  tMethods (cls_loc cls)), h')
       | (Throw e, h') => (Throw e, h')
       end).
Proof.
  split.
  - intros pre bad post Hfields Hpre Hbad. unfold tcClass.
    rewrite bind_run, Hfields.
    rewrite (mapM_app_Ok _ _ _ _ _ _ (mapM_tcInit_accepted_run env pre h Hpre)).
    cbn [mapM]. by rewrite bind_run, (tcInit_rejected_run _ _ _ Hbad).
  - intros Hall. unfold tcClass.
    rewrite bind_run, (mapM_tcInit_accepted_run env _ h Hall), bind_run.
    by destruct (mapM (tcDef env) (cls_methods cls) h) as [[tMethods|e] h'].
Qed.

Lemma tcClass_rules_witness :
  cls_fields classBadField = ([] ++ mkVarInit None "n" NUM LNone 1 :: [])%list
  ∧ ¬ initAccepted (mkVarInit None "n" NUM LNone 1)
  ∧ tcClass defaultTypeEnv classBadField parsedHeap
    = (Throw (TypeMismatchError "number" "none" 1), parsedHeap).
Proof.
  assert (Hbad : ¬ initAccepted (mkVarInit None "n" NUM LNone 1)).
  { intros [H|(_ & c & H)]; discriminate H. }
  split; [reflexivity|]. split; [exact Hbad|].
  exact (proj1 (tcClass_rules defaultTypeEnv classBadField parsedHeap) [] _ [] eq_refl
           (Forall_nil_2 _) Hbad).
Defined.
